(** * Stable Bloom Filter (sbf.go): a shallow embedding and its properties

    The Go package [sbf] is embedded function by function.  Unsigned
    machine integers are [Z] with the wrap-around written out ([u32],
    [u64]); [float64] is the kernel's binary64 ([PrimFloat.float]); the
    bit array [filter []uint64] is a [list Z] read and written by index;
    a call that may panic returns an [outcome]. *)

From Stdlib Require Import ZArith Lia Bool List QArith Qabs.
From Stdlib Require Import Reals Qreals Lra.
From Stdlib Require Import PrimFloat FloatOps SpecFloat Uint63.
From Stdlib Require Strings.Byte.
From Stdlib Require FloatAxioms.
From stdpp Require Import base list.
Import ListNotations.

#[local] Open Scope Z_scope.

(** ** Outcomes of a Go call *)

(** The run-time panics the package can raise. *)
Inductive panic : Type :=
| DivideByZero          (* integer divide by zero *)
| IndexOutOfRange       (* slice index out of range *)
| CloseOfClosedChannel  (* close of closed channel *)
| NonPositiveInterval.  (* time.NewTicker: non-positive interval *)

(** A call returns, panics, or (in the model of a [for] loop that is not
    counted) is cut off by the model's iteration budget. *)
Inductive outcome (A : Type) : Type :=
| Ret (a : A)
| Panic (p : panic)
| OutOfFuel.

Arguments Ret {A} a.
Arguments Panic {A} p.
Arguments OutOfFuel {A}.

Definition obind {A B} (x : outcome A) (f : A -> outcome B) : outcome B :=
  match x with
  | Ret a => f a
  | Panic p => Panic p
  | OutOfFuel => OutOfFuel
  end.

#[global] Instance outcome_ret : MRet outcome := @Ret.
#[global] Instance outcome_bind : MBind outcome := fun A B f x => obind x f.

(** A Go [error] value; [None] is [nil]. *)
Inductive error : Type :=
| ErrItems      (* expected number of items n must be greater than 0 *)
| ErrRate       (* false positive rate p must be between 0 and 1 (exclusive) *)
| ErrSize.      (* filter size m must be greater than 0 *)

(** ** Machine words *)

Module Word.

Definition u32 (z : Z) : Z := z mod 2 ^ 32.
Definition u64 (z : Z) : Z := z mod 2 ^ 64.

(** [uint64(1) << n] for an unsigned shift count: bits shifted past
    the word are lost, so a count of 64 or more gives 0. *)
Definition shl1 (n : Z) : Z := u64 (Z.shiftl 1 n).

(** [bits.OnesCount64] *)
Definition OnesCount64 (x : Z) : Z :=
  fold_right (fun i acc => Z.b2z (Z.testbit x (Z.of_nat i)) + acc) 0 (seq 0 64).

(** [bits.TrailingZeros64]: the number of trailing zero bits, 64 for 0. *)
Fixpoint tz_from (fuel : nat) (i : Z) (x : Z) : Z :=
  match fuel with
  | O => i
  | S fuel' => if Z.testbit x i then i else tz_from fuel' (i + 1) x
  end.
Definition TrailingZeros64 (x : Z) : Z := tz_from 64 0 x.

End Word.
Import Word.

(** ** float64 *)

Module F64.

#[local] Open Scope float_scope.

(** [float64(x)] for an unsigned integer below 2^53: exact. *)
Definition of_uint (z : Z) : float := PrimFloat.of_uint63 (Uint63.of_Z z).

Definition is_nan (f : float) : bool := negb (PrimFloat.eqb f f).

(** [math.Ceil]: the least integer value greater than or equal to [f];
    zeros, infinities and NaN are returned as they are. *)
Definition Ceil (f : float) : float :=
  match Prim2SF f with
  | S754_finite s m e =>
      if (0 <=? e)%Z then f
      else
        let d := (2 ^ (- e))%Z in
        let q := (Z.pos m / d)%Z in
        if s then - of_uint q
        else of_uint (if (Z.pos m mod d =? 0)%Z then q else (q + 1)%Z)
  | _ => f
  end.

(** [math.Round]: the nearest integer, halves away from zero. *)
Definition Round (f : float) : float :=
  match Prim2SF f with
  | S754_finite s m e =>
      if (0 <=? e)%Z then f
      else
        let d := (2 ^ (- e))%Z in
        let q := ((2 * Z.pos m + d) / (2 * d))%Z in
        if s then - of_uint q else of_uint q
  | _ => f
  end.

(** The integer part of a finite float (truncation toward zero). *)
Definition trunc (f : float) : option Z :=
  match Prim2SF f with
  | S754_zero _ => Some 0%Z
  | S754_finite s m e =>
      let a := (if 0 <=? e then Z.pos m * 2 ^ e else Z.pos m / 2 ^ (- e))%Z in
      Some (if s then (- a)%Z else a)
  | _ => None
  end.

Section Conversion.
(** What the platform yields for [uint32(f)] when the truncated value
    is not representable (the language leaves it to the
    implementation). *)
Variable unrepresentable : float -> Z.

(** [uint32(f)] *)
Definition to_uint32 (f : float) : Z :=
  match trunc f with
  | Some z => if ((0 <=? z) && (z <? 2 ^ 32))%Z then z else u32 (unrepresentable f)
  | None => u32 (unrepresentable f)
  end.
End Conversion.

(** [math.Ln2], the untyped constant of package math. *)
Definition Ln2_const : Q := 693147180559945309417232121458176568 # (10 ^ 36).

(** [math.Ln2] converted to float64. *)
Definition Ln2 : float := 0x1.62e42fefa39efp-1.

(** [math.Ln2 * math.Ln2]: a constant expression, evaluated exactly and
    converted to float64 once. *)
Definition Ln2Sq : float := 0x1.ebfbdff82c58fp-2.

(** The exact value [m * 2^e] of a float given by mantissa and exponent. *)
Definition Qval (m : positive) (e : Z) : Q := inject_Z (Z.pos m) * (2 ^ e)%Q.

(** [x] is the binary64 nearest to the positive rational [q]:
    a 53-bit mantissa, and less than half a unit in the last place away. *)
Definition nearest_to (q : Q) (x : float) : Prop :=
  exists m e, Prim2SF x = S754_finite false m e
    /\ (2 ^ 52 <= Z.pos m < 2 ^ 53)%Z
    /\ (Qabs (q - Qval m e) < Qval 1 (e - 1))%Q.

End F64.

(** ** Sizing: [OptimalM] and [OptimalK] *)

Section Sizing.
#[local] Open Scope float_scope.

(** [math.Log] of the Go library (an external collaborator). *)
Variable Log : float -> float.
(** The platform's [uint32(f)] for an unrepresentable [f]. *)
Variable unrepresentable : float -> Z.

Definition OptimalM (n : Z) (p : float) : Z * option error :=
  if (n =? 0)%Z then (0%Z, Some ErrItems)
  else if (p <=? 0.0) || (1.0 <=? p) then (0%Z, Some ErrRate)
  else
    let m := - F64.of_uint n * Log p / F64.Ln2Sq in
    (F64.to_uint32 unrepresentable (F64.Ceil m), None).

Definition OptimalK (m n : Z) : Z * option error :=
  if (n =? 0)%Z then (0%Z, Some ErrItems)
  else if (m =? 0)%Z then (0%Z, Some ErrSize)
  else
    let k := (F64.of_uint m / F64.of_uint n) * F64.Ln2 in
    (F64.to_uint32 unrepresentable (F64.Round k), None).

End Sizing.

(** ** The filter *)

(** [type Hash64 func(data []byte) uint64] *)
Abbreviation Hash64 := (list Byte.byte -> Z).

(** [time.Duration]: a signed count of nanoseconds. *)
Definition Duration : Type := Z.
Definition Minute : Duration := 60000000000.
Definition Hour : Duration := 3600000000000.

Module Sbf.
(** [type StableBloomFilter struct].  The ticker, the stop channel and
    the wait group are kept by what the package does with them: the
    ticker runs or is stopped, the channel is open or closed, the wait
    group counts the decay goroutine. *)
Record t : Type := mk {
  m : Z;
  k : Z;
  decayRate : float;
  filter : list Z;
  numBuckets : Z;
  hashFuncs : list Hash64;
  tickerRunning : bool;
  stopChanClosed : bool;
  wgCount : Z
}.

Definition with_filter (s : t) (f : list Z) : t :=
  mk (m s) (k s) (decayRate s) f (numBuckets s) (hashFuncs s)
     (tickerRunning s) (stopChanClosed s) (wgCount s).

Definition with_lifecycle (s : t) (ticker closed : bool) (wg : Z) : t :=
  mk (m s) (k s) (decayRate s) (filter s) (numBuckets s) (hashFuncs s)
     ticker closed wg.

End Sbf.

Section Filter.
(** [xxh3.HashSeed] of the hashing library (an external collaborator). *)
Variable HashSeed : list Byte.byte -> Z -> Z.

(** [makeHashFunc] *)
Definition makeHashFunc (seed : Z) : Hash64 :=
  fun data => HashSeed data seed.

(** [NewStableBloomFilter].  [time.NewTicker] panics on an interval that
    is not positive; [go sbf.startDecay()] is the one count of the wait
    group. *)
Definition NewStableBloomFilter (m : Z) (hashFuncs : list Hash64)
    (decayRate : float) (decayInterval : Duration)
  : outcome (Sbf.t * option error) :=
  let hashFuncs :=
    if Z.of_nat (length hashFuncs) =? 0
    then map (fun i => makeHashFunc (u64 (Z.of_nat i))) (seq 0 7)
    else hashFuncs in
  let k := u32 (Z.of_nat (length hashFuncs)) in
  let m := if negb (m mod 64 =? 0) then u32 (m + (64 - m mod 64)) else m in
  let numBuckets := m / 64 in
  let filter := replicate (Z.to_nat numBuckets) 0 in
  if decayInterval <=? 0 then Panic NonPositiveInterval
  else
    Ret (Sbf.mk m k decayRate filter numBuckets hashFuncs true false 1, None).

(** [hashIndex]: the function's result is a uint64; [%] by zero panics. *)
Definition hashIndex (s : Sbf.t) (data : list Byte.byte) (i : Z) : outcome Z :=
  match Sbf.hashFuncs s !! Z.to_nat i with
  | None => Panic IndexOutOfRange
  | Some h =>
      let sum := u64 (h data) in
      if Sbf.m s =? 0 then Panic DivideByZero
      else Ret (u32 (sum mod Sbf.m s))
  end.

(** [atomicSetBit], as one caller alone runs it: [*addr |= mask]. *)
Definition atomicSetBit (w : Z) (n : Z) : Z := Z.lor w (shl1 n).

(** [atomicGetBit] *)
Definition atomicGetBit (w : Z) (n : Z) : bool :=
  negb (Z.land w (shl1 n) =? 0).

(** One round of the loop of [Add]. *)
Definition Add_round (data : list Byte.byte) (s : Sbf.t) (i : Z) : outcome Sbf.t :=
  idx ← hashIndex s data i;
  let bucketIdx := idx / 64 in
  let bitIdx := idx mod 64 in
  match Sbf.filter s !! Z.to_nat bucketIdx with
  | None => Panic IndexOutOfRange
  | Some w =>
      Ret (Sbf.with_filter s
             (<[Z.to_nat bucketIdx := atomicSetBit w bitIdx]> (Sbf.filter s)))
  end.

Fixpoint Add_loop (data : list Byte.byte) (s : Sbf.t) (idxs : list Z) : outcome Sbf.t :=
  match idxs with
  | [] => Ret s
  | i :: idxs' => s' ← Add_round data s i; Add_loop data s' idxs'
  end.

(** [Add]: [for i := uint32(0); i < sbf.k; i++]. *)
Definition Add (s : Sbf.t) (data : list Byte.byte) : outcome Sbf.t :=
  Add_loop data s (seqZ 0 (Sbf.k s)).

Fixpoint Check_loop (data : list Byte.byte) (s : Sbf.t) (idxs : list Z) : outcome bool :=
  match idxs with
  | [] => Ret true
  | i :: idxs' =>
      idx ← hashIndex s data i;
      let bucketIdx := idx / 64 in
      let bitIdx := idx mod 64 in
      match Sbf.filter s !! Z.to_nat bucketIdx with
      | None => Panic IndexOutOfRange
      | Some w =>
          if negb (atomicGetBit w bitIdx) then Ret false
          else Check_loop data s idxs'
      end
  end.

(** [Check] *)
Definition Check (s : Sbf.t) (data : list Byte.byte) : outcome bool :=
  Check_loop data s (seqZ 0 (Sbf.k s)).

(** [StopDecay]: [sbf.decayTicker.Stop()], then [close(sbf.stopChan)],
    which panics on a closed channel, then [sbf.wg.Wait()]: the decay
    goroutine takes the closed channel's case of its [select] and returns.
    The decay cycles that goroutine still runs before it returns are not
    part of this step. *)
Definition StopDecay (s : Sbf.t) : outcome Sbf.t :=
  let s := Sbf.with_lifecycle s false (Sbf.stopChanClosed s) (Sbf.wgCount s) in
  s ← (if Sbf.stopChanClosed s then Panic CloseOfClosedChannel
       else Ret (Sbf.with_lifecycle s (Sbf.tickerRunning s) true (Sbf.wgCount s)));
  Ret (Sbf.with_lifecycle s (Sbf.tickerRunning s) (Sbf.stopChanClosed s) 0).

End Filter.

(** ** Decay *)

(** [*rand.Rand]: a seeded source is the sequence of its draws and a
    cursor into it. *)
Record Rand : Type := mkRand { draws : nat -> float; cursor : nat }.

(** [randSrc.Float64()] *)
Definition Float64 (r : Rand) : float * Rand :=
  (draws r (cursor r), mkRand (draws r) (S (cursor r))).

(** The loop of [decayBucket], [for bucket != 0 { ... }], with a budget of
    rounds. *)
Fixpoint decayLoop (fuel : nat) (bucket : Z) (decayRate : float) (randSrc : Rand)
  : outcome (Z * Rand) :=
  if bucket =? 0 then Ret (bucket, randSrc)
  else
    match fuel with
    | O => OutOfFuel
    | S fuel' =>
        let bitPos := TrailingZeros64 bucket in
        let (x, randSrc) := Float64 randSrc in
        let bucket :=
          if (x <? decayRate)%float then Z.ldiff bucket (shl1 bitPos) else bucket in
        let bucket := Z.land bucket (u64 (bucket - 1)) in
        decayLoop fuel' bucket decayRate randSrc
    end.

(** [decayBucket]: every round clears a set bit of a 64-bit word, so 64
    rounds are the budget. *)
Definition decayBucket (bucket : Z) (decayRate : float) (randSrc : Rand)
  : outcome (Z * Rand) :=
  if bucket =? 0 then Ret (0, randSrc)
  else decayLoop 64 bucket decayRate randSrc.

(** The body of a worker of [decay]: [for j := start; j < end; j++]. *)
Fixpoint decayRange (filter : list Z) (decayRate : float) (randSrc : Rand)
    (js : list Z) : outcome (list Z) :=
  match js with
  | [] => Ret filter
  | j :: js' =>
      match filter !! Z.to_nat j with
      | None => Panic IndexOutOfRange
      | Some oldVal =>
          '(newVal, randSrc') ← decayBucket oldVal decayRate randSrc;
          decayRange (<[Z.to_nat j := newVal]> filter) decayRate randSrc' js'
      end
  end.

Section Decay.
(** [runtime.NumCPU()] *)
Variable NumCPU : Z.
(** The source a worker seeds from the clock and its [start]. *)
Variable newRand : Z -> Rand.

(** The bounds [start, end) of worker [i]. *)
Definition chunk (numBuckets chunkSize i : Z) : Z * Z :=
  let start := i * chunkSize in
  let end_ := start + chunkSize in
  let end_ :=
    if (i =? NumCPU - 1) || (numBuckets <? end_) then numBuckets else end_ in
  (start, end_).

(** The size of a chunk as [decay] computes it. *)
Definition chunkSizeOf (numBuckets : Z) : Z :=
  let chunkSize := Z.quot numBuckets NumCPU in
  if chunkSize =? 0 then numBuckets else chunkSize.

Fixpoint decayWorkers (filter : list Z) (decayRate : float)
    (numBuckets chunkSize : Z) (workers : list Z) : outcome (list Z) :=
  match workers with
  | [] => Ret filter
  | i :: workers' =>
      let '(start, end_) := chunk numBuckets chunkSize i in
      filter' ← decayRange filter decayRate (newRand start)
                  (seqZ start (end_ - start));
      decayWorkers filter' decayRate numBuckets chunkSize workers'
  end.

(** [decay].  The workers own disjoint ranges of words, so they are run
    here one after the other, in the order they are started. *)
Definition decay (s : Sbf.t) : outcome Sbf.t :=
  if NumCPU =? 0 then Panic DivideByZero
  else
    let chunkSize := Z.quot (Sbf.numBuckets s) NumCPU in
    let chunkSize := if chunkSize =? 0 then Sbf.numBuckets s else chunkSize in
    filter' ← decayWorkers (Sbf.filter s) (Sbf.decayRate s)
                (Sbf.numBuckets s) chunkSize (seqZ 0 NumCPU);
    Ret (Sbf.with_filter s filter').

End Decay.

(** ** Estimation *)

Section Estimate.
(** [math.Pow] of the Go library (an external collaborator). *)
Variable Pow : float -> float -> float.

(** The counting loop: [bitsSet += uint32(bits.OnesCount64(bucket))]. *)
Definition countSetBits (filter : list Z) : Z :=
  fold_left (fun bitsSet bucket => u32 (bitsSet + u32 (OnesCount64 bucket))) filter 0.

(** [EstimateFalsePositiveRate] *)
Definition EstimateFalsePositiveRate (s : Sbf.t) : float :=
  let bitsSet := countSetBits (Sbf.filter s) in
  let fractionBitsSet := (F64.of_uint bitsSet / F64.of_uint (Sbf.m s))%float in
  Pow fractionBitsSet (F64.of_uint (Sbf.k s)).

End Estimate.

(** ** [math.Pow] *)

(** [y] is an odd integer. *)
Definition isOddInt (y : float) : bool :=
  match F64.trunc y with
  | Some z => (F64.Ceil y =? y)%float && Z.odd z
  | None => false
  end.

(** [math.Signbit] *)
Definition Signbit (x : float) : bool :=
  match Prim2SF x with
  | S754_zero s | S754_infinity s | S754_finite s _ _ => s
  | S754_nan => false
  end.

(** [math.Pow] of the Go library, by the special cases its documentation
    lists, in their order, for an exponent of 0 or 1, a base of 1, a NaN
    and a base of zero; every other case is left to [pow_other]. *)
Definition Pow (pow_other : float -> float -> float) (x y : float) : float :=
  if ((y =? 0) || (x =? 1))%float then 1%float
  else if (y =? 1)%float then x
  else if F64.is_nan x || F64.is_nan y then nan
  else if (x =? 0)%float then
    if (y <? 0)%float then
      if Signbit x && isOddInt y then neg_infinity else infinity
    else
      if Signbit x && isOddInt y then x else 0%float
  else pow_other x y.

(** [f] lies in [0, 1]. *)
Definition in_unit_interval (f : float) : bool := ((0 <=? f) && (f <=? 1))%float.

(** ** Two callers of [atomicSetBit] on one word *)

Module Race.

(** A goroutine inside [atomicSetBit(addr, n)].  The statement
    [*addr |= mask] is an ordinary read of the word followed by an
    ordinary write of the value read with the mask or-ed in; another
    goroutine may run between the two. *)
Inductive goroutine : Type :=
| Called (n : Z)
| HasRead (n : Z) (val : Z)
| Returned.

Definition step (w : Z) (g : goroutine) : Z * goroutine :=
  match g with
  | Called n => (w, HasRead n w)
  | HasRead n val => (atomicSetBit val n, Returned)
  | Returned => (w, Returned)
  end.

(** The same call made with the read-modify-write primitive
    [atomic.OrUint64], which the comment in the source names. *)
Definition step_OrUint64 (w : Z) (g : goroutine) : Z * goroutine :=
  match g with
  | Called n => (Z.lor w (shl1 n), Returned)
  | HasRead n val => (atomicSetBit val n, Returned)
  | Returned => (w, Returned)
  end.

(** A schedule names, step by step, the goroutine that runs. *)
Fixpoint run (step : Z -> goroutine -> Z * goroutine) (sched : list nat)
    (w : Z) (gs : list goroutine) : Z * list goroutine :=
  match sched with
  | [] => (w, gs)
  | t :: sched' =>
      match gs !! t with
      | None => run step sched' w gs
      | Some g => let '(w', g') := step w g in run step sched' w' (<[t := g']> gs)
      end
  end.

End Race.

(** Goroutine [t] is to set bit [n]: it has not run yet, or it has
    returned and the bit is set. *)
Definition settled (ns : list Z) (w : Z) (gs : list Race.goroutine) : Prop :=
  length gs = length ns
  /\ forall t n, ns !! t = Some n ->
       gs !! t = Some (Race.Called n)
       \/ (gs !! t = Some Race.Returned /\ Z.testbit w n = true).

(** ** The invariant of a usable filter, and what the properties speak of *)

Definition is_word (w : Z) : Prop := 0 <= w < 2 ^ 64.

(** A filter as the constructor builds it and [Add] and [decay] keep it,
    of size at least 1. *)
Record wf (s : Sbf.t) : Prop := mk_wf {
  wf_m : 0 < Sbf.m s < 2 ^ 32;
  wf_m64 : Sbf.m s mod 64 = 0;
  wf_buckets : Sbf.numBuckets s = Sbf.m s / 64;
  wf_len : Z.of_nat (length (Sbf.filter s)) = Sbf.numBuckets s;
  wf_k : 0 <= Sbf.k s <= Z.of_nat (length (Sbf.hashFuncs s));
  wf_words : Forall (fun w => 0 <= w < 2 ^ 64) (Sbf.filter s)
}.

(** Bit [idx] of the bit array. *)
Definition bitAt (filter : list Z) (idx : Z) : bool :=
  match filter !! Z.to_nat (idx / 64) with
  | Some w => Z.testbit w (idx mod 64)
  | None => false
  end.

(** [hash_i(data) mod m] *)
Definition index (s : Sbf.t) (h : Hash64) (data : list Byte.byte) : Z :=
  u64 (h data) mod Sbf.m s.

(** Two filters with the same configuration. *)
Definition same_config (s s' : Sbf.t) : Prop :=
  Sbf.m s' = Sbf.m s /\ Sbf.k s' = Sbf.k s /\ Sbf.hashFuncs s' = Sbf.hashFuncs s
  /\ Sbf.numBuckets s' = Sbf.numBuckets s /\ Sbf.decayRate s' = Sbf.decayRate s.

(** The size the constructor stores for a requested size [m]. *)
Definition roundedSize (m : Z) : Z :=
  if negb (m mod 64 =? 0) then u32 (m + (64 - m mod 64)) else m.

(** [round(x)] over the real numbers: the nearest integer, halves away
    from zero. *)
Definition Rround (x : R) : Z :=
  if Rle_dec 0 x then Int_part (x + / 2) else - Int_part (- x + / 2).

(** The product [(m/n) * ln 2] of the spec's formula, a real number. *)
Definition OptimalK_exact (m n : Z) : R := IZR m / IZR n * ln 2.

(** The formula of [OptimalK] as the spec words it, [round((m/n) * ln 2)],
    over the real numbers. *)
Definition OptimalK_formula (m n : Z) : Z := Rround (OptimalK_exact m n).

(** Rational bounds of [ln 2], from the partial sums of the series of
    [exp(-q)], the sum of [(-1)^i q^i / i!]. *)
Fixpoint Qpow (q : Q) (n : nat) : Q :=
  match n with
  | O => 1
  | S n' => q * Qpow q n'
  end.

Fixpoint Zfact (n : nat) : Z :=
  match n with
  | O => 1
  | S n' => Z.of_nat n * Zfact n'
  end.

Definition Qfact (n : nat) : Q := inject_Z (Zfact n).

Fixpoint exp_neg_sum (q : Q) (N : nat) : Q :=
  match N with
  | O => 1
  | S N' => Qred (exp_neg_sum q N' + Qpow (- (1)) N * (Qpow q N / Qfact N))
  end.

Definition ln2_lo : Q := 6931471805599453 # 10000000000000000.
Definition ln2_hi : Q := 6931471805599454 # 10000000000000000.

(** [k - 1/2 <= (m/n) * ln2_lo] and [(m/n) * ln2_hi <= k + 1/2], for
    positive [n], with the denominators cleared. *)
Definition brackets (m n k : Z) : bool :=
  ((2 * k - 1) * n * Z.pos (Qden ln2_lo) <=? 2 * m * Qnum ln2_lo)
  && (2 * m * Qnum ln2_hi <=? (2 * k + 1) * n * Z.pos (Qden ln2_hi)).

(** ** What the float64 error bounds speak of *)

(** [2^e] as a real number. *)
Definition bpow (e : Z) : R := powerRZ 2 e.

(** The real number [m * 2^e]. *)
Definition F2R (m e : Z) : R := (IZR m * bpow e)%R.

(** [x] lies between [m * 2^e] and [(m+1) * 2^e], at location [l]: on
    the lower end, below the middle, on the middle, or above it. *)
Definition located (m : Z) (l : location) (e : Z) (x : R) : Prop :=
  match l with
  | loc_Exact => x = F2R m e
  | loc_Inexact Lt => (F2R m e < x < (IZR m + / 2) * bpow e)%R
  | loc_Inexact Eq => x = ((IZR m + / 2) * bpow e)%R
  | loc_Inexact Gt => ((IZR m + / 2) * bpow e < x < (IZR m + 1) * bpow e)%R
  end.

(** The record of a shifted mantissa locates [x]. *)
Definition rec_inv (mrs : shr_record) (e : Z) (x : R) : Prop :=
  0 <= shr_m mrs /\ located (shr_m mrs) (loc_of_shr_record mrs) e x.

(** ** The Go library's logarithm *)

(** [math.Log] is a parameter of the sizing functions.  On concrete inputs
    they are run with the portable implementation of the Go library,
    [func log] of math/log.go: the argument is reduced to
    [2^k * (1 + f)] with [sqrt(2)/2 <= 1 + f < sqrt(2)], and [log(1 + f)]
    is computed from a polynomial in [s = f / (2 + f)]. *)
Module GoMath.
#[local] Open Scope float_scope.

Definition Ln2Hi : float := 0x1.62e42fee00000p-1. (* 6.93147180369123816490e-01 *)
Definition Ln2Lo : float := 0x1.a39ef35793c76p-33. (* 1.90821492927058770002e-10 *)
Definition L1 : float := 0x1.5555555555593p-1. (* 6.666666666666735130e-01 *)
Definition L2 : float := 0x1.999999997fa04p-2. (* 3.999999999940941908e-01 *)
Definition L3 : float := 0x1.2492494229359p-2. (* 2.857142874366239149e-01 *)
Definition L4 : float := 0x1.c71c51d8e78afp-3. (* 2.222219843214978396e-01 *)
Definition L5 : float := 0x1.7466496cb03dep-3. (* 1.818357216161805012e-01 *)
Definition L6 : float := 0x1.39a09d078c69fp-3. (* 1.531383769920937332e-01 *)
Definition L7 : float := 0x1.2f112df3e5244p-3. (* 1.479819860511658591e-01 *)

(** The constant [Sqrt2 / 2], converted to float64. *)
Definition HalfSqrt2 : float := 0x1.6a09e667f3bcdp-1.

(** [float64(k)] for an [int] of small magnitude. *)
Definition of_int (k : Z) : float :=
  if (k <? 0)%Z then - F64.of_uint (- k) else F64.of_uint k.

(** [math.Log] *)
Definition log (x : float) : float :=
  if F64.is_nan x || (x =? infinity) then x
  else if x <? 0 then nan
  else if x =? 0 then neg_infinity
  else
    let '(f1, ki) := Z.frexp x in
    let '(f1, ki) := if f1 <? HalfSqrt2 then (f1 * 2, (ki - 1)%Z) else (f1, ki) in
    let f := f1 - 1 in
    let k := of_int ki in
    let s := f / (2 + f) in
    let s2 := s * s in
    let s4 := s2 * s2 in
    let t1 := s2 * (L1 + s4 * (L3 + s4 * (L5 + s4 * L7))) in
    let t2 := s4 * (L2 + s4 * (L4 + s4 * L6)) in
    let R := t1 + t2 in
    let hfsq := 0x1p-1 * f * f in
    k * Ln2Hi - ((hfsq - (s * (hfsq + R) + k * Ln2Lo)) - f).

End GoMath.

(** The float64 values at most two units in the last place away from
    [x]. *)
Definition within_two_ulps (x : float) : list float :=
  [next_down (next_down x); next_down x; x; next_up x; next_up (next_up x)].

(** ** Concrete inputs *)

(** Two hash functions, a seeded hash, and the two bytes of the string
    ab. *)
Module Sample.
Definition h_len : Hash64 := fun data => Z.of_nat (length data).
Definition h_sum : Hash64 :=
  fun data => fold_right (fun b acc => Z.of_N (Byte.to_N b) + 31 * acc) 7 data.
Definition HashSeed (data : list Byte.byte) (seed : Z) : Z :=
  u64 (h_sum data * 2654435761 + seed).
Definition hashes : list Hash64 := [h_len; h_sum].
Definition ab : list Byte.byte := [Byte.x61; Byte.x62].
(** [math.Log]: the Go library's. *)
Definition Log (p : float) : float := GoMath.log p.
(** A platform whose conversion of an unrepresentable value yields 0. *)
Definition unrepresentable (f : float) : Z := 0.
End Sample.

(** The filter of 128 bits built for the sample hash functions. *)
Definition sample_filter : Sbf.t :=
  Sbf.mk 128 2 0x1p-1 [0; 0] 2 Sample.hashes true false 1.

(** The sample filter built with decay rate 0. *)
Definition sample_filter0 : Sbf.t :=
  Sbf.mk 128 2 0 [0; 0] 2 Sample.hashes true false 1.

(** A source whose every draw is one half. *)
Definition halves (start : Z) : Rand := mkRand (fun _ => 0x1p-1%float) 0.

(** ** The capacity-derived constructor *)

Section DefaultFilter.
(** [math.Log], the platform's conversion and [xxh3.HashSeed], as above. *)
Variable Log : float -> float.
Variable unrepresentable : float -> Z.
Variable HashSeed : list Byte.byte -> Z -> Z.

(** [NewDefaultStableBloomFilter].  The pointer it returns is [nil]
    ([None]) beside an error of the sizing functions. *)
Definition NewDefaultStableBloomFilter (expectedItems : Z)
    (falsePositiveRate decayRate : float) (decayInterval : Duration)
  : outcome (option Sbf.t * option error) :=
  let '(m, err) := OptimalM Log unrepresentable expectedItems falsePositiveRate in
  match err with
  | Some e => Ret (None, Some e)
  | None =>
      let '(k, err) := OptimalK unrepresentable m expectedItems in
      match err with
      | Some e => Ret (None, Some e)
      | None =>
          let hashFuncs :=
            map (fun i => makeHashFunc HashSeed (u64 i)) (seqZ 0 k) in
          let decayRate :=
            if (decayRate =? 0)%float then 0x1.47ae147ae147bp-7%float
            else decayRate in
          let decayInterval :=
            if decayInterval =? 0 then Minute else decayInterval in
          '(sbf, e) ← NewStableBloomFilter HashSeed m hashFuncs decayRate
                         decayInterval;
          Ret (Some sbf, e)
      end
  end.

End DefaultFilter.

(** ** What the further properties speak of *)

(** The number of set bits of the bit array, counted without a bound. *)
Definition setBits (filter : list Z) : Z :=
  fold_right (fun w acc => OnesCount64 w + acc) 0 filter.

(** [idx] is one of the [k] indices of [data]. *)
Definition hits (s : Sbf.t) (data : list Byte.byte) (idx : Z) : Prop :=
  exists i h, 0 <= i < Sbf.k s /\ Sbf.hashFuncs s !! Z.to_nat i = Some h
              /\ idx = index s h data.

(** ** Goroutines inside [Add] *)

(** [Add] called by several goroutines at once.  The statement
    [*addr |= mask] of [atomicSetBit] is a read of the word and a write of
    it; between the two, other goroutines run.  [hashIndex] reads [m] and
    [hashFuncs] only, which nothing writes after construction. *)
Module Workers.

(** A goroutine inside [Add(data)]: the rounds of the loop it has still
    to run and, between the two accesses of [*addr |= mask], the word it
    has read. *)
Record worker : Type := mk {
  data : list Byte.byte;
  rounds : list Z;
  held : option Z
}.

(** A goroutine that has called [Add(data)] and run no round yet. *)
Definition call (s : Sbf.t) (data : list Byte.byte) : worker :=
  mk data (seqZ 0 (Sbf.k s)) None.

(** The goroutine has returned from [Add]. *)
Definition returned (g : worker) : bool :=
  match rounds g with
  | [] => true
  | _ => false
  end.

(** One memory access of a goroutine in round [i] of the loop of [Add]:
    the read of [filter[bucketIdx]], or the write to it of the value read
    with the mask or-ed in, which ends the round.  A goroutine that has
    returned does nothing. *)
Definition step (s : Sbf.t) (g : worker) : outcome (Sbf.t * worker) :=
  match rounds g with
  | [] => Ret (s, g)
  | i :: rest =>
      idx ← hashIndex s (data g) i;
      let bucketIdx := idx / 64 in
      let bitIdx := idx mod 64 in
      match Sbf.filter s !! Z.to_nat bucketIdx with
      | None => Panic IndexOutOfRange
      | Some w =>
          match held g with
          | None => Ret (s, mk (data g) (i :: rest) (Some w))
          | Some val =>
              Ret (Sbf.with_filter s
                     (<[Z.to_nat bucketIdx := atomicSetBit val bitIdx]> (Sbf.filter s)),
                   mk (data g) rest None)
          end
      end
  end.

(** A schedule names, access by access, the goroutine that runs. *)
Fixpoint run (sched : list nat) (s : Sbf.t) (gs : list worker)
  : outcome (Sbf.t * list worker) :=
  match sched with
  | [] => Ret (s, gs)
  | t :: sched' =>
      match gs !! t with
      | None => run sched' s gs
      | Some g => '(s', g') ← step s g; run sched' s' (<[t := g']> gs)
      end
  end.

End Workers.

(** The rounds a goroutine has left are rounds of the loop, and the word
    it holds is a 64-bit word. *)
Definition valid (s : Sbf.t) (g : Workers.worker) : Prop :=
  Forall (fun i => 0 <= i < Sbf.k s) (Workers.rounds g)
  /\ forall v, Workers.held g = Some v -> is_word v.

(** No round the goroutine has left writes a word in which [data] has a
    bit. *)
Definition apart (s : Sbf.t) (data : list Byte.byte) (g : Workers.worker) : Prop :=
  forall i h idx,
    In i (Workers.rounds g) -> Sbf.hashFuncs s !! Z.to_nat i = Some h ->
    hits s data idx -> index s h (Workers.data g) / 64 <> idx / 64.

(** The memory accesses goroutine [g] has left. *)
Definition accesses_left (g : Workers.worker) : nat :=
  match Workers.held g with
  | None => 2 * length (Workers.rounds g)
  | Some _ => 2 * length (Workers.rounds g) - 1
  end.

(** What holds of the caller [a] of [Add(data)], [j] rounds into its loop,
    while the other goroutines stay apart from its words. *)
Record caller_inv (s0 : Sbf.t) (data : list Byte.byte) (a : nat)
    (s : Sbf.t) (gs : list Workers.worker) : Prop := mk_caller_inv {
  ci_wf : wf s;
  ci_cfg : s = Sbf.with_filter s0 (Sbf.filter s);
  ci_valid : forall t g, gs !! t = Some g -> valid s0 g;
  ci_apart : forall t g, t <> a -> gs !! t = Some g -> apart s0 data g;
  ci_caller : exists g j,
    gs !! a = Some g /\ Workers.data g = data
    /\ 0 <= j <= Sbf.k s0 /\ Workers.rounds g = seqZ j (Sbf.k s0 - j)
    /\ (forall i h, 0 <= i < j -> Sbf.hashFuncs s0 !! Z.to_nat i = Some h ->
          bitAt (Sbf.filter s) (index s0 h data) = true)
    /\ (forall v, Workers.held g = Some v ->
          exists h, j < Sbf.k s0 /\ Sbf.hashFuncs s0 !! Z.to_nat j = Some h
                    /\ Sbf.filter s !! Z.to_nat (index s0 h data / 64) = Some v)
}.

(** The number of accesses the schedule gives goroutine [a]. *)
Definition turns (a : nat) (sched : list nat) : nat :=
  length (List.filter (Nat.eqb a) sched).

(** No bit of [data] is in a word in which [data'] has a bit. *)
Definition words_apart (s : Sbf.t) (data data' : list Byte.byte) : Prop :=
  forall idx idx', hits s data idx -> hits s data' idx' -> idx / 64 <> idx' / 64.

(** The goroutines that have called [Add], one for each element. *)
Definition callers (s : Sbf.t) (datas : list (list Byte.byte)) : list Workers.worker :=
  map (Workers.call s) datas.

(** An element of one byte, with both bits in the first word of the
    sample filter. *)
Definition a_byte : list Byte.byte := [Byte.x61].

(** An element of 65 zero bytes, with both bits in the second word of the
    sample filter. *)
Definition long_element : list Byte.byte := repeat Byte.x00 65.

(** * Properties *)

(** The invariant [wf] of a concrete filter, by computation. *)
Ltac wf_by_computation :=
  constructor; cbn; first [lia | reflexivity | (repeat constructor; lia)].

(** ** Machine words *)

Lemma u32_range z : 0 <= u32 z < 2 ^ 32.
Proof. unfold u32. apply Z.mod_pos_bound. lia. Qed.

Lemma u64_range z : 0 <= u64 z < 2 ^ 64.
Proof. unfold u64. apply Z.mod_pos_bound. lia. Qed.

Lemma u32_small z : 0 <= z < 2 ^ 32 -> u32 z = z.
Proof. intros. unfold u32. apply Z.mod_small. lia. Qed.

Lemma u64_small z : 0 <= z < 2 ^ 64 -> u64 z = z.
Proof. intros. unfold u64. apply Z.mod_small. lia. Qed.

Lemma shl1_small n : 0 <= n < 64 -> shl1 n = 2 ^ n.
Proof.
  intros Hn. unfold shl1. rewrite Z.shiftl_1_l. apply u64_small.
  split; [apply Z.pow_nonneg; lia|]. apply Z.pow_lt_mono_r; lia.
Qed.

Lemma testbit_shl1 n i :
  0 <= n < 64 -> 0 <= i -> Z.testbit (shl1 n) i = Z.eqb n i.
Proof.
  intros Hn Hi. rewrite shl1_small by lia.
  destruct (Z.eqb_spec n i) as [->|Hne].
  - apply Z.pow2_bits_true; lia.
  - apply Z.pow2_bits_false; lia.
Qed.

(** ** The constants of float64 *)

Lemma Ln2_nearest : F64.nearest_to F64.Ln2_const F64.Ln2.
Proof.
  exists 6243314768165359%positive, (-53)%Z.
  split; [reflexivity|]. split; [lia|]. vm_compute. reflexivity.
Qed.

Lemma Ln2Sq_nearest : F64.nearest_to (F64.Ln2_const * F64.Ln2_const) F64.Ln2Sq.
Proof.
  exists 8655072057804175%positive, (-54)%Z.
  split; [reflexivity|]. split; [lia|]. vm_compute. reflexivity.
Qed.

(** The constant is not the product of the two rounded factors. *)
Lemma Ln2Sq_not_float_product :
  PrimFloat.eqb F64.Ln2Sq (F64.Ln2 * F64.Ln2)%float = false.
Proof. reflexivity. Qed.

(** ** Bits of a word *)

Lemma land_pow2 (w n : Z) :
  0 <= n -> Z.land w (2 ^ n) = if Z.testbit w n then 2 ^ n else 0.
Proof.
  intros Hn. apply Z.bits_inj'. intros i Hi.
  rewrite Z.land_spec.
  destruct (Z.eqb_spec n i) as [->|Hne].
  - rewrite Z.pow2_bits_true by lia.
    destruct (Z.testbit w i) eqn:E; simpl.
    + now rewrite Z.pow2_bits_true by lia.
    + now rewrite Z.bits_0.
  - rewrite Z.pow2_bits_false by lia. rewrite andb_false_r.
    destruct (Z.testbit w n).
    + now rewrite Z.pow2_bits_false by lia.
    + now rewrite Z.bits_0.
Qed.

Lemma atomicGetBit_testbit (w n : Z) :
  0 <= n < 64 -> atomicGetBit w n = Z.testbit w n.
Proof.
  intros Hn. unfold atomicGetBit. rewrite shl1_small by lia.
  rewrite land_pow2 by lia.
  destruct (Z.testbit w n); simpl.
  - destruct (Z.eqb_spec (2 ^ n) 0) as [E|]; [|reflexivity].
    pose proof (Z.pow_pos_nonneg 2 n). lia.
  - reflexivity.
Qed.

Lemma atomicSetBit_testbit (w n i : Z) :
  0 <= n < 64 -> 0 <= i ->
  Z.testbit (atomicSetBit w n) i = Z.testbit w i || (n =? i).
Proof.
  intros Hn Hi. unfold atomicSetBit.
  now rewrite Z.lor_spec, testbit_shl1 by lia.
Qed.

Lemma word_range_bits (w : Z) :
  0 <= w < 2 ^ 64 <-> (0 <= w /\ forall i, 64 <= i -> Z.testbit w i = false).
Proof.
  split.
  - intros [H0 H1]. split; [assumption|]. intros i Hi.
    destruct (Z.eq_dec w 0) as [->|Hne]; [apply Z.bits_0|].
    apply Z.bits_above_log2; [lia|].
    assert (Z.log2 w < 64) by (apply Z.log2_lt_pow2; lia). lia.
  - intros [H0 H1]. split; [assumption|].
    destruct (Z.eq_dec w 0) as [->|Hne]; [lia|].
    apply Z.log2_lt_pow2; [lia|].
    destruct (Z_lt_le_dec (Z.log2 w) 64) as [|Hge]; [assumption|].
    pose proof (Z.bit_log2 w ltac:(lia)) as Hb.
    rewrite H1 in Hb by lia. discriminate.
Qed.

Lemma atomicSetBit_range (w n : Z) :
  0 <= w < 2 ^ 64 -> 0 <= n < 64 -> 0 <= atomicSetBit w n < 2 ^ 64.
Proof.
  intros Hw Hn. apply word_range_bits in Hw as [Hw0 Hw1].
  apply word_range_bits. split.
  - unfold atomicSetBit. apply Z.lor_nonneg. split; [assumption|].
    rewrite shl1_small by lia. apply Z.pow_nonneg; lia.
  - intros i Hi. rewrite atomicSetBit_testbit by lia.
    rewrite Hw1 by lia. simpl. apply Z.eqb_neq. lia.
Qed.

(** ** The invariant of a usable filter *)

Lemma index_range s h data : wf s -> 0 <= index s h data < Sbf.m s.
Proof. intros [Hm _ _ _ _ _]. unfold index. apply Z.mod_pos_bound. lia. Qed.

Lemma hashIndex_wf s data i :
  wf s -> 0 <= i < Sbf.k s ->
  exists h, Sbf.hashFuncs s !! Z.to_nat i = Some h
            /\ hashIndex s data i = Ret (index s h data).
Proof.
  intros Hwf Hi. pose proof (wf_m s Hwf) as Hm. pose proof (wf_k s Hwf) as Hk.
  destruct (lookup_lt_is_Some_2 (Sbf.hashFuncs s) (Z.to_nat i)) as [h Hh]; [lia|].
  exists h. split; [assumption|]. unfold hashIndex. rewrite Hh.
  destruct (Z.eqb_spec (Sbf.m s) 0) as [E|_]; [lia|].
  f_equal. apply u32_small. fold (index s h data).
  pose proof (index_range s h data Hwf). lia.
Qed.

Lemma bucket_in_range s idx :
  wf s -> 0 <= idx < Sbf.m s ->
  (Z.to_nat (idx / 64) < length (Sbf.filter s))%nat
  /\ 0 <= idx mod 64 < 64.
Proof.
  intros Hwf Hidx. pose proof (wf_len s Hwf) as Hlen.
  rewrite (wf_buckets s Hwf) in Hlen. pose proof (wf_m64 s Hwf) as H64.
  split; [|apply Z.mod_pos_bound; lia].
  assert (idx / 64 < Sbf.m s / 64).
  { apply Z.div_lt_upper_bound; [lia|].
    rewrite <- Z_div_exact_full_2; lia. }
  assert (0 <= idx / 64) by (apply Z.div_pos; lia). lia.
Qed.

Lemma bitAt_insert (filter : list Z) (b : nat) (w : Z) (idx : Z) :
  (b < length filter)%nat ->
  bitAt (<[b := w]> filter) idx =
    if decide (b = Z.to_nat (idx / 64)) then Z.testbit w (idx mod 64)
    else bitAt filter idx.
Proof.
  intros Hb. unfold bitAt. destruct (decide (b = Z.to_nat (idx / 64))) as [<-|Hne].
  - now rewrite list_lookup_insert_eq.
  - now rewrite list_lookup_insert_ne.
Qed.

(** One round of [Add] sets its bit and clears none. *)
Lemma Add_round_wf s data i :
  wf s -> 0 <= i < Sbf.k s ->
  exists s' h,
    Sbf.hashFuncs s !! Z.to_nat i = Some h
    /\ Add_round data s i = Ret s'
    /\ wf s' /\ same_config s s'
    /\ bitAt (Sbf.filter s') (index s h data) = true
    /\ (forall j, 0 <= j -> bitAt (Sbf.filter s) j = true ->
                  bitAt (Sbf.filter s') j = true).
Proof.
  intros Hwf Hi. destruct (hashIndex_wf s data i Hwf Hi) as (h & Hh & Hidx).
  pose proof (index_range s h data Hwf) as Hr.
  destruct (bucket_in_range s _ Hwf Hr) as [Hb Hbit].
  destruct (lookup_lt_is_Some_2 _ _ Hb) as [w Hw].
  unfold Add_round. rewrite Hidx. cbn. rewrite Hw.
  eexists _, h. split; [exact Hh|]. split; [reflexivity|].
  assert (Hwr : 0 <= w < 2 ^ 64).
  { pose proof (wf_words s Hwf) as Hall. rewrite Forall_lookup in Hall.
    exact (Hall _ _ Hw). }
  destruct Hwf as [Hm H64 Hnb Hlen Hk Hws].
  split; [|split; [|split]].
  - constructor; cbn; try assumption.
    + now rewrite length_insert.
    + apply Forall_insert; [assumption|]. now apply atomicSetBit_range.
  - repeat split.
  - cbn. rewrite bitAt_insert by assumption.
    rewrite decide_True by reflexivity.
    rewrite atomicSetBit_testbit by lia. rewrite Z.eqb_refl. apply orb_true_r.
  - intros j Hj Hset. cbn. rewrite bitAt_insert by assumption.
    destruct (decide _) as [E|_]; [|assumption].
    unfold bitAt in Hset. rewrite <- E, Hw in Hset.
    rewrite atomicSetBit_testbit; [|lia|apply Z.mod_pos_bound; lia].
    now rewrite Hset.
Qed.

Lemma same_config_refl s : same_config s s.
Proof. repeat split. Qed.

Lemma same_config_trans s1 s2 s3 :
  same_config s1 s2 -> same_config s2 s3 -> same_config s1 s3.
Proof.
  intros (A1 & A2 & A3 & A4 & A5) (B1 & B2 & B3 & B4 & B5).
  repeat split; congruence.
Qed.

(** The loop of [Add] over rounds [idxs]: it returns, keeps the invariant
    and the configuration, sets the bit of every round and clears none. *)
Lemma Add_loop_wf data idxs : forall s,
  wf s -> Forall (fun i => 0 <= i < Sbf.k s) idxs ->
  exists s',
    Add_loop data s idxs = Ret s' /\ wf s' /\ same_config s s'
    /\ (forall i h, In i idxs -> Sbf.hashFuncs s !! Z.to_nat i = Some h ->
                    bitAt (Sbf.filter s') (index s h data) = true)
    /\ (forall j, 0 <= j -> bitAt (Sbf.filter s) j = true ->
                  bitAt (Sbf.filter s') j = true).
Proof.
  induction idxs as [|i idxs IH]; intros s Hwf Hall.
  - exists s. cbn. split; [reflexivity|]. split; [assumption|].
    split; [apply same_config_refl|]. split; [intros ? ? []|auto].
  - inversion Hall as [|? ? Hi Hrest]; subst.
    destruct (Add_round_wf s data i Hwf Hi)
      as (s1 & h & Hh & Hround & Hwf1 & Hcfg1 & Hset1 & Hmono1).
    destruct Hcfg1 as (Em & Ek & Eh & Enb & Er).
    destruct (IH s1 Hwf1) as (s' & Hloop & Hwf' & Hcfg' & Hset' & Hmono').
    { rewrite Ek. assumption. }
    exists s'. cbn. rewrite Hround. cbn. split; [exact Hloop|].
    split; [assumption|].
    split; [eapply same_config_trans; [|exact Hcfg']; repeat split; assumption|].
    split.
    + intros i' h' [<-|Hin] Hh'.
      * rewrite Hh in Hh'. injection Hh' as <-.
        apply Hmono'; [apply index_range; assumption|assumption].
      * rewrite <- Eh in Hh'. specialize (Hset' i' h' Hin Hh').
        unfold index in *. rewrite Em in Hset'. exact Hset'.
    + intros j Hj Hb. apply Hmono'; [assumption|]. now apply Hmono1.
Qed.

Lemma seqZ_range (n : Z) : Forall (fun i => 0 <= i < n) (seqZ 0 n).
Proof.
  apply Forall_forall. intros i Hi. apply elem_of_seqZ in Hi. lia.
Qed.

(** The loop of [Check] over rounds [idxs]: it returns, and returns true
    exactly when the bit of every round is set. *)
Lemma Check_loop_wf data s idxs :
  wf s -> Forall (fun i => 0 <= i < Sbf.k s) idxs ->
  exists b,
    Check_loop data s idxs = Ret b
    /\ (b = true <->
        forall i h, In i idxs -> Sbf.hashFuncs s !! Z.to_nat i = Some h ->
                    bitAt (Sbf.filter s) (index s h data) = true).
Proof.
  intros Hwf. induction idxs as [|i idxs IH]; intros Hall.
  - exists true. cbn. split; [reflexivity|]. split; [intros _ ? ? []|reflexivity].
  - inversion Hall as [|? ? Hi Hrest]; subst.
    destruct (hashIndex_wf s data i Hwf Hi) as (h & Hh & Hidx).
    pose proof (index_range s h data Hwf) as Hr.
    destruct (bucket_in_range s _ Hwf Hr) as [Hb Hbit].
    destruct (lookup_lt_is_Some_2 _ _ Hb) as [w Hw].
    cbn. rewrite Hidx. cbn. rewrite Hw.
    rewrite atomicGetBit_testbit by assumption.
    assert (Hbw : bitAt (Sbf.filter s) (index s h data)
                  = Z.testbit w (index s h data mod 64)).
    { unfold bitAt. now rewrite Hw. }
    destruct (Z.testbit w (index s h data mod 64)) eqn:Ebit; cbn.
    + destruct (IH Hrest) as (b & Hloop & Hiff). exists b.
      split; [assumption|]. rewrite Hiff. split.
      * intros Hrec i' h' [<-|Hin] Hh'.
        -- rewrite Hh in Hh'. injection Hh' as <-. assumption.
        -- apply (Hrec i' h'); assumption.
      * intros Hrec i' h' Hin Hh'. apply (Hrec i' h'); [now right|assumption].
    + exists false. split; [reflexivity|]. split; [discriminate|].
      intros Hrec. specialize (Hrec i h (or_introl eq_refl) Hh). congruence.
Qed.

(** ** Construction *)

Lemma roundedSize_multiple (m : Z) : roundedSize m mod 64 = 0.
Proof.
  unfold roundedSize. destruct (Z.eqb_spec (m mod 64) 0) as [E|E]; cbn; [assumption|].
  unfold u32. rewrite Z.mod_mod_divide by (exists 67108864; reflexivity).
  rewrite (Z.div_mod m 64) at 1 by lia.
  replace (64 * (m / 64) + m mod 64 + (64 - m mod 64)) with ((m / 64 + 1) * 64) by lia.
  apply Z.mod_mul. lia.
Qed.

Lemma roundedSize_in_range (m : Z) :
  0 <= m <= 2 ^ 32 - 64 ->
  m <= roundedSize m < m + 64 /\ 0 <= roundedSize m < 2 ^ 32.
Proof.
  intros Hm. unfold roundedSize.
  pose proof (Z.mod_pos_bound m 64 ltac:(lia)) as Hr.
  destruct (Z.eqb_spec (m mod 64) 0) as [E|E]; cbn; [lia|].
  assert (m + (64 - m mod 64) <= 2 ^ 32 - 64).
  { pose proof (Z.div_mod m 64 ltac:(lia)) as Hd.
    assert (m / 64 < 67108863) by (apply Z.div_lt_upper_bound; lia). lia. }
  rewrite u32_small by lia. lia.
Qed.

Lemma roundedSize_range (m : Z) : 0 <= m < 2 ^ 32 -> 0 <= roundedSize m < 2 ^ 32.
Proof.
  intros Hm. unfold roundedSize. destruct (negb _); [apply u32_range|assumption].
Qed.

Lemma roundedSize_wraps (m : Z) :
  2 ^ 32 - 64 < m < 2 ^ 32 -> roundedSize m = 0.
Proof.
  intros Hm. unfold roundedSize.
  pose proof (Z.div_mod m 64 ltac:(lia)) as Hd.
  pose proof (Z.mod_pos_bound m 64 ltac:(lia)) as Hr.
  assert (m / 64 = 67108863).
  { assert (67108863 <= m / 64) by (apply Z.div_le_lower_bound; lia).
    assert (m / 64 < 67108864) by (apply Z.div_lt_upper_bound; lia). lia. }
  destruct (Z.eqb_spec (m mod 64) 0) as [E|E]; cbn; [lia|].
  replace (m + (64 - m mod 64)) with (2 ^ 32) by lia. reflexivity.
Qed.

(** What the constructor returns when the interval is positive. *)
Lemma NewStableBloomFilter_returns HashSeed m hashFuncs decayRate decayInterval :
  0 < decayInterval ->
  exists s,
    NewStableBloomFilter HashSeed m hashFuncs decayRate decayInterval = Ret (s, None)
    /\ Sbf.m s = roundedSize m
    /\ Sbf.numBuckets s = roundedSize m / 64
    /\ Sbf.filter s = replicate (Z.to_nat (roundedSize m / 64)) 0
    /\ Sbf.decayRate s = decayRate
    /\ Sbf.stopChanClosed s = false
    /\ Sbf.k s = u32 (Z.of_nat (length (Sbf.hashFuncs s)))
    /\ Sbf.hashFuncs s =
         (if Z.of_nat (length hashFuncs) =? 0
          then map (fun i => makeHashFunc HashSeed (u64 (Z.of_nat i))) (seq 0 7)
          else hashFuncs).
Proof.
  intros Hd. unfold NewStableBloomFilter.
  destruct (Z.leb_spec decayInterval 0) as [|_]; [lia|].
  eexists. split; [reflexivity|]. cbn. fold (roundedSize m). repeat split.
Qed.

Lemma NewStableBloomFilter_wf HashSeed m hashFuncs decayRate decayInterval s e :
  0 <= m < 2 ^ 32 ->
  NewStableBloomFilter HashSeed m hashFuncs decayRate decayInterval = Ret (s, e) ->
  0 < Sbf.m s -> wf s.
Proof.
  intros Hm Hnew Hpos.
  destruct (Z.leb_spec decayInterval 0) as [Hle|Hd].
  { unfold NewStableBloomFilter in Hnew.
    destruct (Z.leb_spec decayInterval 0); [discriminate|lia]. }
  destruct (NewStableBloomFilter_returns HashSeed m hashFuncs decayRate _ Hd)
    as (s0 & Hs0 & Em & Enb & Ef & _ & _ & Ek & _).
  rewrite Hs0 in Hnew. injection Hnew as <- _.
  pose proof (roundedSize_range m Hm) as Hr.
  pose proof (roundedSize_multiple m) as H64.
  constructor.
  - lia.
  - now rewrite Em.
  - now rewrite Enb, Em.
  - rewrite Ef, Enb, length_replicate. apply Z2Nat.id. apply Z.div_pos; lia.
  - rewrite Ek. pose proof (u32_range (Z.of_nat (length (Sbf.hashFuncs s0)))).
    split; [lia|]. unfold u32. apply Z.mod_le; lia.
  - rewrite Ef. apply Forall_replicate. lia.
Qed.

Lemma first_round (k : Z) : 0 < k -> seqZ 0 k = 0 :: seqZ 1 (Z.pred k).
Proof. intros Hk. now rewrite seqZ_cons by lia. Qed.

Lemma zero_size_hashIndex s data h :
  Sbf.m s = 0 -> Sbf.hashFuncs s !! 0%nat = Some h ->
  hashIndex s data 0 = Panic DivideByZero.
Proof.
  intros Hm Hh. unfold hashIndex. change (Z.to_nat 0) with 0%nat.
  rewrite Hh, Hm. reflexivity.
Qed.

Lemma default_hashFuncs_length HashSeed (hashFuncs : list Hash64) :
  Z.of_nat (length hashFuncs) < 2 ^ 32 ->
  0 < u32 (Z.of_nat (length
        (if Z.of_nat (length hashFuncs) =? 0
         then map (fun i => makeHashFunc HashSeed (u64 (Z.of_nat i))) (seq 0 7)
         else hashFuncs))).
Proof.
  intros Hlen. destruct (Z.eqb_spec (Z.of_nat (length hashFuncs)) 0) as [E|E].
  - cbn. reflexivity.
  - rewrite u32_small by lia. lia.
Qed.

(** C10.  A requested size of 0 is accepted: the constructor returns a
    filter and a nil error, the filter's size is 0, and every call of
    [Add] or [Check] on it panics with an integer division by zero
    (for any slice of fewer than 2^32 hash functions, the empty one
    included, and a positive decay interval). *)
Theorem zero_size_filter_faults HashSeed (hashFuncs : list Hash64)
    (decayRate : float) (decayInterval : Duration) :
  Z.of_nat (length hashFuncs) < 2 ^ 32 -> 0 < decayInterval ->
  exists s,
    NewStableBloomFilter HashSeed 0 hashFuncs decayRate decayInterval = Ret (s, None)
    /\ Sbf.m s = 0
    /\ forall data, Add s data = Panic DivideByZero
                    /\ Check s data = Panic DivideByZero.
Proof.
  intros Hlen Hd.
  destruct (NewStableBloomFilter_returns HashSeed 0 hashFuncs decayRate _ Hd)
    as (s & Hs & Em & _ & _ & _ & _ & Ek & Eh).
  exists s. split; [assumption|]. split; [assumption|].
  pose proof (default_hashFuncs_length HashSeed hashFuncs Hlen) as Hk.
  rewrite <- Eh, <- Ek in Hk.
  assert (Hh : exists h, Sbf.hashFuncs s !! 0%nat = Some h).
  { destruct (Sbf.hashFuncs s) as [|h l] eqn:E; [|now exists h].
    rewrite Ek in Hk. vm_compute in Hk. discriminate. }
  destruct Hh as [h Hh]. intros data.
  unfold Add, Check. rewrite first_round by assumption. cbn.
  unfold Add_round. rewrite (zero_size_hashIndex s data h) by assumption.
  split; reflexivity.
Qed.

Lemma zero_size_filter_faults_witness :
  exists s,
    NewStableBloomFilter Sample.HashSeed 0 Sample.hashes 0.5 Minute = Ret (s, None)
    /\ Sbf.m s = 0
    /\ forall data, Add s data = Panic DivideByZero
                    /\ Check s data = Panic DivideByZero.
Proof.
  apply (zero_size_filter_faults Sample.HashSeed Sample.hashes 0.5 Minute).
  - vm_compute. reflexivity.
  - reflexivity.
Defined.

(** C3 (what the code does).  The constructor validates nothing: a zero
    size and a decay rate outside [0,1] give a filter and a nil error, and
    an interval that is not positive panics in [time.NewTicker]. *)
Theorem NewStableBloomFilter_validates_nothing HashSeed (m : Z)
    (hashFuncs : list Hash64) (decayRate : float) :
  (exists s, NewStableBloomFilter HashSeed 0 hashFuncs decayRate Minute = Ret (s, None)
             /\ Sbf.m s = 0)
  /\ NewStableBloomFilter HashSeed m hashFuncs decayRate 0 = Panic NonPositiveInterval
  /\ NewStableBloomFilter HashSeed m hashFuncs decayRate (-1) = Panic NonPositiveInterval
  /\ (exists s, NewStableBloomFilter HashSeed m hashFuncs 2.0 Minute = Ret (s, None)
                /\ Sbf.decayRate s = 2.0%float)
  /\ (exists s, NewStableBloomFilter HashSeed m hashFuncs (-0.5) Minute = Ret (s, None)
                /\ Sbf.decayRate s = (-0.5)%float).
Proof.
  split; [|split; [|split; [|split]]].
  - destruct (NewStableBloomFilter_returns HashSeed 0 hashFuncs decayRate Minute)
      as (s & Hs & Em & _); [reflexivity|]. now exists s.
  - reflexivity.
  - reflexivity.
  - destruct (NewStableBloomFilter_returns HashSeed m hashFuncs 2.0 Minute)
      as (s & Hs & _ & _ & _ & Er & _); [reflexivity|]. now exists s.
  - destruct (NewStableBloomFilter_returns HashSeed m hashFuncs (-0.5) Minute)
      as (s & Hs & _ & _ & _ & Er & _); [reflexivity|]. now exists s.
Qed.

(** C7 (what the code does).  The addition that rounds the size up is a
    uint32 addition: for the 63 largest sizes it wraps, and the stored
    size is 0, with an empty bit array. *)
Theorem NewStableBloomFilter_size_wraps HashSeed (hashFuncs : list Hash64)
    (decayRate : float) :
  exists s,
    NewStableBloomFilter HashSeed 4294967295 hashFuncs decayRate Minute = Ret (s, None)
    /\ Sbf.m s = 0 /\ Sbf.filter s = [].
Proof.
  destruct (NewStableBloomFilter_returns HashSeed 4294967295 hashFuncs decayRate Minute)
    as (s & Hs & Em & _ & Ef & _); [reflexivity|].
  exists s. split; [assumption|]. split; [assumption|]. exact Ef.
Qed.

(** Below the wrap the size is rounded up to the next multiple of 64, and
    in every case the stored size is a multiple of 64. *)
Theorem NewStableBloomFilter_rounds_up HashSeed (m : Z) (hashFuncs : list Hash64)
    (decayRate : float) (decayInterval : Duration) :
  0 <= m <= 2 ^ 32 - 64 -> 0 < decayInterval ->
  exists s,
    NewStableBloomFilter HashSeed m hashFuncs decayRate decayInterval = Ret (s, None)
    /\ m <= Sbf.m s < m + 64 /\ Sbf.m s mod 64 = 0
    /\ Z.of_nat (length (Sbf.filter s)) = Sbf.m s / 64.
Proof.
  intros Hm Hd.
  destruct (NewStableBloomFilter_returns HashSeed m hashFuncs decayRate _ Hd)
    as (s & Hs & Em & _ & Ef & _).
  exists s. split; [assumption|]. rewrite Ef, Em, length_replicate.
  destruct (roundedSize_in_range m Hm) as [H1 H2].
  split; [assumption|]. split; [apply roundedSize_multiple|].
  apply Z2Nat.id. apply Z.div_pos; lia.
Qed.

Lemma NewStableBloomFilter_rounds_up_witness :
  exists s,
    NewStableBloomFilter Sample.HashSeed 100 [] 0.5 Minute = Ret (s, None)
    /\ 100 <= Sbf.m s < 100 + 64 /\ Sbf.m s mod 64 = 0
    /\ Z.of_nat (length (Sbf.filter s)) = Sbf.m s / 64.
Proof.
  apply (NewStableBloomFilter_rounds_up Sample.HashSeed 100 [] 0.5 Minute).
  - lia.
  - reflexivity.
Defined.

Lemma NewStableBloomFilter_100_is_128 HashSeed (hashFuncs : list Hash64)
    (decayRate : float) :
  exists s,
    NewStableBloomFilter HashSeed 100 hashFuncs decayRate Minute = Ret (s, None)
    /\ Sbf.m s = 128 /\ length (Sbf.filter s) = 2%nat.
Proof.
  destruct (NewStableBloomFilter_returns HashSeed 100 hashFuncs decayRate Minute)
    as (s & Hs & Em & _ & Ef & _); [reflexivity|].
  exists s. split; [assumption|]. split; [assumption|]. now rewrite Ef.
Qed.

(** ** Add and Check *)

(** [Check] returns, and returns true exactly when every one of the [k]
    bits is set. *)
Lemma Check_returns (s : Sbf.t) (data : list Byte.byte) :
  wf s ->
  exists b,
    Check s data = Ret b
    /\ (b = true <->
        forall i h, 0 <= i < Sbf.k s -> Sbf.hashFuncs s !! Z.to_nat i = Some h ->
                    bitAt (Sbf.filter s) (u64 (h data) mod Sbf.m s) = true).
Proof.
  intros Hwf.
  destruct (Check_loop_wf data s (seqZ 0 (Sbf.k s)) Hwf (seqZ_range _))
    as (b & Hb & Hiff).
  exists b. split; [exact Hb|]. rewrite Hiff. split.
  - intros H i h Hi Hh. apply (H i h); [|assumption].
    apply list_elem_of_In, elem_of_seqZ. lia.
  - intros H i h Hin Hh. apply (H i h); [|assumption].
    apply list_elem_of_In, elem_of_seqZ in Hin. lia.
Qed.

(** [Add] returns a usable filter of the same configuration on which
    [Check] of the element returns true. *)
Lemma Add_then_Check (s : Sbf.t) (data : list Byte.byte) :
  wf s ->
  exists s', Add s data = Ret s' /\ wf s' /\ same_config s s'
             /\ Check s' data = Ret true.
Proof.
  intros Hwf.
  destruct (Add_loop_wf data (seqZ 0 (Sbf.k s)) s Hwf (seqZ_range _))
    as (s' & Hadd & Hwf' & Hcfg & Hset & _).
  exists s'. split; [exact Hadd|]. split; [assumption|]. split; [assumption|].
  destruct Hcfg as (Em & Ek & Eh & _).
  destruct (Check_loop_wf data s' (seqZ 0 (Sbf.k s')) Hwf' (seqZ_range _))
    as (b & Hb & Hiff).
  unfold Check. rewrite Hb. f_equal. apply Hiff.
  intros i h Hin Hh. rewrite Ek in Hin. rewrite Eh in Hh.
  specialize (Hset i h Hin Hh). unfold index in *. now rewrite Em.
Qed.

Lemma sample_filter_constructed :
  NewStableBloomFilter Sample.HashSeed 100 Sample.hashes 0x1p-1 Minute
  = Ret (sample_filter, None).
Proof. reflexivity. Qed.

(** ** Decay *)

Lemma low_bits_zero_mod (b p : Z) :
  0 <= p -> (forall i, 0 <= i < p -> Z.testbit b i = false) -> b mod 2 ^ p = 0.
Proof.
  intros Hp Hlow. apply Z.bits_inj'. intros i Hi. rewrite Z.bits_0.
  destruct (Z_lt_le_dec i p).
  - rewrite Z.mod_pow2_bits_low by lia. apply Hlow. lia.
  - apply Z.mod_pow2_bits_high. lia.
Qed.

(** [b & (b - 1)] clears the lowest set bit of [b]. *)
Lemma lowest_bit_cleared (b p : Z) :
  0 < b -> 0 <= p ->
  (forall i, 0 <= i < p -> Z.testbit b i = false) ->
  Z.testbit b p = true ->
  Z.testbit (b - 1) p = false.
Proof.
  intros Hb Hp Hlow Hbit.
  pose proof (low_bits_zero_mod b p Hp Hlow) as Hmod.
  apply Z.testbit_true in Hbit; [|assumption].
  apply Z.testbit_false; [assumption|].
  pose proof (Z.pow_pos_nonneg 2 p ltac:(lia) Hp) as Hpow.
  pose proof (Z.div_mod b (2 ^ p) ltac:(lia)) as Hd. rewrite Hmod in Hd.
  replace (b - 1) with ((b / 2 ^ p - 1) * 2 ^ p + (2 ^ p - 1)) by lia.
  rewrite Z.div_add_l by lia. rewrite (Z.div_small (2 ^ p - 1)) by lia.
  rewrite Z.add_0_r.
  pose proof (Z.div_mod (b / 2 ^ p) 2 ltac:(lia)) as Hd2. rewrite Hbit in Hd2.
  replace (b / 2 ^ p - 1) with ((b / 2 ^ p / 2) * 2) by lia.
  apply Z.mod_mul. lia.
Qed.

(** One round of the loop, whichever way the draw falls: the word stays a
    word, and one more low bit is clear. *)
Lemma decay_round_progress (b mask p : Z) (clear : bool) :
  0 <= b < 2 ^ 64 -> 0 <= mask -> 0 <= p ->
  (forall i, 0 <= i < p -> Z.testbit b i = false) ->
  let b' := if clear then Z.ldiff b mask else b in
  let b'' := Z.land b' (u64 (b' - 1)) in
  0 <= b'' < 2 ^ 64 /\ (forall i, 0 <= i < p + 1 -> Z.testbit b'' i = false).
Proof.
  intros Hb Hmask Hp Hlow b' b''.
  assert (Hb' : 0 <= b' < 2 ^ 64 /\ forall i, 0 <= i < p -> Z.testbit b' i = false).
  { subst b'. destruct clear; [|auto]. split.
    - apply word_range_bits. apply word_range_bits in Hb as [Hb0 Hb1]. split.
      + apply Z.ldiff_nonneg. now left.
      + intros i Hi. rewrite Z.ldiff_spec, Hb1; [reflexivity|lia].
    - intros i Hi. rewrite Z.ldiff_spec, Hlow; [reflexivity|lia]. }
  destruct Hb' as [Hr' Hlow']. split.
  - apply word_range_bits. apply word_range_bits in Hr' as [H0 H1]. split.
    + apply Z.land_nonneg. now left.
    + intros i Hi. subst b''. rewrite Z.land_spec, H1; [reflexivity|lia].
  - intros i Hi. subst b''. rewrite Z.land_spec.
    destruct (Z_lt_le_dec i p) as [Hlt|Hge].
    + rewrite Hlow' by lia. reflexivity.
    + assert (i = p) by lia. subst i.
      destruct (Z.testbit b' p) eqn:Ebit; [|reflexivity]. cbn.
      assert (0 < b').
      { destruct (Z.eq_dec b' 0) as [E|]; [|lia].
        rewrite E, Z.bits_0 in Ebit. discriminate. }
      rewrite u64_small by lia.
      now apply lowest_bit_cleared.
Qed.

(** With [fuel] rounds left and the low [64 - fuel] bits clear, the loop
    ends, and it ends with 0. *)
Lemma decayLoop_returns_zero (decayRate : float) (fuel : nat) :
  forall (b : Z) (r : Rand),
    (fuel <= 64)%nat ->
    0 <= b < 2 ^ 64 ->
    (forall i, 0 <= i < 64 - Z.of_nat fuel -> Z.testbit b i = false) ->
    exists r', decayLoop fuel b decayRate r = Ret (0, r').
Proof.
  induction fuel as [|fuel IH]; intros b r Hfuel Hb Hlow.
  - assert (b = 0) as ->.
    { apply Z.bits_inj'. intros i Hi. rewrite Z.bits_0.
      destruct (Z_lt_le_dec i 64); [apply Hlow; lia|].
      apply word_range_bits in Hb as [_ Hhigh]. apply Hhigh. lia. }
    exists r. reflexivity.
  - cbn [decayLoop]. destruct (Z.eqb_spec b 0) as [->|Hne]; [now exists r|].
    destruct (Float64 r) as [x r1].
    set (clear := (x <? decayRate)%float).
    destruct (decay_round_progress b (shl1 (TrailingZeros64 b))
                (64 - Z.of_nat (S fuel)) clear Hb) as [Hr Hl].
    + apply u64_range.
    + lia.
    + assumption.
    + apply IH; [lia|exact Hr|]. intros i Hi. apply Hl. lia.
Qed.

(** Whatever the rate and the draws, [decayBucket] returns 0. *)
Lemma decayBucket_returns_zero (b : Z) (decayRate : float) (r : Rand) :
  0 <= b < 2 ^ 64 -> exists r', decayBucket b decayRate r = Ret (0, r').
Proof.
  intros Hb. unfold decayBucket. destruct (b =? 0); [now exists r|].
  apply decayLoop_returns_zero; [lia|assumption|]. intros i Hi. cbn in Hi. lia.
Qed.

(** A worker's loop over the words [js]: it returns, every word it visits
    is 0 afterwards, and a word that was 0 stays 0. *)
Lemma decayRange_clears (decayRate : float) (js : list Z) :
  forall (filter : list Z) (r : Rand),
    Forall is_word filter ->
    Forall (fun j => 0 <= j < Z.of_nat (length filter)) js ->
    exists filter',
      decayRange filter decayRate r js = Ret filter'
      /\ length filter' = length filter
      /\ Forall is_word filter'
      /\ (forall j, In j js -> filter' !! Z.to_nat j = Some 0)
      /\ (forall n, filter !! n = Some 0 -> filter' !! n = Some 0).
Proof.
  induction js as [|j js IH]; intros filter r Hws Hjs.
  - exists filter. cbn. repeat split; auto. intros j [].
  - inversion Hjs as [|? ? Hj Hrest]; subst.
    destruct (lookup_lt_is_Some_2 filter (Z.to_nat j)) as [w Hw]; [lia|].
    assert (Hwr : is_word w).
    { rewrite Forall_lookup in Hws. exact (Hws _ _ Hw). }
    destruct (decayBucket_returns_zero w decayRate r Hwr) as [r' Hbucket].
    cbn [decayRange]. rewrite Hw, Hbucket. cbn.
    destruct (IH (<[Z.to_nat j := 0]> filter) r') as (f' & Hrun & Hlen & Hws' & Hz & Hkeep).
    { apply Forall_insert; [assumption|]. unfold is_word. lia. }
    { rewrite length_insert. assumption. }
    exists f'. split; [exact Hrun|]. rewrite length_insert in Hlen.
    split; [assumption|]. split; [assumption|]. split.
    + intros j' [<-|Hin]; [|now apply Hz].
      apply Hkeep. apply list_lookup_insert_eq. lia.
    + intros n Hn. apply Hkeep.
      destruct (decide (Z.to_nat j = n)) as [<-|Hne].
      * apply list_lookup_insert_eq. lia.
      * now rewrite list_lookup_insert_ne.
Qed.

Section DecayProperties.
Variable NumCPU : Z.
Variable newRand : Z -> Rand.
Hypothesis NumCPU_pos : 0 < NumCPU.

Lemma chunk_fst (numBuckets chunkSize i : Z) :
  fst (chunk NumCPU numBuckets chunkSize i) = i * chunkSize.
Proof. reflexivity. Qed.

Lemma chunk_snd (numBuckets chunkSize i : Z) :
  snd (chunk NumCPU numBuckets chunkSize i) =
    if (i =? NumCPU - 1) || (numBuckets <? i * chunkSize + chunkSize)
    then numBuckets else i * chunkSize + chunkSize.
Proof. reflexivity. Qed.

Lemma chunk_bounds (numBuckets chunkSize i : Z) :
  0 <= numBuckets -> 0 <= chunkSize -> 0 <= i ->
  0 <= fst (chunk NumCPU numBuckets chunkSize i)
  /\ snd (chunk NumCPU numBuckets chunkSize i) <= numBuckets.
Proof.
  intros Hnb Hcs Hi. rewrite chunk_fst, chunk_snd.
  split; [apply Z.mul_nonneg_nonneg; lia|].
  destruct (i =? NumCPU - 1); simpl; [lia|].
  destruct (Z.ltb_spec numBuckets (i * chunkSize + chunkSize)); simpl; lia.
Qed.

(** Every word belongs to the range of some worker. *)
Lemma chunk_cover (numBuckets j : Z) :
  0 <= j < numBuckets ->
  exists i, 0 <= i < NumCPU
            /\ fst (chunk NumCPU numBuckets (chunkSizeOf NumCPU numBuckets) i) <= j
            /\ j < snd (chunk NumCPU numBuckets (chunkSizeOf NumCPU numBuckets) i).
Proof using NumCPU_pos.
  intros Hj. unfold chunkSizeOf. rewrite Z.quot_div_nonneg by lia.
  pose proof (Z.mul_div_le numBuckets NumCPU NumCPU_pos) as Hle.
  destruct (Z.eqb_spec (numBuckets / NumCPU) 0) as [E|E].
  - exists 0. split; [lia|]. rewrite chunk_fst, chunk_snd.
    destruct (0 =? NumCPU - 1); simpl; [lia|].
    destruct (numBuckets <? _); simpl; lia.
  - set (cs := numBuckets / NumCPU) in *.
    assert (Hcs : 0 < cs).
    { assert (0 <= cs) by (apply Z.div_pos; lia). lia. }
    pose proof (Z.mul_div_le j cs Hcs) as Hq1.
    pose proof (Z.mul_succ_div_gt j cs Hcs) as Hq2.
    assert (0 <= j / cs) by (apply Z.div_pos; lia).
    destruct (Z_lt_le_dec (j / cs) (NumCPU - 1)) as [Hlt|Hge].
    + exists (j / cs). split; [lia|]. rewrite chunk_fst, chunk_snd.
      destruct (Z.eqb_spec (j / cs) (NumCPU - 1)) as [|_]; [lia|]. simpl.
      destruct (Z.ltb_spec numBuckets (j / cs * cs + cs)) as [Hbad|_]; [nia|].
      nia.
    + exists (NumCPU - 1). split; [lia|]. rewrite chunk_fst, chunk_snd.
      rewrite Z.eqb_refl. simpl. nia.
Qed.

(** The workers one after the other: they return, the words of every
    worker's range are 0 afterwards, and a word that was 0 stays 0. *)
Lemma decayWorkers_clears (decayRate : float) (numBuckets chunkSize : Z)
    (workers : list Z) :
  forall (filter : list Z),
    0 <= chunkSize ->
    Z.of_nat (length filter) = numBuckets ->
    Forall is_word filter ->
    Forall (fun i => 0 <= i) workers ->
    exists filter',
      decayWorkers NumCPU newRand filter decayRate numBuckets chunkSize workers
      = Ret filter'
      /\ length filter' = length filter
      /\ Forall is_word filter'
      /\ (forall i j, In i workers ->
            fst (chunk NumCPU numBuckets chunkSize i) <= j
            < snd (chunk NumCPU numBuckets chunkSize i) ->
            filter' !! Z.to_nat j = Some 0)
      /\ (forall n, filter !! n = Some 0 -> filter' !! n = Some 0).
Proof.
  induction workers as [|i workers IH]; intros filter Hcs Hlen Hws Hpos.
  - exists filter. cbn. repeat split; auto. intros i j [].
  - inversion Hpos as [|? ? Hi Hrest]; subst.
    cbn [decayWorkers].
    destruct (chunk NumCPU (Z.of_nat (length filter)) chunkSize i)
      as [start end_] eqn:Echunk.
    pose proof (chunk_bounds (Z.of_nat (length filter)) chunkSize i
                  ltac:(lia) Hcs Hi) as [Hstart Hend].
    rewrite Echunk in Hstart, Hend. cbn in Hstart, Hend.
    destruct (decayRange_clears decayRate (seqZ start (end_ - start)) filter
                (newRand start) Hws)
      as (f1 & Hrun1 & Hlen1 & Hws1 & Hz1 & Hkeep1).
    { apply Forall_forall. intros j Hj. apply elem_of_seqZ in Hj. lia. }
    rewrite Hrun1. cbn [mbind outcome_bind obind].
    destruct (IH f1 Hcs) as (f' & Hrun & Hlen' & Hws' & Hz & Hkeep);
      [lia|assumption|assumption|].
    exists f'. split; [exact Hrun|]. split; [lia|]. split; [assumption|]. split.
    + intros i' j [<-|Hin] Hj.
      * rewrite Echunk in Hj. cbn in Hj. apply Hkeep, Hz1.
        apply list_elem_of_In, elem_of_seqZ. lia.
      * now apply (Hz i' j).
    + intros n Hn. now apply Hkeep, Hkeep1.
Qed.

(** A decay cycle on a usable filter returns, keeps the invariant and
    the configuration, and leaves every word of the bit array 0. *)
Lemma decay_clears (s : Sbf.t) :
  wf s ->
  exists s',
    decay NumCPU newRand s = Ret s' /\ wf s' /\ same_config s s'
    /\ forall n w, Sbf.filter s' !! n = Some w -> w = 0.
Proof using NumCPU_pos.
  intros Hwf. pose proof Hwf as [Hm H64 Hnb Hlen Hk Hws].
  assert (Hnb0 : 0 <= Sbf.numBuckets s) by lia.
  unfold decay. destruct (Z.eqb_spec NumCPU 0) as [|_]; [lia|].
  fold (chunkSizeOf NumCPU (Sbf.numBuckets s)).
  destruct (decayWorkers_clears (Sbf.decayRate s) (Sbf.numBuckets s)
              (chunkSizeOf NumCPU (Sbf.numBuckets s)) (seqZ 0 NumCPU) (Sbf.filter s))
    as (f' & Hrun & Hlen' & Hws' & Hz & _).
  { unfold chunkSizeOf. rewrite Z.quot_div_nonneg by lia.
    destruct (_ =? 0); [lia|]. apply Z.div_pos; lia. }
  { assumption. }
  { assumption. }
  { apply Forall_forall. intros i Hin. apply elem_of_seqZ in Hin. lia. }
  rewrite Hrun. cbn. eexists. split; [reflexivity|]. split; [|split].
  - constructor; cbn; try assumption. now rewrite Hlen'.
  - repeat split.
  - cbn. intros n w Hn.
    pose proof (lookup_lt_Some _ _ _ Hn) as Hlt.
    destruct (chunk_cover (Sbf.numBuckets s) (Z.of_nat n)) as (i & Hi & Hlo & Hhi);
      [lia|].
    specialize (Hz i (Z.of_nat n)). rewrite Nat2Z.id in Hz.
    rewrite Hz in Hn; [congruence| |lia].
    apply list_elem_of_In, elem_of_seqZ. lia.
Qed.

End DecayProperties.

Lemma bitAt_all_zero (filter : list Z) (idx : Z) :
  (forall n w, filter !! n = Some w -> w = 0) -> bitAt filter idx = false.
Proof.
  intros Hz. unfold bitAt. destruct (filter !! Z.to_nat (idx / 64)) as [w|] eqn:E.
  - rewrite (Hz _ _ E). apply Z.bits_0.
  - reflexivity.
Qed.

(** On a usable filter with at least one hash function whose words are all
    0, [Check] returns false. *)
Lemma Check_all_zero (s : Sbf.t) (data : list Byte.byte) :
  wf s -> 0 < Sbf.k s ->
  (forall n w, Sbf.filter s !! n = Some w -> w = 0) ->
  Check s data = Ret false.
Proof.
  intros Hwf Hk Hz.
  destruct (Check_loop_wf data s (seqZ 0 (Sbf.k s)) Hwf (seqZ_range _))
    as (b & Hb & Hiff).
  unfold Check. rewrite Hb. f_equal. destruct b; [|reflexivity].
  destruct (hashIndex_wf s data 0 Hwf ltac:(lia)) as (h & Hh & _).
  destruct Hiff as [Hall _]. specialize (Hall eq_refl 0 h).
  rewrite bitAt_all_zero in Hall by assumption.
  symmetry. apply Hall; [|assumption].
  apply list_elem_of_In, elem_of_seqZ. lia.
Qed.

(** C1 (what the code does).  [decayBucket] returns the value its loop
    ends with, and the loop ends when the word is 0: at rate 0, as at any
    rate, every word is returned as 0.  So on a filter built with decay
    rate 0, an element that [Check] finds right after [Add] is gone after
    one decay cycle. *)
Theorem decay_at_rate_zero_forgets (NumCPU : Z) (newRand : Z -> Rand)
    (s : Sbf.t) (data : list Byte.byte) :
  wf s -> Sbf.decayRate s = 0%float -> 0 < NumCPU -> 0 < Sbf.k s ->
  (forall w r, is_word w -> exists r', decayBucket w 0%float r = Ret (0, r'))
  /\ exists s1 s2,
       Add s data = Ret s1 /\ Check s1 data = Ret true
       /\ decay NumCPU newRand s1 = Ret s2 /\ Check s2 data = Ret false.
Proof.
  intros Hwf Hrate Hcpu Hk. split.
  - intros w r Hw. now apply decayBucket_returns_zero.
  - destruct (Add_then_Check s data Hwf)
      as (s1 & Hadd & Hwf1 & (_ & Ek & _) & Hcheck).
    destruct (decay_clears NumCPU newRand Hcpu s1 Hwf1)
      as (s2 & Hdecay & Hwf2 & (_ & Ek2 & _) & Hzero).
    exists s1, s2. split; [exact Hadd|]. split; [exact Hcheck|].
    split; [exact Hdecay|]. apply Check_all_zero; [assumption|lia|assumption].
Qed.

Lemma sample_filter0_constructed :
  NewStableBloomFilter Sample.HashSeed 100 Sample.hashes 0 Hour
  = Ret (sample_filter0, None).
Proof. reflexivity. Qed.

Lemma decay_at_rate_zero_forgets_witness :
  (forall w r, is_word w -> exists r', decayBucket w 0%float r = Ret (0, r'))
  /\ exists s1 s2,
       Add sample_filter0 Sample.ab = Ret s1 /\ Check s1 Sample.ab = Ret true
       /\ decay 4 halves s1 = Ret s2 /\ Check s2 Sample.ab = Ret false.
Proof.
  apply (decay_at_rate_zero_forgets 4 halves sample_filter0 Sample.ab).
  - wf_by_computation.
  - reflexivity.
  - lia.
  - reflexivity.
Defined.

(** ** Teardown *)

(** C4 (as amended).  On a constructed filter the first [StopDecay]
    returns, with the ticker stopped, the stop channel closed and the
    wait group at 0; a second call panics, closing the closed channel. *)
Theorem StopDecay_once HashSeed (m : Z) (hashFuncs : list Hash64)
    (decayRate : float) (decayInterval : Duration) (s : Sbf.t) (e : option error) :
  NewStableBloomFilter HashSeed m hashFuncs decayRate decayInterval = Ret (s, e) ->
  exists s1,
    StopDecay s = Ret s1
    /\ Sbf.stopChanClosed s1 = true
    /\ Sbf.tickerRunning s1 = false /\ Sbf.wgCount s1 = 0
    /\ StopDecay s1 = Panic CloseOfClosedChannel.
Proof.
  intros Hnew. unfold NewStableBloomFilter in Hnew.
  destruct (decayInterval <=? 0); [discriminate|].
  injection Hnew as <- _. eexists. split; [reflexivity|]. repeat split.
Qed.

Lemma StopDecay_once_witness :
  exists s1,
    StopDecay sample_filter = Ret s1
    /\ Sbf.stopChanClosed s1 = true
    /\ Sbf.tickerRunning s1 = false /\ Sbf.wgCount s1 = 0
    /\ StopDecay s1 = Panic CloseOfClosedChannel.
Proof.
  apply (StopDecay_once Sample.HashSeed 100 Sample.hashes 0x1p-1 Minute
           sample_filter None).
  reflexivity.
Defined.

(** C4 (as stated) fails: on the sample filter the second [StopDecay]
    does not return. *)
Lemma StopDecay_twice_faults :
  NewStableBloomFilter Sample.HashSeed 100 Sample.hashes 0x1p-1 Minute
  = Ret (sample_filter, None)
  /\ (s1 ← StopDecay sample_filter; StopDecay s1) = Panic CloseOfClosedChannel.
Proof. split; reflexivity. Qed.

(** ** Two callers of atomicSetBit on one word *)

(** C2 (what the code does).  Two goroutines set bits 0 and 1 of a word
    that is 0.  When both read before either writes, both calls return and
    bit 0 is not set: the first caller's update is lost. *)
Theorem atomicSetBit_loses_update :
  Race.run Race.step [0; 1; 0; 1]%nat 0 [Race.Called 0; Race.Called 1]
  = (2, [Race.Returned; Race.Returned])
  /\ atomicGetBit 2 0 = false /\ atomicGetBit 2 1 = true.
Proof. repeat split. Qed.

(** ** Sizing *)

(** *** ln 2 between two rationals *)

(** For [0 <= x <= 1] the series of [exp(-x)] alternates with terms that
    decrease: its partial sums bound [exp(-x)] from both sides. *)
Lemma exp_neg_alt (x : R) (N : nat) :
  (0 <= x <= 1 ->
   sum_f_R0 (tg_alt (fun i => x ^ i / INR (fact i))) (S (2 * N)) <= exp (- x)
   <= sum_f_R0 (tg_alt (fun i => x ^ i / INR (fact i))) (2 * N))%R.
Proof.
  intros [H0 H1]. apply alternated_series_ineq.
  - intros n. unfold Rdiv.
    assert (Hf : (0 < INR (fact n))%R) by apply INR_fact_lt_0.
    assert (Hp : (0 <= x ^ n)%R) by (apply pow_le; exact H0).
    rewrite fact_simpl, mult_INR. simpl pow.
    rewrite Rinv_mult.
    assert (Hn : (1 <= INR (S n))%R).
    { replace 1%R with (INR 1) by reflexivity. apply le_INR. lia. }
    assert (Hi : (0 < / INR (S n) <= 1)%R).
    { split; [apply Rinv_0_lt_compat; lra|].
      rewrite <- Rinv_1. apply Rinv_le_contravar; lra. }
    assert (Hq : (0 <= x ^ n * / INR (fact n))%R).
    { apply Rmult_le_pos; [exact Hp|]. left. now apply Rinv_0_lt_compat. }
    replace (x * x ^ n * (/ INR (S n) * / INR (fact n)))%R
      with ((x * / INR (S n)) * (x ^ n * / INR (fact n)))%R by ring.
    rewrite <- (Rmult_1_l (x ^ n * / INR (fact n))) at 2.
    apply Rmult_le_compat_r; [exact Hq|].
    destruct Hi as [Hi1 Hi2]. nra.
  - apply cv_speed_pow_fact.
  - intros eps Heps. destruct (E1_cvg (- x) eps Heps) as [n0 Hn0].
    exists n0. intros n Hn. specialize (Hn0 n Hn).
    replace (sum_f_R0 (tg_alt (fun i => x ^ i / INR (fact i))) n)%R
      with (E1 (- x) n); [exact Hn0|].
    unfold E1. apply sum_eq. intros i _. unfold tg_alt.
    replace (- x)%R with (-1 * x)%R by ring. rewrite Rpow_mult_distr.
    unfold Rdiv. ring.
Qed.

Lemma Q2R_Qpow (q : Q) (n : nat) : Q2R (Qpow q n) = (Q2R q ^ n)%R.
Proof.
  induction n as [|n IH]; cbn [Qpow pow].
  - unfold Q2R. cbn. lra.
  - now rewrite Q2R_mult, IH.
Qed.

Lemma IZR_Zfact (n : nat) : IZR (Zfact n) = INR (fact n).
Proof.
  induction n as [|n IH].
  - reflexivity.
  - cbn [Zfact]. rewrite mult_IZR, IH, fact_simpl, mult_INR, <- INR_IZR_INZ.
    reflexivity.
Qed.

Lemma Q2R_Qfact (n : nat) : Q2R (Qfact n) = INR (fact n).
Proof.
  unfold Qfact, Q2R. cbn [Qnum Qden inject_Z]. rewrite IZR_Zfact. field.
Qed.

Lemma Qfact_nonzero (n : nat) : ~ (Qfact n == 0)%Q.
Proof.
  intros H. apply Qeq_eqR in H. rewrite Q2R_Qfact in H.
  replace (Q2R 0) with 0%R in H by (unfold Q2R; cbn; lra).
  now apply (INR_fact_neq_0 n).
Qed.

Lemma Q2R_exp_neg_sum (q : Q) (N : nat) :
  Q2R (exp_neg_sum q N)
  = sum_f_R0 (tg_alt (fun i => Q2R q ^ i / INR (fact i))%R) N.
Proof.
  induction N as [|N IH].
  - cbn. unfold tg_alt, Q2R. cbn. field.
  - cbn [exp_neg_sum sum_f_R0]. rewrite (Qeq_eqR _ _ (Qred_correct _)).
    rewrite Q2R_plus, IH. f_equal.
    unfold tg_alt. rewrite Q2R_mult, Q2R_div by apply Qfact_nonzero.
    rewrite !Q2R_Qpow, Q2R_Qfact.
    replace (Q2R (- (1))) with (-1)%R by (unfold Q2R; cbn; rewrite opp_IZR; lra).
    reflexivity.
Qed.

Lemma exp_neg_ln2 : exp (- ln 2) = (/ 2)%R.
Proof. rewrite exp_Ropp, exp_ln by lra. reflexivity. Qed.

Lemma Q2R_half : Q2R (1 # 2) = (/ 2)%R.
Proof. unfold Q2R. cbn. lra. Qed.

Lemma Q2R_unit_interval (q : Q) : (0 <= q)%Q -> (q <= 1)%Q -> (0 <= Q2R q <= 1)%R.
Proof.
  intros H0 H1. split.
  - replace 0%R with (Q2R 0) by (unfold Q2R; cbn; lra). now apply Qle_Rle.
  - replace 1%R with (Q2R 1) by (unfold Q2R; cbn; lra). now apply Qle_Rle.
Qed.

(** [ln 2] lies between the two rational bounds: 20 terms of the series
    put [exp(-ln2_lo)] above one half and [exp(-ln2_hi)] below. *)
Lemma ln2_bounds : (Q2R ln2_lo < ln 2 < Q2R ln2_hi)%R.
Proof.
  assert (Hlo : (0 <= Q2R ln2_lo <= 1)%R) by (apply Q2R_unit_interval; discriminate).
  assert (Hhi : (0 <= Q2R ln2_hi <= 1)%R) by (apply Q2R_unit_interval; discriminate).
  split.
  - destruct (exp_neg_alt (Q2R ln2_lo) 9 Hlo) as [H _].
    rewrite <- Q2R_exp_neg_sum in H.
    assert (Hq : (1 # 2 < exp_neg_sum ln2_lo (S (2 * 9)))%Q) by (vm_compute; reflexivity).
    apply Qlt_Rlt in Hq. rewrite Q2R_half in Hq.
    assert (He : (exp (- ln 2) < exp (- Q2R ln2_lo))%R) by (rewrite exp_neg_ln2; lra).
    apply exp_lt_inv in He. lra.
  - destruct (exp_neg_alt (Q2R ln2_hi) 9 Hhi) as [_ H].
    rewrite <- Q2R_exp_neg_sum in H.
    assert (Hq : (exp_neg_sum ln2_hi (2 * 9) < 1 # 2)%Q) by (vm_compute; reflexivity).
    apply Qlt_Rlt in Hq. rewrite Q2R_half in Hq.
    assert (He : (exp (- Q2R ln2_hi) < exp (- ln 2))%R) by (rewrite exp_neg_ln2; lra).
    apply exp_lt_inv in He. lra.
Qed.

(** *** The formula over the real numbers *)

Lemma Rround_unique (x : R) (k : Z) :
  (0 <= x)%R -> (IZR k - / 2 <= x < IZR k + / 2)%R -> Rround x = k.
Proof.
  intros Hx [H1 H2]. unfold Rround. destruct (Rle_dec 0 x) as [_|Hn]; [|contradiction].
  symmetry. apply Int_part_spec. lra.
Qed.

(** When [k] brackets [(m/n)] times the two bounds of [ln 2], the
    formula's value is [k]. *)
Lemma brackets_sound (m n k : Z) :
  0 < m -> 0 < n -> brackets m n k = true -> OptimalK_formula m n = k.
Proof.
  intros Hm Hn Hb. unfold brackets in Hb. apply andb_prop in Hb as [Hlo Hhi].
  apply Z.leb_le, IZR_le in Hlo. apply Z.leb_le, IZR_le in Hhi.
  rewrite !mult_IZR, minus_IZR, mult_IZR in Hlo.
  rewrite !mult_IZR, plus_IZR, mult_IZR in Hhi.
  pose proof ln2_bounds as [Hl Hh]. unfold Q2R in Hl, Hh.
  assert (Hm' : (0 < IZR m)%R) by now apply IZR_lt.
  assert (Hn' : (0 < IZR n)%R) by now apply IZR_lt.
  assert (Hd1 : (0 < IZR (Z.pos (Qden ln2_lo)))%R) by (apply IZR_lt; reflexivity).
  assert (Hd2 : (0 < IZR (Z.pos (Qden ln2_hi)))%R) by (apply IZR_lt; reflexivity).
  assert (Ha : (0 < IZR (Qnum ln2_lo))%R) by (apply IZR_lt; reflexivity).
  revert Hlo Hhi Hl Hh Hd1 Hd2 Ha.
  generalize (IZR (Z.pos (Qden ln2_lo))) (IZR (Z.pos (Qden ln2_hi)))
             (IZR (Qnum ln2_lo)) (IZR (Qnum ln2_hi)).
  intros d1 d2 a b Hlo Hhi Hl Hh Hd1 Hd2 Ha.
  assert (Hq : (0 < IZR m / IZR n)%R) by now apply Rdiv_lt_0_compat.
  assert (Hlo' : ((2 * IZR k - 1) / 2 <= IZR m / IZR n * (a * / d1))%R).
  { replace (IZR m / IZR n * (a * / d1))%R
      with ((2 * IZR m * a) / (2 * (IZR n * d1)))%R
      by (field; repeat split; apply Rgt_not_eq; assumption).
    replace ((2 * IZR k - 1) / 2)%R
      with (((2 * IZR k - 1) * (IZR n * d1)) / (2 * (IZR n * d1)))%R
      by (field; repeat split; apply Rgt_not_eq; assumption).
    unfold Rdiv. apply Rmult_le_compat_r; [|lra].
    left. apply Rinv_0_lt_compat. nra. }
  assert (Hhi' : (IZR m / IZR n * (b * / d2) <= (2 * IZR k + 1) / 2)%R).
  { replace (IZR m / IZR n * (b * / d2))%R
      with ((2 * IZR m * b) / (2 * (IZR n * d2)))%R
      by (field; repeat split; apply Rgt_not_eq; assumption).
    replace ((2 * IZR k + 1) / 2)%R
      with (((2 * IZR k + 1) * (IZR n * d2)) / (2 * (IZR n * d2)))%R
      by (field; repeat split; apply Rgt_not_eq; assumption).
    unfold Rdiv. apply Rmult_le_compat_r; [|lra].
    left. apply Rinv_0_lt_compat. nra. }
  assert (Hx1 : (IZR m / IZR n * (a * / d1) < IZR m / IZR n * ln 2)%R)
    by (apply Rmult_lt_compat_l; assumption).
  assert (Hx2 : (IZR m / IZR n * ln 2 < IZR m / IZR n * (b * / d2))%R)
    by (apply Rmult_lt_compat_l; assumption).
  assert (H0 : (0 < a * / d1)%R).
  { apply Rmult_lt_0_compat; [exact Ha|]. now apply Rinv_0_lt_compat. }
  unfold OptimalK_formula, OptimalK_exact. apply Rround_unique.
  - apply Rmult_le_pos; lra.
  - lra.
Qed.

(** *** float64 arithmetic: the error of one operation *)

(** The float64 operations are specified by the kernel's [SpecFloat]
    functions ([FloatAxioms]); what follows derives from them that an
    integer conversion is exact and that a quotient and a product of
    normal numbers are within a relative [2^-53] of the exact result. *)

Lemma bpow_pos e : (0 < bpow e)%R.
Proof. apply powerRZ_lt. lra. Qed.

Lemma bpow_add a b : bpow (a + b) = (bpow a * bpow b)%R.
Proof. apply powerRZ_add. apply Rgt_not_eq. lra. Qed.

Lemma bpow_1 : bpow 1 = 2%R.
Proof. unfold bpow. apply powerRZ_1. Qed.

Lemma bpow_0 : bpow 0 = 1%R.
Proof. reflexivity. Qed.

Lemma bpow_succ e : bpow (e + 1) = (2 * bpow e)%R.
Proof. rewrite bpow_add, bpow_1. ring. Qed.

Lemma bpow_nonneg_IZR k : 0 <= k -> bpow k = IZR (2 ^ k).
Proof.
  intros Hk. unfold bpow. rewrite <- (Z2Nat.id k) at 1 by assumption.
  rewrite <- pow_powerRZ. rewrite pow_IZR. now rewrite Z2Nat.id.
Qed.

Lemma bpow_ge_1 k : 0 <= k -> (1 <= bpow k)%R.
Proof.
  intros Hk. rewrite bpow_nonneg_IZR by assumption. apply IZR_le.
  pose proof (Z.pow_pos_nonneg 2 k). lia.
Qed.

Lemma bpow_le a b : a <= b -> (bpow a <= bpow b)%R.
Proof.
  intros H. replace b with (a + (b - a)) by lia. rewrite bpow_add.
  rewrite <- (Rmult_1_r (bpow a)) at 1.
  apply Rmult_le_compat_l; [left; apply bpow_pos|]. apply bpow_ge_1. lia.
Qed.

Lemma bpow_lt a b : a < b -> (bpow a < bpow b)%R.
Proof.
  intros H. replace b with (a + (1 + (b - a - 1))) by lia.
  rewrite !bpow_add, bpow_1.
  pose proof (bpow_pos a). pose proof (bpow_ge_1 (b - a - 1) ltac:(lia)). nra.
Qed.

Lemma bpow_opp e : bpow (- e) = (/ bpow e)%R.
Proof.
  apply (Rmult_eq_reg_l (bpow e)); [|apply Rgt_not_eq, bpow_pos].
  rewrite <- bpow_add, Z.add_opp_diag_r, bpow_0.
  rewrite Rinv_r; [reflexivity|apply Rgt_not_eq, bpow_pos].
Qed.

(** *** Digits *)

Lemma digits2_pos_bounds p :
  2 ^ (Z.pos (digits2_pos p) - 1) <= Z.pos p < 2 ^ Z.pos (digits2_pos p).
Proof.
  induction p as [p IH|p IH|]; cbn [digits2_pos].
  - rewrite Pos2Z.inj_succ. change (Z.pos p~1) with (2 * Z.pos p + 1).
    replace (Z.succ (Z.pos (digits2_pos p)) - 1) with (Z.succ (Z.pos (digits2_pos p) - 1)) by lia.
    rewrite !Z.pow_succ_r by lia. lia.
  - rewrite Pos2Z.inj_succ. change (Z.pos p~0) with (2 * Z.pos p).
    replace (Z.succ (Z.pos (digits2_pos p)) - 1) with (Z.succ (Z.pos (digits2_pos p) - 1)) by lia.
    rewrite !Z.pow_succ_r by lia. lia.
  - cbn. lia.
Qed.

Lemma Zdigits2_bounds m :
  0 < m -> 2 ^ (Zdigits2 m - 1) <= m < 2 ^ Zdigits2 m.
Proof. destruct m as [|p|p]; try lia. intros _. apply digits2_pos_bounds. Qed.

Lemma Zdigits2_unique m k :
  0 < k -> 2 ^ (k - 1) <= m < 2 ^ k -> Zdigits2 m = k.
Proof.
  intros Hk [H1 H2].
  assert (Hm : 0 < m) by (pose proof (Z.pow_pos_nonneg 2 (k - 1)); lia).
  pose proof (Zdigits2_bounds m Hm) as [H3 H4].
  assert (0 < Zdigits2 m) by (destruct m; cbn; lia).
  destruct (Z.lt_trichotomy (Zdigits2 m) k) as [Hlt|[Heq|Hgt]]; [|assumption|].
  - assert (2 ^ Zdigits2 m <= 2 ^ (k - 1)) by (apply Z.pow_le_mono_r; lia). lia.
  - assert (2 ^ k <= 2 ^ (Zdigits2 m - 1)) by (apply Z.pow_le_mono_r; lia). lia.
Qed.

(** *** Shifting right *)

Lemma iter_pos_nat {A} (f : A -> A) p : forall x,
  SpecFloat.iter_pos f p x = Nat.iter (Pos.to_nat p) f x.
Proof.
  induction p as [p IH|p IH|]; intros x; cbn [SpecFloat.iter_pos].
  - rewrite !IH. rewrite Pos2Nat.inj_xI. rewrite <- Nat.iter_add.
    replace (S (2 * Pos.to_nat p)) with (S (Pos.to_nat p + Pos.to_nat p))%nat by lia.
    rewrite Nat.iter_succ_r. reflexivity.
  - rewrite !IH. rewrite Pos2Nat.inj_xO. rewrite <- Nat.iter_add.
    f_equal. lia.
  - reflexivity.
Qed.

Lemma IZR_xO p : IZR (Z.pos p~0) = (2 * IZR (Z.pos p))%R.
Proof. change (Z.pos p~0) with (2 * Z.pos p). rewrite mult_IZR. reflexivity. Qed.

Lemma IZR_xI p : IZR (Z.pos p~1) = (2 * IZR (Z.pos p) + 1)%R.
Proof. change (Z.pos p~1) with (2 * Z.pos p + 1). rewrite plus_IZR, mult_IZR. reflexivity. Qed.

Lemma shr_1_inv mrs e x :
  rec_inv mrs e x ->
  rec_inv (shr_1 mrs) (e + 1) x /\ shr_m (shr_1 mrs) = shr_m mrs / 2.
Proof.
  destruct mrs as [m r s]. unfold rec_inv. cbn [shr_m]. intros [Hm Hloc].
  pose proof (bpow_pos e) as HB.
  destruct m as [|p|p]; [| |lia].
  - cbn [shr_1 shr_m]. split; [|reflexivity]. split; [lia|].
    unfold located, F2R in *. rewrite bpow_succ.
    destruct r, s; cbn in *; lra.
  - destruct p as [p|p|]; cbn [shr_1 shr_m].
    + split.
      * split; [lia|]. unfold located, F2R in *. rewrite bpow_succ.
        rewrite IZR_xI in Hloc. destruct r, s; cbn in *; lra.
      * change (Z.pos p~1) with (2 * Z.pos p + 1). apply (Z.div_unique _ 2 _ 1); lia.
    + split.
      * split; [lia|]. unfold located, F2R in *. rewrite bpow_succ.
        rewrite IZR_xO in Hloc. destruct r, s; cbn in *; lra.
      * change (Z.pos p~0) with (2 * Z.pos p). apply (Z.div_unique _ 2 _ 0); lia.
    + split; [|reflexivity]. split; [lia|].
      unfold located, F2R in *. rewrite bpow_succ.
      destruct r, s; cbn in *; lra.
Qed.

Lemma shr_iter_inv (k : nat) mrs e x :
  rec_inv mrs e x ->
  rec_inv (Nat.iter k shr_1 mrs) (e + Z.of_nat k) x
  /\ shr_m (Nat.iter k shr_1 mrs) = shr_m mrs / 2 ^ Z.of_nat k.
Proof.
  intros H. induction k as [|k [IH1 IH2]].
  - change (Nat.iter 0 shr_1 mrs) with mrs. rewrite Z.add_0_r. split; [assumption|].
    now rewrite Z.div_1_r.
  - rewrite Nat.iter_succ. destruct (shr_1_inv _ _ _ IH1) as [H1 H2].
    rewrite Nat2Z.inj_succ. split.
    + replace (e + Z.succ (Z.of_nat k)) with (e + Z.of_nat k + 1) by lia. exact H1.
    + rewrite H2, IH2. rewrite Z.pow_succ_r by lia.
      rewrite Z.div_div by lia. f_equal. lia.
Qed.

Lemma loc_of_record_of_loc m l : loc_of_shr_record (shr_record_of_loc m l) = l.
Proof. destruct l as [|[]]; reflexivity. Qed.

Lemma shr_m_record_of_loc m l : shr_m (shr_record_of_loc m l) = m.
Proof. destruct l as [|[]]; reflexivity. Qed.

(** [shr] by [n >= 0] places keeps the location of [x] and divides the
    mantissa by [2^n]. *)
Lemma shr_spec m l e n x :
  0 <= m -> 0 <= n -> located m l e x ->
  exists mrs, shr (shr_record_of_loc m l) e n = (mrs, e + n)
    /\ shr_m mrs = m / 2 ^ n
    /\ located (shr_m mrs) (loc_of_shr_record mrs) (e + n) x
    /\ (n = 0 -> mrs = shr_record_of_loc m l).
Proof.
  intros Hm Hn Hloc.
  assert (Hinv : rec_inv (shr_record_of_loc m l) e x).
  { split; rewrite shr_m_record_of_loc; [assumption|].
    now rewrite loc_of_record_of_loc. }
  destruct n as [|p|p]; [| |lia].
  - exists (shr_record_of_loc m l). cbn [shr]. rewrite Z.add_0_r.
    split; [reflexivity|]. rewrite shr_m_record_of_loc, Z.div_1_r.
    split; [reflexivity|]. split; [now rewrite loc_of_record_of_loc|reflexivity].
  - cbn [shr]. rewrite iter_pos_nat.
    destruct (shr_iter_inv (Pos.to_nat p) _ e x Hinv) as [[_ H1] H2].
    rewrite positive_nat_Z in H1, H2. rewrite shr_m_record_of_loc in H2.
    eexists. split; [reflexivity|]. split; [assumption|]. split; [assumption|lia].
Qed.

(** *** Rounding to nearest *)

Lemma round_nearest_even_spec m l e x :
  0 <= m -> located m l e x ->
  m <= round_nearest_even m l <= m + 1
  /\ (Rabs (F2R (round_nearest_even m l) e - x) <= bpow e / 2)%R
  /\ (F2R m e <= x)%R
  /\ (l = loc_Exact -> round_nearest_even m l = m).
Proof.
  intros Hm Hloc. pose proof (bpow_pos e) as HB.
  unfold located, F2R in *.
  destruct l as [|[]]; cbn [round_nearest_even].
  - split; [lia|]. split; [|split; [lra|reflexivity]].
    rewrite Hloc. rewrite Rminus_diag, Rabs_R0. lra.
  - split; [destruct (Z.even m); lia|]. split; [|split; [lra|discriminate]].
    destruct (Z.even m).
    + rewrite Hloc. apply Rabs_le. lra.
    + rewrite plus_IZR, Hloc. apply Rabs_le. lra.
  - split; [lia|]. split; [|split; [lra|discriminate]]. apply Rabs_le. lra.
  - split; [lia|]. split; [|split; [lra|discriminate]].
    rewrite plus_IZR. apply Rabs_le. lra.
Qed.

Lemma fexp_normal e : -1074 <= e - 53 -> fexp prec emax e = e - 53.
Proof. intros H. unfold fexp, emin, prec, emax. lia. Qed.

Lemma shr_fexp_spec m l e x n :
  0 <= m -> located m l e x ->
  n = fexp prec emax (Zdigits2 m + e) - e -> 0 <= n ->
  exists mrs, shr_fexp prec emax m e l = (mrs, e + n)
    /\ shr_m mrs = m / 2 ^ n
    /\ located (shr_m mrs) (loc_of_shr_record mrs) (e + n) x
    /\ (n = 0 -> mrs = shr_record_of_loc m l).
Proof.
  intros Hm Hloc -> Hn. unfold shr_fexp. now apply shr_spec.
Qed.

(** Rounding a mantissa of at least 53 digits, in the range of the normal
    numbers: the result is a normal number at most half a unit in the last
    place of the interval's exponent away from [x]. *)
Lemma binary_round_aux_normal (sx : bool) (mx ex : Z) (lx : location) (x : R) :
  0 < mx -> 53 <= Zdigits2 mx ->
  -1074 <= Zdigits2 mx + ex - 53 -> Zdigits2 mx + ex - 53 + 1 <= 971 ->
  located mx lx ex x ->
  exists m e,
    binary_round_aux prec emax sx mx ex lx = S754_finite sx m e
    /\ 2 ^ 52 <= Z.pos m < 2 ^ 53
    /\ (e = Zdigits2 mx + ex - 53 \/ e = Zdigits2 mx + ex - 53 + 1)
    /\ (Rabs (F2R (Z.pos m) e - x) <= bpow (Zdigits2 mx + ex - 53) / 2)%R
    /\ (bpow (52 + (Zdigits2 mx + ex - 53)) <= x)%R
    /\ (lx = loc_Exact -> Zdigits2 mx = 53 -> Z.pos m = mx /\ e = ex).
Proof.
  intros Hmx Hd Hlo Hhi Hloc.
  set (d := Zdigits2 mx) in *. set (e1 := d + ex - 53) in *.
  pose proof (Zdigits2_bounds mx Hmx) as [Hb1 Hb2]. fold d in Hb1, Hb2.
  assert (Hn : e1 - ex = d - 53) by (unfold e1; lia).
  destruct (shr_fexp_spec mx lx ex x (d - 53)) as (mrs1 & Hs1 & Hm1 & Hl1 & Hz1);
    [lia|assumption| |lia|].
  { fold d. rewrite fexp_normal by (fold e1; lia). lia. }
  replace (ex + (d - 53)) with e1 in Hs1, Hl1 by lia.
  assert (Hm1b : 2 ^ 52 <= shr_m mrs1 < 2 ^ 53).
  { rewrite Hm1. split.
    - apply Z.div_le_lower_bound; [apply Z.pow_pos_nonneg; lia|].
      rewrite <- Z.pow_add_r by lia. replace (d - 53 + 52) with (d - 1) by lia.
      assumption.
    - apply Z.div_lt_upper_bound; [apply Z.pow_pos_nonneg; lia|].
      rewrite <- Z.pow_add_r by lia. replace (d - 53 + 53) with d by lia.
      assumption. }
  assert (Hm1p : 0 <= shr_m mrs1) by lia.
  destruct (round_nearest_even_spec _ _ _ _ Hm1p Hl1) as (Hr1 & Hr2 & Hr3 & Hr4).
  set (m2 := round_nearest_even (shr_m mrs1) (loc_of_shr_record mrs1)) in *.
  assert (Hx : (bpow (52 + e1) <= x)%R).
  { eapply Rle_trans; [|exact Hr3]. unfold F2R. rewrite bpow_add.
    apply Rmult_le_compat_r; [left; apply bpow_pos|].
    rewrite bpow_nonneg_IZR by lia. apply IZR_le. lia. }
  unfold binary_round_aux. rewrite Hs1. fold m2.
  destruct (Z.lt_ge_cases m2 (2 ^ 53)) as [Hlt|Hge].
  - (* no carry *)
    assert (Hd2 : Zdigits2 m2 = 53) by (apply Zdigits2_unique; lia).
    destruct (shr_fexp_spec m2 loc_Exact e1 (F2R m2 e1) 0) as (mrs2 & Hs2 & Hm2 & _ & _);
      [lia|reflexivity| |lia|].
    { rewrite Hd2, fexp_normal by lia. lia. }
    rewrite Z.add_0_r in Hs2. rewrite Hs2. rewrite Z.div_1_r in Hm2. rewrite Hm2.
    destruct m2 as [|p|p] eqn:Em2; [lia| |lia].
    replace (e1 <=? emax - prec) with true
      by (symmetry; apply Z.leb_le; unfold emax, prec; lia).
    exists p, e1. split; [reflexivity|]. split; [lia|]. split; [now left|].
    split; [assumption|]. split; [assumption|].
    intros El Ed. subst lx. rewrite Hz1 in Hr4, Hm1 by lia.
    cbn in Hr4, Hm1. split; [apply Hr4; reflexivity|unfold e1; lia].
  - (* the carry: the rounded mantissa is 2^53 *)
    assert (Em2 : m2 = 2 ^ 53) by lia.
    assert (Hd2 : Zdigits2 m2 = 54) by (apply Zdigits2_unique; lia).
    destruct (shr_fexp_spec m2 loc_Exact e1 (F2R m2 e1) 1) as (mrs2 & Hs2 & Hm2 & _ & _);
      [lia|reflexivity| |lia|].
    { rewrite Hd2, fexp_normal by lia. lia. }
    rewrite Hs2, Hm2, Em2. change (2 ^ 53 / 2 ^ 1) with (Z.pos (2 ^ 52)).
    replace (e1 + 1 <=? emax - prec) with true
      by (symmetry; apply Z.leb_le; unfold emax, prec; lia).
    exists (2 ^ 52)%positive, (e1 + 1). split; [reflexivity|]. split; [lia|].
    split; [now right|]. split; [|split; [assumption|]].
    + replace (F2R (Z.pos (2 ^ 52)) (e1 + 1)) with (F2R m2 e1); [assumption|].
      unfold F2R. rewrite Em2, bpow_succ.
      change (Z.pos (2 ^ 52)) with (2 ^ 52).
      replace (IZR (2 ^ 53)) with (2 * IZR (2 ^ 52))%R; [ring|].
      rewrite <- mult_IZR. reflexivity.
    + intros El Ed. subst lx. exfalso.
      rewrite Hz1 in Hr1 by lia. cbn in Hr1.
      unfold m2 in Em2. rewrite Hz1 in Em2 by lia. cbn in Em2. 
      rewrite Ed in Hb2. lia.
Qed.

Lemma Pos_iter_xO p k : Z.pos (Pos.iter xO p k) = Z.pos p * 2 ^ Z.pos k.
Proof.
  induction k as [|k IH] using Pos.peano_ind.
  - cbn [Pos.iter]. change (Z.pos p~0) with (2 * Z.pos p). lia.
  - rewrite Pos.iter_succ, Pos2Z.inj_succ, Z.pow_succ_r by lia.
    change (Z.pos (Pos.iter xO p k)~0) with (2 * Z.pos (Pos.iter xO p k)).
    rewrite IH. lia.
Qed.

(** [float64(z)] is exact for a positive [z] below [2^53]: the mantissa is
    [z] shifted to 53 digits. *)
Lemma of_uint_exact (z : Z) :
  0 < z < 2 ^ 53 ->
  exists m,
    Prim2SF (F64.of_uint z) = S754_finite false m (Zdigits2 z - 53)
    /\ Z.pos m = z * 2 ^ (53 - Zdigits2 z)
    /\ 2 ^ 52 <= Z.pos m < 2 ^ 53.
Proof.
  intros Hz. unfold F64.of_uint. rewrite FloatAxioms.of_uint63_spec.
  rewrite Uint63.of_Z_spec. rewrite Z.mod_small
    by (change wB with (2 ^ 63); split; [lia|]; 
        apply Z.lt_trans with (2 ^ 53); [lia|reflexivity]).
  destruct z as [|p|p]; [lia| |lia].
  pose proof (digits2_pos_bounds p) as [Hb1 Hb2].
  set (d := Z.pos (digits2_pos p)) in *.
  assert (Hd : 0 < d <= 53).
  { split; [unfold d; lia|].
    destruct (Z.le_gt_cases d 53) as [H|H]; [assumption|].
    assert (2 ^ 53 <= 2 ^ (d - 1)) by (apply Z.pow_le_mono_r; lia). lia. }
  cbn [binary_normalize Zdigits2]. fold d. unfold binary_round.
  rewrite Z.add_0_r. fold d. rewrite fexp_normal by lia.
  unfold shl_align. rewrite Z.sub_0_r.
  assert (Hcase : d - 53 = 0 \/ exists k, d - 53 = Z.neg k).
  { destruct (d - 53) as [|q|q] eqn:E; [now left|lia|right; now exists q]. }
  destruct Hcase as [E0|[k Ek]].
  - rewrite E0.
    destruct (binary_round_aux_normal false (Z.pos p) 0 loc_Exact (F2R (Z.pos p) 0))
      as (m & e & Hr & Hm & _ & _ & _ & Hex).
    + lia.
    + cbn [Zdigits2]. fold d. lia.
    + cbn [Zdigits2]. fold d. lia.
    + cbn [Zdigits2]. fold d. lia.
    + reflexivity.
    + destruct Hex as [Em Ee]; [reflexivity|cbn [Zdigits2]; fold d; lia|].
      exists m. rewrite Hr, Ee. split; [reflexivity|].
      replace (53 - d) with 0 by lia. split; [lia|exact Hm].
  - rewrite Ek.
    set (mz := Pos.iter xO p k).
    assert (Emz : Z.pos mz = Z.pos p * 2 ^ (53 - d)).
    { unfold mz. rewrite Pos_iter_xO. f_equal. f_equal. lia. }
    assert (Hmz : 2 ^ 52 <= Z.pos mz < 2 ^ 53).
    { rewrite Emz. split.
      - replace 52 with ((d - 1) + (53 - d)) by lia. rewrite Z.pow_add_r by lia.
        apply Z.mul_le_mono_nonneg_r; [apply Z.pow_nonneg; lia|assumption].
      - replace 53 with (d + (53 - d)) at 2 by lia. rewrite Z.pow_add_r by lia.
        apply Z.mul_lt_mono_pos_r; [apply Z.pow_pos_nonneg; lia|assumption]. }
    assert (Hdz : Zdigits2 (Z.pos mz) = 53) by (apply Zdigits2_unique; lia).
    rewrite <- Ek.
    destruct (binary_round_aux_normal false (Z.pos mz) (d - 53) loc_Exact
                (F2R (Z.pos mz) (d - 53)))
      as (m & e & Hr & Hm & _ & _ & _ & Hex).
    + lia.
    + rewrite Hdz. lia.
    + rewrite Hdz. lia.
    + rewrite Hdz. lia.
    + reflexivity.
    + destruct Hex as [Em Ee]; [reflexivity|assumption|].
      exists m. rewrite Hr, Ee. split; [reflexivity|].
      rewrite Em. split; [exact Emz|lia].
Qed.

Ltac push_IZR H :=
  repeat (rewrite plus_IZR in H || rewrite mult_IZR in H || rewrite minus_IZR in H).

(** [uint32(float64(z))] is [z] for every [z] below [2^32]. *)
Lemma trunc_of_uint (z : Z) : 0 <= z < 2 ^ 53 -> F64.trunc (F64.of_uint z) = Some z.
Proof.
  intros Hz. destruct (Z.eq_dec z 0) as [->|Hnz]; [reflexivity|].
  destruct (of_uint_exact z ltac:(lia)) as (m & Hm & Em & Hb).
  unfold F64.trunc. rewrite Hm. f_equal.
  pose proof (Zdigits2_bounds z ltac:(lia)) as [Hb1 Hb2].
  assert (Hd : 0 < Zdigits2 z <= 53).
  { split; [destruct z; cbn; lia|].
    destruct (Z.le_gt_cases (Zdigits2 z) 53) as [H|H]; [assumption|].
    assert (2 ^ 53 <= 2 ^ (Zdigits2 z - 1)) by (apply Z.pow_le_mono_r; lia). lia. }
  destruct (Z.leb_spec 0 (Zdigits2 z - 53)) as [H|H].
  - replace (Zdigits2 z - 53) with 0 by lia.
    replace (53 - Zdigits2 z) with 0 in Em by lia. lia.
  - rewrite Em. replace (- (Zdigits2 z - 53)) with (53 - Zdigits2 z) by lia.
    apply Z.div_mul. apply Z.pow_nonzero; lia.
Qed.

Lemma to_uint32_of_uint unrepresentable (z : Z) :
  0 <= z < 2 ^ 32 -> F64.to_uint32 unrepresentable (F64.of_uint z) = z.
Proof.
  intros Hz. unfold F64.to_uint32. rewrite trunc_of_uint by lia.
  replace ((0 <=? z) && (z <? 2 ^ 32)) with true; [reflexivity|].
  symmetry. apply andb_true_iff. split; [apply Z.leb_le|apply Z.ltb_lt]; lia.
Qed.

(** [math.Round] of a positive float that has a fractional part, followed
    by [uint32()]: an integer at most one half away. *)
Lemma to_uint32_Round unrepresentable (f : float) (m : positive) (e : Z) :
  Prim2SF f = S754_finite false m e -> e < 0 ->
  (F2R (Z.pos m) e + / 2 < IZR (2 ^ 32))%R ->
  exists k,
    F64.to_uint32 unrepresentable (F64.Round f) = k
    /\ 0 <= k < 2 ^ 32
    /\ (- / 2 <= F2R (Z.pos m) e - IZR k < / 2)%R.
Proof.
  intros Hf He Hlt. unfold F64.Round. rewrite Hf.
  replace (0 <=? e) with false by (symmetry; apply Z.leb_gt; lia).
  set (D := 2 ^ (- e)). set (q := (2 * Z.pos m + D) / (2 * D)).
  assert (HD : 0 < D) by (apply Z.pow_pos_nonneg; lia).
  assert (Hq : 2 * D * q <= 2 * Z.pos m + D < 2 * D * q + 2 * D).
  { unfold q. pose proof (Z.mul_div_le (2 * Z.pos m + D) (2 * D) ltac:(lia)).
    pose proof (Z.mul_succ_div_gt (2 * Z.pos m + D) (2 * D) ltac:(lia)). lia. }
  assert (HDr : IZR D = bpow (- e)) by (unfold D; rewrite bpow_nonneg_IZR by lia; reflexivity).
  assert (Hval : F2R (Z.pos m) e = (IZR (Z.pos m) / IZR D)%R).
  { unfold F2R. rewrite HDr, bpow_opp. unfold Rdiv. rewrite Rinv_inv. reflexivity. }
  assert (HDp : (0 < IZR D)%R) by (apply IZR_lt; assumption).
  destruct Hq as [Hq1 Hq2]. apply IZR_le in Hq1. apply IZR_lt in Hq2.
  push_IZR Hq1. push_IZR Hq2.
  assert (Hdiff : (- / 2 <= F2R (Z.pos m) e - IZR q < / 2)%R).
  { rewrite Hval. 
    assert (E : (IZR (Z.pos m) / IZR D - IZR q = (2 * IZR (Z.pos m) - 2 * IZR D * IZR q) / (2 * IZR D))%R)
      by (field; lra).
    assert (Hnz : (2 * IZR D <> 0)%R) by (apply Rgt_not_eq; lra).
    rewrite E. split.
    - apply (Rmult_le_reg_r (2 * IZR D)); [lra|].
      unfold Rdiv. rewrite Rmult_assoc, Rinv_l by exact Hnz. lra.
    - apply (Rmult_lt_reg_r (2 * IZR D)); [lra|].
      unfold Rdiv. rewrite Rmult_assoc, Rinv_l by exact Hnz. lra. }
  assert (Hq0 : 0 <= q) by (unfold q; apply Z.div_pos; lia).
  assert (Hq32 : q < 2 ^ 32).
  { apply lt_IZR. lra. }
  exists q. rewrite to_uint32_of_uint by lia. split; [reflexivity|].
  split; [lia|exact Hdiff].
Qed.

Lemma half_bpow e : (bpow e / 2 = bpow (52 + e) * bpow (-53))%R.
Proof.
  rewrite <- bpow_add. replace (52 + e + -53) with (e + -1) by lia.
  rewrite bpow_add. change (-1) with (- (1)). rewrite bpow_opp, bpow_1. reflexivity.
Qed.

(** The relative form: the rounded value is within [2^-53] of [x],
    relatively. *)
Lemma binary_round_aux_relative (sx : bool) (mx ex : Z) (lx : location) (x : R) :
  0 < mx -> 53 <= Zdigits2 mx ->
  -1074 <= Zdigits2 mx + ex - 53 -> Zdigits2 mx + ex - 53 + 1 <= 971 ->
  located mx lx ex x ->
  exists m e,
    binary_round_aux prec emax sx mx ex lx = S754_finite sx m e
    /\ 2 ^ 52 <= Z.pos m < 2 ^ 53
    /\ Zdigits2 mx + ex - 53 <= e <= Zdigits2 mx + ex - 53 + 1
    /\ (Rabs (F2R (Z.pos m) e - x) <= x * bpow (-53))%R.
Proof.
  intros H1 H2 H3 H4 H5.
  destruct (binary_round_aux_normal sx mx ex lx x H1 H2 H3 H4 H5)
    as (m & e & Hr & Hm & He & Herr & Hx & _).
  exists m, e. split; [assumption|]. split; [assumption|]. split; [lia|].
  eapply Rle_trans; [exact Herr|]. rewrite half_bpow.
  apply Rmult_le_compat_r; [left; apply bpow_pos|assumption].
Qed.

Lemma digits_product (a b : Z) :
  2 ^ 52 <= a < 2 ^ 53 -> 2 ^ 52 <= b < 2 ^ 53 ->
  105 <= Zdigits2 (a * b) <= 106.
Proof.
  intros Ha Hb.
  assert (Hlo : 2 ^ 104 <= a * b).
  { change (2 ^ 104) with (2 ^ 52 * 2 ^ 52). apply Z.mul_le_mono_nonneg; lia. }
  assert (Hhi : a * b < 2 ^ 106).
  { change (2 ^ 106) with (2 ^ 53 * 2 ^ 53). apply Z.mul_lt_mono_nonneg; lia. }
  pose proof (Zdigits2_bounds (a * b) ltac:(lia)) as [H1 H2].
  assert (0 < Zdigits2 (a * b)) by (destruct (a * b); cbn; lia).
  split.
  - destruct (Z.le_gt_cases 105 (Zdigits2 (a * b))) as [H'|H']; [assumption|].
    assert (2 ^ Zdigits2 (a * b) <= 2 ^ 104) by (apply Z.pow_le_mono_r; lia). lia.
  - destruct (Z.le_gt_cases (Zdigits2 (a * b)) 106) as [H'|H']; [assumption|].
    assert (2 ^ 106 <= 2 ^ (Zdigits2 (a * b) - 1)) by (apply Z.pow_le_mono_r; lia). lia.
Qed.

(** The product of two normal positive floats, away from overflow and
    underflow. *)
Lemma mul_normal (a b : float) (ma mb : positive) (ea eb : Z) :
  Prim2SF a = S754_finite false ma ea -> Prim2SF b = S754_finite false mb eb ->
  2 ^ 52 <= Z.pos ma < 2 ^ 53 -> 2 ^ 52 <= Z.pos mb < 2 ^ 53 ->
  -1000 <= ea + eb <= 800 ->
  exists m e,
    Prim2SF (a * b) = S754_finite false m e
    /\ 2 ^ 52 <= Z.pos m < 2 ^ 53
    /\ ea + eb + 52 <= e <= ea + eb + 54
    /\ (Rabs (F2R (Z.pos m) e - F2R (Z.pos ma) ea * F2R (Z.pos mb) eb)
        <= F2R (Z.pos ma) ea * F2R (Z.pos mb) eb * bpow (-53))%R.
Proof.
  intros Ha Hb Hma Hmb He.
  rewrite FloatAxioms.mul_spec, Ha, Hb. unfold FloatAxioms.SF64mul, SFmul. cbn [xorb].
  pose proof (digits_product _ _ Hma Hmb) as Hd.
  change (Z.pos ma * Z.pos mb) with (Z.pos (ma * mb)) in Hd.
  destruct (binary_round_aux_relative false (Z.pos (ma * mb)) (ea + eb) loc_Exact
              (F2R (Z.pos ma) ea * F2R (Z.pos mb) eb))
    as (m & e & Hr & Hm & Hee & Herr); try lia.
  { unfold located, F2R. rewrite Pos2Z.inj_mul, mult_IZR, bpow_add. ring. }
  exists m, e. split; [exact Hr|]. split; [assumption|]. split; [lia|assumption].
Qed.

(** The location [new_location] computes for a remainder. *)
Lemma new_location_spec (nb q r e : Z) :
  0 < nb -> 0 <= r < nb ->
  located q (new_location nb r) e ((IZR q + IZR r / IZR nb) * bpow e)%R.
Proof.
  intros Hnb Hr. pose proof (bpow_pos e) as HB.
  assert (Hnb' : (0 < IZR nb)%R) by now apply IZR_lt.
  assert (Hr0 : (0 <= IZR r)%R) by (apply IZR_le; lia).
  assert (Hrnb : (IZR r < IZR nb)%R) by (apply IZR_lt; lia).
  set (t := (IZR r / IZR nb)%R).
  assert (Et : (t * IZR nb = IZR r)%R).
  { unfold t, Rdiv. rewrite Rmult_assoc, Rinv_l by (apply Rgt_not_eq; lra). ring. }
  assert (Hhalf : forall c, (2 * r ?= nb) = c ->
            match c with
            | Lt => (t < / 2)%R | Eq => (t = / 2)%R | Gt => (/ 2 < t)%R
            end).
  { intros c Hc. destruct c.
    - apply Z.compare_eq in Hc. apply (f_equal IZR) in Hc. rewrite mult_IZR in Hc.
      apply (Rmult_eq_reg_r (IZR nb)); [|apply Rgt_not_eq; lra]. lra.
    - apply Z.compare_lt_iff in Hc. apply IZR_lt in Hc. rewrite mult_IZR in Hc.
      apply (Rmult_lt_reg_r (IZR nb)); [lra|]. lra.
    - apply Z.compare_gt_iff in Hc. apply IZR_lt in Hc. rewrite mult_IZR in Hc.
      apply (Rmult_lt_reg_r (IZR nb)); [lra|]. lra. }
  assert (Htpos : r <> 0 -> (0 < t)%R).
  { intros Hne. apply Rdiv_lt_0_compat; [|assumption].
    apply IZR_lt. lia. }
  unfold new_location.
  destruct (Z.even nb) eqn:Even.
  - unfold new_location_even. destruct (Z.eqb_spec r 0) as [->|Hne].
    + unfold located, F2R, t. unfold Rdiv. rewrite Rmult_0_l. ring.
    + specialize (Htpos Hne). specialize (Hhalf _ eq_refl).
      unfold located, F2R. destruct (2 * r ?= nb); nra.
  - unfold new_location_odd. destruct (Z.eqb_spec r 0) as [->|Hne].
    + unfold located, F2R, t. unfold Rdiv. rewrite Rmult_0_l. ring.
    + specialize (Htpos Hne). specialize (Hhalf _ eq_refl).
      assert (Hodd : 2 * r <> nb).
      { intros E. rewrite <- E in Even. rewrite Z.even_mul in Even. discriminate. }
      unfold located, F2R.
      destruct (2 * r + 1 ?= nb) eqn:C.
      * apply Z.compare_eq in C.
        assert (C2 : (2 * r ?= nb) = Lt) by (apply Z.compare_lt_iff; lia).
        rewrite C2 in Hhalf. nra.
      * change (2 * r + 1 < nb) in C.
        assert (C2 : (2 * r ?= nb) = Lt) by (apply Z.compare_lt_iff; lia).
        rewrite C2 in Hhalf. nra.
      * change (2 * r + 1 > nb) in C.
        assert (C2 : (2 * r ?= nb) = Gt) by (apply Z.compare_gt_iff; lia).
        rewrite C2 in Hhalf. 
        assert (t < 1)%R.
        { apply (Rmult_lt_reg_r (IZR nb)); [lra|]. lra. }
        nra.
Qed.

Lemma SFdiv_core_binary_normal (ma mb ea eb : Z) :
  2 ^ 52 <= ma < 2 ^ 53 -> 2 ^ 52 <= mb < 2 ^ 53 -> -1074 <= ea - eb - 53 ->
  SFdiv_core_binary prec emax ma ea mb eb
  = ((ma * 2 ^ 53) / mb, ea - eb - 53, new_location mb ((ma * 2 ^ 53) mod mb)).
Proof.
  intros Ha Hb He. unfold SFdiv_core_binary.
  rewrite (Zdigits2_unique ma 53) by lia. rewrite (Zdigits2_unique mb 53) by lia.
  replace (53 + ea - (53 + eb)) with (ea - eb) by lia.
  rewrite fexp_normal by lia. rewrite Z.min_l by lia.
  replace (ea - eb - (ea - eb - 53)) with 53 by lia.
  rewrite Z.shiftl_mul_pow2 by lia.
  unfold Z.div, Z.modulo. destruct (Z.div_eucl (ma * 2 ^ 53) mb) as [q r].
  reflexivity.
Qed.

(** The quotient of two normal positive floats, away from overflow and
    underflow. *)
Lemma div_normal (a b : float) (ma mb : positive) (ea eb : Z) :
  Prim2SF a = S754_finite false ma ea -> Prim2SF b = S754_finite false mb eb ->
  2 ^ 52 <= Z.pos ma < 2 ^ 53 -> 2 ^ 52 <= Z.pos mb < 2 ^ 53 ->
  -900 <= ea - eb <= 900 ->
  exists m e,
    Prim2SF (a / b) = S754_finite false m e
    /\ 2 ^ 52 <= Z.pos m < 2 ^ 53
    /\ ea - eb - 53 <= e <= ea - eb - 51
    /\ (Rabs (F2R (Z.pos m) e - F2R (Z.pos ma) ea / F2R (Z.pos mb) eb)
        <= F2R (Z.pos ma) ea / F2R (Z.pos mb) eb * bpow (-53))%R.
Proof.
  intros Ha Hb Hma Hmb He.
  rewrite FloatAxioms.div_spec, Ha, Hb. unfold FloatAxioms.SF64div, SFdiv. cbn [xorb].
  rewrite SFdiv_core_binary_normal by lia.
  set (q := (Z.pos ma * 2 ^ 53) / Z.pos mb).
  set (r := (Z.pos ma * 2 ^ 53) mod Z.pos mb).
  assert (Hqr : Z.pos ma * 2 ^ 53 = Z.pos mb * q + r)
    by (apply Z.div_mod; lia).
  assert (Hr : 0 <= r < Z.pos mb) by (apply Z.mod_pos_bound; lia).
  assert (Hq : 2 ^ 52 <= q < 2 ^ 54).
  { unfold q. split.
    - apply Z.div_le_lower_bound; lia.
    - apply Z.div_lt_upper_bound; lia. }
  assert (Hd : 53 <= Zdigits2 q <= 54).
  { pose proof (Zdigits2_bounds q ltac:(lia)) as [H1 H2].
    assert (0 < Zdigits2 q) by (destruct q; cbn; lia).
    split.
    - destruct (Z.le_gt_cases 53 (Zdigits2 q)) as [H'|H']; [assumption|].
      assert (2 ^ Zdigits2 q <= 2 ^ 52) by (apply Z.pow_le_mono_r; lia). lia.
    - destruct (Z.le_gt_cases (Zdigits2 q) 54) as [H'|H']; [assumption|].
      assert (2 ^ 54 <= 2 ^ (Zdigits2 q - 1)) by (apply Z.pow_le_mono_r; lia). lia. }
  destruct (binary_round_aux_relative false q (ea - eb - 53)
              (new_location (Z.pos mb) r)
              (F2R (Z.pos ma) ea / F2R (Z.pos mb) eb))
    as (m & e & Hres & Hm & Hee & Herr); try lia.
  { replace (F2R (Z.pos ma) ea / F2R (Z.pos mb) eb)%R
      with ((IZR q + IZR r / IZR (Z.pos mb)) * bpow (ea - eb - 53))%R.
    - apply new_location_spec; lia.
    - unfold F2R.
      replace (ea - eb - 53) with (ea + (- eb + - (53))) by lia.
      rewrite !bpow_add, !bpow_opp.
      assert (Hmb' : (0 < IZR (Z.pos mb))%R) by (apply IZR_lt; lia).
      pose proof (bpow_pos ea). pose proof (bpow_pos eb).
      assert (E : (IZR (Z.pos ma) * bpow 53 = IZR (Z.pos mb) * IZR q + IZR r)%R).
      { rewrite bpow_nonneg_IZR by lia. rewrite <- !mult_IZR, <- plus_IZR.
        f_equal. exact Hqr. }
      pose proof (bpow_pos 53).
      replace (IZR q + IZR r / IZR (Z.pos mb))%R
        with (IZR (Z.pos ma) * bpow 53 / IZR (Z.pos mb))%R
        by (rewrite E; field; apply Rgt_not_eq; assumption).
      field. repeat split; apply Rgt_not_eq; assumption. }
  exists m, e. split; [exact Hres|]. split; [assumption|]. split; [lia|assumption].
Qed.

Lemma Rabs_le_inv (a b : R) : (Rabs a <= b -> - b <= a <= b)%R.
Proof. unfold Rabs. destruct (Rcase_abs a); lra. Qed.

Lemma digits_uint32 (z : Z) : 0 < z < 2 ^ 32 -> 0 < Zdigits2 z <= 32.
Proof.
  intros Hz. pose proof (Zdigits2_bounds z ltac:(lia)) as [H1 H2].
  split; [destruct z; cbn; lia|].
  destruct (Z.le_gt_cases (Zdigits2 z) 32) as [H|H]; [assumption|].
  assert (2 ^ 32 <= 2 ^ (Zdigits2 z - 1)) by (apply Z.pow_le_mono_r; lia). lia.
Qed.

(** [float64(z)] for a positive uint32 [z]: a normal float of value [z]. *)
Lemma of_uint32_value (z : Z) :
  0 < z < 2 ^ 32 ->
  exists m e,
    Prim2SF (F64.of_uint z) = S754_finite false m e
    /\ 2 ^ 52 <= Z.pos m < 2 ^ 53 /\ -52 <= e <= -21
    /\ F2R (Z.pos m) e = IZR z.
Proof.
  intros Hz. pose proof (digits_uint32 z Hz) as Hd.
  destruct (of_uint_exact z) as (m & Hm & Em & Hb).
  { split; [lia|]. apply Z.lt_trans with (2 ^ 32); [lia|reflexivity]. }
  exists m, (Zdigits2 z - 53). split; [exact Hm|]. split; [exact Hb|].
  split; [lia|]. unfold F2R. rewrite Em, mult_IZR.
  rewrite <- bpow_nonneg_IZR by lia. rewrite Rmult_assoc, <- bpow_add.
  replace (53 - Zdigits2 z + (Zdigits2 z - 53)) with 0 by lia.
  rewrite bpow_0. ring.
Qed.

Lemma Prim2SF_Ln2 : Prim2SF F64.Ln2 = S754_finite false 6243314768165359 (-53).
Proof. reflexivity. Qed.

Lemma bpow_m53 : bpow (-53) = (/ 9007199254740992)%R.
Proof.
  change (-53) with (- (53)). rewrite bpow_opp, bpow_nonneg_IZR by lia.
  reflexivity.
Qed.

Lemma bpow_m51 : bpow (-51) = (4 * bpow (-53))%R.
Proof.
  replace (-51) with (2 + -53) by lia. rewrite bpow_add.
  rewrite (bpow_nonneg_IZR 2) by lia. reflexivity.
Qed.

(** [math.Ln2] as a float64 is below [ln 2], by less than [2^-52] of
    it. *)
Lemma Ln2_float_close :
  (ln 2 * (1 - 2 * bpow (-53)) <= F2R 6243314768165359 (-53) <= ln 2)%R.
Proof.
  pose proof ln2_bounds as [Hlo Hhi]. unfold Q2R, ln2_lo, ln2_hi in Hlo, Hhi.
  cbn [Qnum Qden] in Hlo, Hhi.
  unfold F2R. rewrite bpow_m53. split; [|lra].
  nra.
Qed.

(** The value of [OptimalK] is within one half, and a relative [2^-51],
    of [(m/n) * ln 2]. *)
Lemma OptimalK_accuracy (unrepresentable : float -> Z) (m n : Z) :
  0 < m < 2 ^ 32 -> 0 < n < 2 ^ 32 ->
  exists k,
    OptimalK unrepresentable m n = (k, None)
    /\ 0 <= k < 2 ^ 32
    /\ (Rabs (IZR k - IZR m / IZR n * ln 2)
        <= / 2 + IZR m / IZR n * ln 2 * bpow (-51))%R.
Proof.
  intros Hm Hn.
  destruct (of_uint32_value m Hm) as (ma & ea & Ha & Hma & Hea & Va).
  destruct (of_uint32_value n Hn) as (mb & eb & Hb & Hmb & Heb & Vb).
  destruct (div_normal _ _ _ _ _ _ Ha Hb Hma Hmb ltac:(lia))
    as (m1 & e1 & H1 & Hm1 & He1 & Err1).
  destruct (mul_normal _ _ _ _ _ _ H1 Prim2SF_Ln2 Hm1 ltac:(lia) ltac:(lia))
    as (m2 & e2 & H2 & Hm2 & He2 & Err2).
  rewrite Va, Vb in Err1.
  set (X0 := (IZR m / IZR n)%R) in *.
  set (F1 := F2R (Z.pos m1) e1) in *. set (F2 := F2R (Z.pos m2) e2) in *.
  set (Lr := F2R 6243314768165359 (-53)) in *.
  set (u := bpow (-53)) in *.
  assert (Hu : (0 < u <= / 1000)%R).
  { unfold u. rewrite bpow_m53. lra. }
  assert (Hm' : (1 <= IZR m <= 4294967295)%R).
  { split; apply IZR_le; lia. }
  assert (Hn' : (1 <= IZR n)%R) by (apply IZR_le; lia).
  assert (HX0 : (0 < X0 <= 4294967295)%R).
  { unfold X0. split; [apply Rdiv_lt_0_compat; lra|].
    apply (Rmult_le_reg_r (IZR n)); [lra|].
    unfold Rdiv. rewrite Rmult_assoc, Rinv_l by (apply Rgt_not_eq; lra). nra. }
  pose proof Ln2_float_close as [HL1 HL2]. fold Lr u in HL1, HL2.
  pose proof ln2_bounds as [Hlo Hhi]. unfold Q2R, ln2_lo, ln2_hi in Hlo, Hhi.
  cbn [Qnum Qden] in Hlo, Hhi.
  assert (Hln : (0.69 < ln 2 < 0.7)%R) by lra.
  assert (HLr : (0 < Lr)%R) by nra.
  apply Rabs_le_inv in Err1. apply Rabs_le_inv in Err2.
  set (x := (X0 * ln 2)%R).
  assert (Hx : (0 < x)%R) by (unfold x; nra).
  assert (HF1 : (X0 * (1 - u) <= F1 <= X0 * (1 + u))%R) by lra.
  assert (HP : (x * (1 - 2 * u) <= X0 * Lr <= x)%R).
  { unfold x. split.
    - replace (X0 * ln 2 * (1 - 2 * u))%R with (X0 * (ln 2 * (1 - 2 * u)))%R by ring.
      apply Rmult_le_compat_l; lra.
    - apply Rmult_le_compat_l; lra. }
  assert (HF1L : (X0 * Lr * (1 - u) <= F1 * Lr <= X0 * Lr * (1 + u))%R).
  { split.
    - replace (X0 * Lr * (1 - u))%R with (X0 * (1 - u) * Lr)%R by ring.
      apply Rmult_le_compat_r; lra.
    - replace (X0 * Lr * (1 + u))%R with (X0 * (1 + u) * Lr)%R by ring.
      apply Rmult_le_compat_r; lra. }
  assert (HF1Lpos : (0 <= F1 * Lr)%R).
  { apply Rmult_le_pos; [|lra]. apply Rle_trans with (X0 * (1 - u))%R; [|lra].
    apply Rmult_le_pos; lra. }
  assert (HF2 : (X0 * Lr * ((1 - u) * (1 - u)) <= F2 <= X0 * Lr * ((1 + u) * (1 + u)))%R).
  { assert (0 <= X0 * Lr)%R by (apply Rmult_le_pos; lra).
    split.
    - apply Rle_trans with (F1 * Lr * (1 - u))%R; [|lra].
      rewrite <- Rmult_assoc. apply Rmult_le_compat_r; lra.
    - apply Rle_trans with (F1 * Lr * (1 + u))%R; [lra|].
      rewrite <- Rmult_assoc. apply Rmult_le_compat_r; lra. }
  assert (Hup : ((1 + u) * (1 + u) <= 1 + 3 * u)%R) by nra.
  assert (Hdn : (1 - 4 * u <= (1 - 2 * u) * ((1 - u) * (1 - u)))%R) by nra.
  assert (HF2x : (x * (1 - 4 * u) <= F2 <= x * (1 + 3 * u))%R).
  { destruct HF2 as [HF2a HF2b]. destruct HP as [HPa HPb]. split.
    - apply Rle_trans with (X0 * Lr * ((1 - u) * (1 - u)))%R; [|assumption].
      apply Rle_trans with (x * (1 - 2 * u) * ((1 - u) * (1 - u)))%R.
      + rewrite Rmult_assoc. apply Rmult_le_compat_l; lra.
      + apply Rmult_le_compat_r; [nra|assumption].
    - apply Rle_trans with (X0 * Lr * ((1 + u) * (1 + u)))%R; [assumption|].
      apply Rle_trans with (x * ((1 + u) * (1 + u)))%R.
      + apply Rmult_le_compat_r; [nra|assumption].
      + apply Rmult_le_compat_l; lra. }
  assert (Hx32 : (x <= 3006477107)%R) by (unfold x; nra).
  destruct (to_uint32_Round unrepresentable
              (F64.of_uint m / F64.of_uint n * F64.Ln2)%float m2 e2 H2 ltac:(lia))
    as (k & Hk & Hkr & Hkd).
  { fold F2. change (IZR (2 ^ 32)) with 4294967296%R.
    assert (Hbound : (x * (1 + 3 * u) <= 3006477107 * (1 + 3 * / 1000))%R)
      by (apply Rmult_le_compat; lra).
    lra. }
  fold F2 in Hkd.
  exists k. split; [|split; [assumption|]].
  - unfold OptimalK.
    replace (n =? 0) with false by (symmetry; apply Z.eqb_neq; lia).
    replace (m =? 0) with false by (symmetry; apply Z.eqb_neq; lia).
    cbv zeta. rewrite Hk. reflexivity.
  - fold X0. fold x. rewrite bpow_m51. fold u. apply Rabs_le. nra.
Qed.

(** [OptimalK] fails exactly when [m] or [n] is 0, and its value is then
    0. *)
Lemma OptimalK_error_iff (unrepresentable : float -> Z) (m n : Z) :
  (snd (OptimalK unrepresentable m n) <> None <-> (m = 0 \/ n = 0))
  /\ (m = 0 \/ n = 0 -> fst (OptimalK unrepresentable m n) = 0).
Proof.
  unfold OptimalK.
  destruct (Z.eqb_spec n 0) as [->|Hn]; cbn.
  - split; [split; [auto|discriminate]|reflexivity].
  - destruct (Z.eqb_spec m 0) as [->|Hm]; cbn.
    + split; [split; [auto|discriminate]|reflexivity].
    + split; [split; [congruence|lia]|lia].
Qed.

(** On every pair of the grid the value of [OptimalK] brackets the
    formula: by evaluation of the 32768 pairs. *)
Lemma OptimalK_brackets_grid (unrepresentable : float -> Z) :
  forallb (fun m =>
    forallb (fun n => brackets m n (fst (OptimalK unrepresentable m n)))
            (seqZ 1 32))
    (seqZ 1 1024) = true.
Proof. vm_cast_no_check (@eq_refl bool true). Qed.

(** Where the product is not within its [2^-51] of a half-integer, the
    integer within one half and that margin of it is the rounded one. *)
Lemma Rround_of_close (x : R) (k : Z) :
  (0 <= x)%R ->
  (Rabs (IZR k - x) <= / 2 + x * bpow (-51))%R ->
  (forall j : Z, (x * bpow (-51) < Rabs (x - (IZR j + / 2)))%R) ->
  Rround x = k.
Proof.
  intros Hx Hk Hfar. apply Rabs_le_inv in Hk.
  pose proof (Hfar k) as H1. pose proof (Hfar (k - 1)) as H2.
  rewrite minus_IZR in H2.
  assert (Hs : (0 <= x * bpow (-51))%R).
  { apply Rmult_le_pos; [assumption|]. left. apply bpow_pos. }
  apply Rround_unique; [assumption|].
  unfold Rabs in H1, H2.
  destruct (Rcase_abs (x - (IZR k + / 2))), (Rcase_abs (x - (IZR k - 1 + / 2))); lra.
Qed.

(** C6 (as amended).  [OptimalK] fails exactly when [m] or [n] is 0, with
    0 as the value.  For [m] and [n] of a uint32 that are not 0 it returns
    a nil error and an integer [k] within one half, and a relative
    [2^-51], of [(m/n) * ln 2]: the formula's value,
    [round((m/n) * ln 2)] over the real numbers, wherever that product is
    not within its [2^-51] of a half-integer.  It is the formula's value
    for every [m] from 1 to 1024 with every [n] from 1 to 32, and at the
    two inputs of the tests: [OptimalK(9586, 1000) = 7],
    [OptimalK(14378, 1000) = 10]. *)
Theorem OptimalK_in_float64 (unrepresentable : float -> Z) :
  (forall m n, snd (OptimalK unrepresentable m n) <> None <-> (m = 0 \/ n = 0))
  /\ (forall m n, m = 0 \/ n = 0 -> fst (OptimalK unrepresentable m n) = 0)
  /\ (forall m n, 0 < m < 2 ^ 32 -> 0 < n < 2 ^ 32 ->
        exists k,
          OptimalK unrepresentable m n = (k, None)
          /\ 0 <= k < 2 ^ 32
          /\ (Rabs (IZR k - OptimalK_exact m n)
              <= / 2 + OptimalK_exact m n * bpow (-51))%R
          /\ ((forall j : Z,
                 (OptimalK_exact m n * bpow (-51)
                  < Rabs (OptimalK_exact m n - (IZR j + / 2)))%R) ->
              k = OptimalK_formula m n))
  /\ (forall m n, 1 <= m <= 1024 -> 1 <= n <= 32 ->
        OptimalK unrepresentable m n = (OptimalK_formula m n, None))
  /\ OptimalK unrepresentable 9586 1000 = (7, None)
  /\ OptimalK_formula 9586 1000 = 7
  /\ OptimalK unrepresentable 14378 1000 = (10, None)
  /\ OptimalK_formula 14378 1000 = 10
  /\ OptimalK unrepresentable 0 1000 = (0, Some ErrSize)
  /\ OptimalK unrepresentable 1000 0 = (0, Some ErrItems).
Proof.
  split; [|split; [|split; [|split; [|repeat split]]]].
  - intros m n. apply OptimalK_error_iff.
  - intros m n. apply OptimalK_error_iff.
  - intros m n Hm Hn.
    destruct (OptimalK_accuracy unrepresentable m n Hm Hn) as (k & Hk & Hr & Hacc).
    exists k. split; [exact Hk|]. split; [exact Hr|]. split; [exact Hacc|].
    intros Hfar. symmetry. unfold OptimalK_formula.
    apply Rround_of_close; [|exact Hacc|exact Hfar].
    unfold OptimalK_exact. apply Rmult_le_pos.
    + left. apply Rdiv_lt_0_compat; apply IZR_lt; lia.
    + pose proof ln2_bounds as [Hlo _]. unfold Q2R, ln2_lo in Hlo.
      cbn [Qnum Qden] in Hlo. lra.
  - intros m n Hm Hn.
    pose proof (OptimalK_brackets_grid unrepresentable) as Hgrid.
    rewrite forallb_forall in Hgrid.
    assert (Him : In m (seqZ 1 1024)) by (apply list_elem_of_In, elem_of_seqZ; lia).
    specialize (Hgrid m Him). rewrite forallb_forall in Hgrid.
    assert (Hin : In n (seqZ 1 32)) by (apply list_elem_of_In, elem_of_seqZ; lia).
    specialize (Hgrid n Hin).
    apply brackets_sound in Hgrid; [|lia|lia].
    destruct (OptimalK_error_iff unrepresentable m n) as [Herr _].
    destruct (OptimalK unrepresentable m n) as [k e]. cbn [fst snd] in *.
    rewrite Hgrid. f_equal.
    destruct e as [e|]; [|reflexivity].
    assert (m = 0 \/ n = 0) by (apply Herr; discriminate). lia.
  - apply brackets_sound; [lia|lia|]. vm_compute. reflexivity.
  - apply brackets_sound; [lia|lia|]. vm_compute. reflexivity.
Qed.

(** C6 (as stated) fails: at [m = 742795523], [n = 68648883] the product
    [(m/n) * ln 2] is 7.50000000000000013..., which rounds to 8; the
    float64 product is the float64 next below 7.5, and [OptimalK] returns
    7. *)
Lemma OptimalK_differs_from_formula :
  OptimalK Sample.unrepresentable 742795523 68648883 = (7, None)
  /\ OptimalK_formula 742795523 68648883 = 8
  /\ (F64.of_uint 742795523 / F64.of_uint 68648883 * F64.Ln2)%float
     = 0x1.dffffffffffffp+2%float.
Proof.
  split; [|split].
  - vm_compute. reflexivity.
  - apply brackets_sound; [lia|lia|]. vm_compute. reflexivity.
  - vm_compute. reflexivity.
Qed.

(** The two sizes of the tests, for every [math.Log] whose values at 0.01
    and at 0.001 are at most two units in the last place away from the
    float64 nearest to the logarithm there (the Go library's is one unit
    away at 0.01 and nearest at 0.001); and the four failing calls of the
    tests. *)
Lemma OptimalM_test_values (Log : float -> float) (unrepresentable : float -> Z) :
  In (Log 0x1.47ae147ae147bp-7%float) (within_two_ulps (-0x1.26bb1bbb55515p+2)%float) ->
  In (Log 0x1.0624dd2f1a9fcp-10%float) (within_two_ulps (-0x1.ba18a998fffa0p+2)%float) ->
  OptimalM Log unrepresentable 1000 0x1.47ae147ae147bp-7 = (9586, None)
  /\ OptimalM Log unrepresentable 1000 0x1.0624dd2f1a9fcp-10 = (14378, None)
  /\ OptimalM Log unrepresentable 0 0x1.47ae147ae147bp-7 = (0, Some ErrItems)
  /\ OptimalM Log unrepresentable 1000 0 = (0, Some ErrRate)
  /\ OptimalM Log unrepresentable 1000 1 = (0, Some ErrRate)
  /\ OptimalM Log unrepresentable 1000 (-0x1.999999999999ap-4) = (0, Some ErrRate).
Proof.
  intros H1 H2. unfold OptimalM. cbn [Z.eqb].
  split; [|split; [|repeat split]].
  - cbv [within_two_ulps In] in H1.
    destruct H1 as [<-|[<-|[<-|[<-|[<-|[]]]]]]; vm_compute; reflexivity.
  - cbv [within_two_ulps In] in H2.
    destruct H2 as [<-|[<-|[<-|[<-|[<-|[]]]]]]; vm_compute; reflexivity.
Qed.

Lemma OptimalM_test_values_witness :
  OptimalM Sample.Log Sample.unrepresentable 1000 0x1.47ae147ae147bp-7 = (9586, None)
  /\ OptimalM Sample.Log Sample.unrepresentable 1000 0x1.0624dd2f1a9fcp-10
     = (14378, None)
  /\ OptimalM Sample.Log Sample.unrepresentable 0 0x1.47ae147ae147bp-7
     = (0, Some ErrItems)
  /\ OptimalM Sample.Log Sample.unrepresentable 1000 0 = (0, Some ErrRate)
  /\ OptimalM Sample.Log Sample.unrepresentable 1000 1 = (0, Some ErrRate)
  /\ OptimalM Sample.Log Sample.unrepresentable 1000 (-0x1.999999999999ap-4)
     = (0, Some ErrRate).
Proof.
  apply (OptimalM_test_values Sample.Log Sample.unrepresentable).
  - vm_compute. right. left. reflexivity.
  - vm_compute. right. right. left. reflexivity.
Defined.

(** The Go library's logarithm at the three arguments the sample runs
    use. *)
Lemma GoMath_log_values :
  GoMath.log 0x1.47ae147ae147bp-7 = (-0x1.26bb1bbb55516p+2)%float
  /\ GoMath.log 0x1.0624dd2f1a9fcp-10 = (-0x1.ba18a998fffa0p+2)%float
  /\ GoMath.log 0x1p-1 = (- F64.Ln2)%float.
Proof. repeat split; vm_compute; reflexivity. Qed.

(** [OptimalM] fails exactly when [n] is 0 or one of the two comparisons
    [p <= 0], [p >= 1] holds. *)
Lemma OptimalM_error_iff (Log : float -> float) (unrepresentable : float -> Z)
    (n : Z) (p : float) :
  snd (OptimalM Log unrepresentable n p) <> None
  <-> (n = 0 \/ (p <=? 0)%float = true \/ (1 <=? p)%float = true).
Proof.
  unfold OptimalM. destruct (Z.eqb_spec n 0) as [->|Hn]; cbn.
  - split; [auto|discriminate].
  - destruct (p <=? 0)%float eqn:E0; cbn.
    + split; [auto|discriminate].
    + destruct (1 <=? p)%float eqn:E1; cbn.
      * split; [auto|discriminate].
      * split; [congruence|]. intros [?|[?|?]]; [lia|discriminate|discriminate].
Qed.

(** C5 (what the code does).  NaN is not inside (0, 1), and both
    comparisons of the guard are false on it: [OptimalM] returns a size and
    a nil error. *)
Theorem OptimalM_accepts_NaN (Log : float -> float) (unrepresentable : float -> Z) :
  F64.is_nan nan = true
  /\ ((0 <? nan)%float && (nan <? 1)%float = false)
  /\ OptimalM Log unrepresentable 1000 nan
     = (F64.to_uint32 unrepresentable
          (F64.Ceil (- F64.of_uint 1000 * Log nan / F64.Ln2Sq)%float), None).
Proof. repeat split. Qed.

(** For an expected count whose size does not fit a uint32 the value is
    not the ceiling of the formula but whatever the platform's conversion
    yields (here with 4294967295 items at rate one half, for a [math.Log]
    exact at one half). *)
Lemma OptimalM_size_overflows (Log : float -> float) (unrepresentable : float -> Z) :
  Log 0x1p-1%float = (- F64.Ln2)%float ->
  F64.trunc (F64.Ceil (- F64.of_uint 4294967295 * Log 0x1p-1 / F64.Ln2Sq)%float)
  = Some 6196328018
  /\ OptimalM Log unrepresentable 4294967295 0x1p-1
     = (u32 (unrepresentable 0x1.71547652p+32%float), None).
Proof.
  intros H. rewrite H.
  assert (Hm : F64.Ceil (- F64.of_uint 4294967295 * - F64.Ln2 / F64.Ln2Sq)%float
               = 0x1.71547652p+32%float) by (vm_compute; reflexivity).
  assert (Ht : F64.trunc 0x1.71547652p+32%float = Some 6196328018)
    by (vm_compute; reflexivity).
  split; [now rewrite Hm|].
  unfold OptimalM. cbn [Z.eqb]. rewrite H, Hm.
  replace ((0x1p-1 <=? 0) || (1 <=? 0x1p-1))%float with false by reflexivity.
  unfold F64.to_uint32. rewrite Ht.
  replace ((0 <=? 6196328018) && (6196328018 <? 2 ^ 32)) with false by reflexivity.
  reflexivity.
Qed.

(** ** Estimation *)

(** C9 (what the code does).  On the filter the constructor returns for a
    requested size of 0 (with the seven default hash functions) the
    fraction of set bits is 0/0: the estimate is NaN, which is neither
    0.0 nor inside [0, 1]. *)
Theorem EstimateFalsePositiveRate_zero_size_is_NaN
    (pow_other : float -> float -> float) HashSeed (decayRate : float) :
  exists s,
    NewStableBloomFilter HashSeed 0 [] decayRate Minute = Ret (s, None)
    /\ Sbf.filter s = []
    /\ F64.is_nan (EstimateFalsePositiveRate (Pow pow_other) s) = true
    /\ in_unit_interval (EstimateFalsePositiveRate (Pow pow_other) s) = false
    /\ (EstimateFalsePositiveRate (Pow pow_other) s =? 0)%float = false.
Proof.
  eexists. split; [reflexivity|]. repeat split.
Qed.

(** The three estimates of the tests, on the filter of 1024 bits with the
    default hash functions: 0.0 when no bit is set, 1.0 when every bit is
    set, and [Pow(0.5, 7)] on the alternating pattern. *)
Lemma EstimateFalsePositiveRate_test_values
    (pow_other : float -> float -> float) HashSeed :
  exists s,
    NewStableBloomFilter HashSeed 1024 [] 0 Hour = Ret (s, None)
    /\ EstimateFalsePositiveRate (Pow pow_other) s = 0%float
    /\ EstimateFalsePositiveRate (Pow pow_other)
         (Sbf.with_filter s (replicate 16 (2 ^ 64 - 1))) = 1%float
    /\ EstimateFalsePositiveRate (Pow pow_other)
         (Sbf.with_filter s (replicate 16 0xAAAAAAAAAAAAAAAA))
       = pow_other 0x1p-1%float 7%float.
Proof.
  eexists. split; [reflexivity|].
  unfold EstimateFalsePositiveRate. cbn [Sbf.filter Sbf.m Sbf.k Sbf.with_filter].
  split; [|split].
  - replace (countSetBits _) with 0 by (vm_compute; reflexivity). reflexivity.
  - replace (countSetBits _) with 1024 by (vm_compute; reflexivity). reflexivity.
  - replace (countSetBits _) with 512 by (vm_compute; reflexivity). reflexivity.
Qed.

(** ** The read-modify-write primitive loses no update *)

Lemma settled_step (ns : list Z) (w : Z) (gs : list Race.goroutine)
    (t : nat) (g : Race.goroutine) :
  Forall (fun n => 0 <= n < 64) ns ->
  settled ns w gs -> gs !! t = Some g ->
  settled ns (fst (Race.step_OrUint64 w g))
    (<[t := snd (Race.step_OrUint64 w g)]> gs).
Proof.
  intros Hns [Hlen Hall] Hg. split; [now rewrite length_insert|].
  pose proof (lookup_lt_Some _ _ _ Hg) as Hlt.
  assert (Hgn : exists n, ns !! t = Some n).
  { apply lookup_lt_is_Some_2. lia. }
  destruct Hgn as [nt Hnt].
  assert (Hrange : forall t' n', ns !! t' = Some n' -> 0 <= n' < 64).
  { intros t' n' H'. rewrite Forall_lookup in Hns. exact (Hns _ _ H'). }
  destruct (Hall t nt Hnt) as [Hc|[Hr Hbit]].
  - rewrite Hc in Hg. injection Hg as <-. cbn.
    intros t' n' Hn'. destruct (decide (t = t')) as [<-|Hne].
    + right. rewrite list_lookup_insert_eq by lia. split; [reflexivity|].
      rewrite Hnt in Hn'. injection Hn' as <-.
      pose proof (Hrange _ _ Hnt).
      rewrite Z.lor_spec, testbit_shl1 by lia. rewrite Z.eqb_refl.
      apply orb_true_r.
    + rewrite list_lookup_insert_ne by assumption.
      destruct (Hall t' n' Hn') as [?|[? Hb]]; [now left|right].
      split; [assumption|]. rewrite Z.lor_spec, Hb. reflexivity.
  - rewrite Hr in Hg. injection Hg as <-. cbn.
    rewrite list_insert_id by assumption. assumption.
Qed.

Lemma settled_run (ns : list Z) (sched : list nat) :
  Forall (fun n => 0 <= n < 64) ns ->
  forall w gs,
    settled ns w gs ->
    settled ns (fst (Race.run Race.step_OrUint64 sched w gs))
      (snd (Race.run Race.step_OrUint64 sched w gs)).
Proof.
  intros Hns. induction sched as [|t sched IH]; intros w gs Hs; [exact Hs|].
  cbn [Race.run]. destruct (gs !! t) as [g|] eqn:Hg; [|now apply IH].
  pose proof (settled_step ns w gs t g Hns Hs Hg) as Hstep.
  destruct (Race.step_OrUint64 w g) as [w' g']. now apply IH.
Qed.

(** With [atomic.OrUint64] in place of [*addr |= mask], under every
    schedule every caller that has returned finds its bit set. *)
Lemma OrUint64_loses_no_update (ns : list Z) (sched : list nat) (w : Z) :
  Forall (fun n => 0 <= n < 64) ns ->
  forall t n,
    ns !! t = Some n ->
    snd (Race.run Race.step_OrUint64 sched w (map Race.Called ns)) !! t
    = Some Race.Returned ->
    Z.testbit (fst (Race.run Race.step_OrUint64 sched w (map Race.Called ns))) n
    = true.
Proof.
  intros Hns t n Hn Hret.
  destruct (settled_run ns sched Hns w (map Race.Called ns)) as [_ Hall].
  - split; [apply length_map|]. intros t' n' Hn'. left.
    change (map Race.Called ns) with (Race.Called <$> ns).
    now rewrite list_lookup_fmap, Hn'.
  - destruct (Hall t n Hn) as [Hc|[_ Hb]]; [congruence|exact Hb].
Qed.

(** ** Further properties of the bit array and of teardown *)

(** A bit that has been set reads as set, and setting a bit changes no
    other bit of the word. *)
Theorem atomicGetBit_after_atomicSetBit (w n n' : Z) :
  0 <= n < 64 -> 0 <= n' < 64 ->
  atomicGetBit (atomicSetBit w n) n = true
  /\ (n' <> n -> atomicGetBit (atomicSetBit w n) n' = atomicGetBit w n').
Proof.
  intros Hn Hn'. rewrite !atomicGetBit_testbit by lia.
  rewrite !atomicSetBit_testbit by lia. rewrite Z.eqb_refl, orb_true_r.
  split; [reflexivity|]. intros Hne.
  destruct (Z.eqb_spec n n') as [E|_]; [congruence|apply orb_false_r].
Qed.

Lemma atomicGetBit_after_atomicSetBit_witness :
  atomicGetBit (atomicSetBit 5 3) 3 = true
  /\ (0 <> 3 -> atomicGetBit (atomicSetBit 5 3) 0 = atomicGetBit 5 0).
Proof. apply (atomicGetBit_after_atomicSetBit 5 3 0); lia. Defined.

(** On a usable filter [hashIndex] returns, for each of the [k] hash
    functions, an index below the size. *)
Theorem hashIndex_in_range (s : Sbf.t) (data : list Byte.byte) (i : Z) :
  wf s -> 0 <= i < Sbf.k s ->
  exists idx, hashIndex s data i = Ret idx /\ 0 <= idx < Sbf.m s.
Proof.
  intros Hwf Hi. destruct (hashIndex_wf s data i Hwf Hi) as (h & _ & Hidx).
  exists (index s h data). split; [exact Hidx|]. now apply index_range.
Qed.

Lemma hashIndex_in_range_witness :
  exists idx, hashIndex sample_filter Sample.ab 1 = Ret idx
              /\ 0 <= idx < Sbf.m sample_filter.
Proof.
  apply (hashIndex_in_range sample_filter Sample.ab 1).
  - wf_by_computation.
  - cbn. lia.
Defined.

Lemma with_filter_same (s : Sbf.t) : Sbf.with_filter s (Sbf.filter s) = s.
Proof. now destruct s. Qed.

Lemma atomicSetBit_set (w n : Z) :
  0 <= n < 64 -> Z.testbit w n = true -> atomicSetBit w n = w.
Proof.
  intros Hn Hbit. apply Z.bits_inj'. intros i Hi.
  rewrite atomicSetBit_testbit by lia.
  destruct (Z.eqb_spec n i) as [<-|_]; [now rewrite Hbit|apply orb_false_r].
Qed.

(** The loop of [Add] over rounds whose bits are all set leaves the
    filter as it is. *)
Lemma Add_loop_all_set data idxs (s : Sbf.t) :
  wf s -> Forall (fun i => 0 <= i < Sbf.k s) idxs ->
  (forall i h, In i idxs -> Sbf.hashFuncs s !! Z.to_nat i = Some h ->
               bitAt (Sbf.filter s) (index s h data) = true) ->
  Add_loop data s idxs = Ret s.
Proof.
  intros Hwf. induction idxs as [|i idxs IH]; intros Hall Hset; [reflexivity|].
  inversion Hall as [|? ? Hi Hrest]; subst.
  destruct (hashIndex_wf s data i Hwf Hi) as (h & Hh & Hidx).
  pose proof (index_range s h data Hwf) as Hr.
  destruct (bucket_in_range s _ Hwf Hr) as [Hb Hbit].
  destruct (lookup_lt_is_Some_2 _ _ Hb) as [w Hw].
  pose proof (Hset i h (or_introl eq_refl) Hh) as Hone.
  unfold bitAt in Hone. rewrite Hw in Hone.
  cbn [Add_loop]. unfold Add_round. rewrite Hidx.
  cbn [mbind outcome_bind obind]. rewrite Hw.
  rewrite atomicSetBit_set by assumption.
  rewrite list_insert_id by assumption. rewrite with_filter_same.
  cbn [mbind outcome_bind obind]. apply IH; [assumption|].
  intros i' h' Hin. apply Hset. now right.
Qed.

(** [Add] is idempotent: adding an element again leaves the filter as the
    first [Add] left it. *)
Theorem Add_idempotent (s : Sbf.t) (data : list Byte.byte) :
  wf s -> exists s1, Add s data = Ret s1 /\ Add s1 data = Ret s1.
Proof.
  intros Hwf.
  destruct (Add_loop_wf data (seqZ 0 (Sbf.k s)) s Hwf (seqZ_range _))
    as (s1 & Hadd & Hwf1 & (Em & Ek & Eh & _) & Hset & _).
  exists s1. split; [exact Hadd|]. unfold Add.
  apply Add_loop_all_set; [assumption|apply seqZ_range|].
  intros i h Hin Hh. rewrite Ek in Hin. rewrite Eh in Hh.
  specialize (Hset i h Hin Hh). unfold index in *. now rewrite Em.
Qed.

Lemma Add_idempotent_witness :
  exists s1, Add sample_filter Sample.ab = Ret s1 /\ Add s1 Sample.ab = Ret s1.
Proof.
  apply (Add_idempotent sample_filter Sample.ab). wf_by_computation.
Defined.

(** A decay cycle on a usable filter returns and leaves every word 0,
    whatever the decay rate, 1.0 included: afterwards [Check] returns
    false for every element. *)
Theorem decay_clears_every_word (NumCPU : Z) (newRand : Z -> Rand)
    (s : Sbf.t) (data : list Byte.byte) :
  wf s -> 0 < NumCPU -> 0 < Sbf.k s ->
  exists s',
    decay NumCPU newRand s = Ret s'
    /\ Sbf.filter s' = replicate (length (Sbf.filter s)) 0
    /\ Check s' data = Ret false.
Proof.
  intros Hwf Hcpu Hk.
  destruct (decay_clears NumCPU newRand Hcpu s Hwf)
    as (s' & Hdecay & Hwf' & (_ & Ek & _) & Hzero).
  exists s'. split; [exact Hdecay|]. split.
  - assert (Hlen : length (Sbf.filter s') = length (Sbf.filter s)).
    { pose proof (wf_len s Hwf). pose proof (wf_len s' Hwf').
      pose proof (wf_buckets s Hwf). pose proof (wf_buckets s' Hwf').
      unfold decay in Hdecay. destruct (NumCPU =? 0); [discriminate|].
      destruct (decayWorkers _ _ _ _ _ _ _) in Hdecay; try discriminate.
      cbn in Hdecay. injection Hdecay as <-. cbn in *. lia. }
    apply list_eq. intros n. rewrite <- Hlen.
    destruct (Sbf.filter s' !! n) as [w|] eqn:E.
    + rewrite (Hzero _ _ E). symmetry. apply lookup_replicate_2.
      now apply lookup_lt_Some in E.
    + symmetry. apply lookup_replicate_None. now apply lookup_ge_None in E.
  - apply Check_all_zero; [assumption|lia|assumption].
Qed.

Lemma decay_clears_every_word_witness :
  exists s',
    decay 4 halves (Sbf.with_filter sample_filter [5; 2 ^ 64 - 1]) = Ret s'
    /\ Sbf.filter s' = replicate 2 0
    /\ Check s' Sample.ab = Ret false.
Proof.
  apply (decay_clears_every_word 4 halves
           (Sbf.with_filter sample_filter [5; 2 ^ 64 - 1]) Sample.ab).
  - wf_by_computation.
  - lia.
  - reflexivity.
Defined.

(** ** What [Add] changes *)

Lemma with_filter_twice (s : Sbf.t) (f g : list Z) :
  Sbf.with_filter (Sbf.with_filter s f) g = Sbf.with_filter s g.
Proof. reflexivity. Qed.

Lemma same_position (j idx : Z) :
  0 <= j -> 0 <= idx ->
  (Z.to_nat (idx / 64) = Z.to_nat (j / 64) /\ idx mod 64 = j mod 64) <-> j = idx.
Proof.
  intros Hj Hidx. split; [|intros ->; split; reflexivity].
  intros [Hq Hr].
  assert (0 <= j / 64) by (apply Z.div_pos; lia).
  assert (0 <= idx / 64) by (apply Z.div_pos; lia).
  rewrite (Z.div_mod j 64), (Z.div_mod idx 64) by lia. lia.
Qed.

(** One round of [Add] sets the bit of its index and changes no other. *)
Lemma Add_round_exact s data i :
  wf s -> 0 <= i < Sbf.k s ->
  exists s' h,
    Sbf.hashFuncs s !! Z.to_nat i = Some h
    /\ Add_round data s i = Ret s'
    /\ wf s' /\ s' = Sbf.with_filter s (Sbf.filter s')
    /\ (forall j, 0 <= j ->
          bitAt (Sbf.filter s') j = bitAt (Sbf.filter s) j || (j =? index s h data)).
Proof.
  intros Hwf Hi.
  destruct (Add_round_wf s data i Hwf Hi) as (s' & h & Hh & Hround & Hwf' & _).
  exists s', h. split; [exact Hh|]. split; [exact Hround|]. split; [exact Hwf'|].
  destruct (hashIndex_wf s data i Hwf Hi) as (h0 & Hh0 & Hidx).
  rewrite Hh in Hh0. injection Hh0 as <-.
  pose proof (index_range s h data Hwf) as Hr.
  destruct (bucket_in_range s _ Hwf Hr) as [Hb Hbit].
  destruct (lookup_lt_is_Some_2 _ _ Hb) as [w Hw].
  unfold Add_round in Hround. rewrite Hidx in Hround.
  cbn [mbind outcome_bind obind] in Hround. rewrite Hw in Hround.
  injection Hround as <-. split; [reflexivity|].
  intros j Hj. cbn [Sbf.filter Sbf.with_filter].
  rewrite bitAt_insert by assumption.
  destruct (decide (Z.to_nat (index s h data / 64) = Z.to_nat (j / 64))) as [E|E].
  - rewrite atomicSetBit_testbit; [|lia|apply Z.mod_pos_bound; lia].
    unfold bitAt at 1. rewrite <- E, Hw. f_equal.
    destruct (Z.eqb_spec (index s h data mod 64) (j mod 64)) as [Er|Er];
      destruct (Z.eqb_spec j (index s h data)) as [Ej|Ej]; try reflexivity.
    + exfalso. apply Ej. apply same_position; [lia|lia|]. now split.
    + exfalso. apply Er. now rewrite Ej.
  - destruct (Z.eqb_spec j (index s h data)) as [Ej|Ej].
    + exfalso. apply E. now rewrite Ej.
    + now rewrite orb_false_r.
Qed.

(** The loop of [Add] over rounds [idxs] sets the bits of those rounds
    and changes no other. *)
Lemma Add_loop_exact data idxs : forall s,
  wf s -> Forall (fun i => 0 <= i < Sbf.k s) idxs ->
  exists s',
    Add_loop data s idxs = Ret s' /\ wf s'
    /\ s' = Sbf.with_filter s (Sbf.filter s')
    /\ (forall j, 0 <= j ->
          (bitAt (Sbf.filter s') j = true <->
           bitAt (Sbf.filter s) j = true
           \/ exists i h, In i idxs /\ Sbf.hashFuncs s !! Z.to_nat i = Some h
                          /\ j = index s h data)).
Proof.
  induction idxs as [|i idxs IH]; intros s Hwf Hall.
  - exists s. cbn. split; [reflexivity|]. split; [assumption|].
    split; [now rewrite with_filter_same|].
    intros j Hj. split; [auto|]. intros [H|(i & h & [] & _)]. exact H.
  - inversion Hall as [|? ? Hi Hrest]; subst.
    destruct (Add_round_exact s data i Hwf Hi)
      as (s1 & h & Hh & Hround & Hwf1 & Hs1 & Hbits1).
    assert (Ecfg : Sbf.k s1 = Sbf.k s /\ Sbf.hashFuncs s1 = Sbf.hashFuncs s
                   /\ Sbf.m s1 = Sbf.m s) by (rewrite Hs1; repeat split).
    destruct Ecfg as (Ek & Eh & Em).
    destruct (IH s1 Hwf1) as (s' & Hloop & Hwf' & Hs' & Hbits').
    { rewrite Ek. assumption. }
    exists s'. cbn [Add_loop]. rewrite Hround. cbn [mbind outcome_bind obind].
    split; [exact Hloop|]. split; [assumption|]. split.
    + rewrite Hs' at 1. rewrite Hs1. apply with_filter_twice.
    + intros j Hj. rewrite Hbits' by assumption. rewrite Hbits1 by assumption.
      rewrite orb_true_iff, Z.eqb_eq. rewrite Eh. unfold index. rewrite Em.
      split.
      * intros [[H|H]|(i' & h' & Hin & Hh' & Hj')].
        -- now left.
        -- right. exists i, h. split; [now left|]. split; assumption.
        -- right. exists i', h'. split; [now right|]. split; assumption.
      * intros [H|(i' & h' & [<-|Hin] & Hh' & Hj')].
        -- left. now left.
        -- left. right. rewrite Hh in Hh'. injection Hh' as <-. exact Hj'.
        -- right. exists i', h'. split; [assumption|]. split; assumption.
Qed.

(** [Add] returns a filter that differs from the one it was given in the
    bit array only, and there exactly in the bits at the element's [k]
    indices, which are set; no other bit changes. *)
Theorem Add_sets_exactly_its_bits (s : Sbf.t) (data : list Byte.byte) :
  wf s ->
  exists s',
    Add s data = Ret s'
    /\ s' = Sbf.with_filter s (Sbf.filter s')
    /\ length (Sbf.filter s') = length (Sbf.filter s)
    /\ (forall j, 0 <= j ->
          (bitAt (Sbf.filter s') j = true <->
           bitAt (Sbf.filter s) j = true \/ hits s data j)).
Proof.
  intros Hwf.
  destruct (Add_loop_exact data (seqZ 0 (Sbf.k s)) s Hwf (seqZ_range _))
    as (s' & Hadd & Hwf' & Hs' & Hbits).
  exists s'. split; [exact Hadd|]. split; [exact Hs'|]. split.
  - pose proof (wf_len s Hwf) as H1. pose proof (wf_len s' Hwf') as H2.
    rewrite Hs' in H2 at 2. cbn in H2. lia.
  - intros j Hj. rewrite (Hbits j Hj). unfold hits. split.
    + intros [H|(i & h & Hin & Hh & E)]; [now left|right].
      exists i, h. split; [|split; assumption].
      apply list_elem_of_In, elem_of_seqZ in Hin. lia.
    + intros [H|(i & h & Hi & Hh & E)]; [now left|right].
      exists i, h. split; [|split; assumption].
      apply list_elem_of_In, elem_of_seqZ. lia.
Qed.

Lemma Add_sets_exactly_its_bits_witness :
  exists s',
    Add sample_filter Sample.ab = Ret s'
    /\ s' = Sbf.with_filter sample_filter (Sbf.filter s')
    /\ length (Sbf.filter s') = length (Sbf.filter sample_filter)
    /\ (forall j, 0 <= j ->
          (bitAt (Sbf.filter s') j = true <->
           bitAt (Sbf.filter sample_filter) j = true \/ hits sample_filter Sample.ab j)).
Proof.
  apply (Add_sets_exactly_its_bits sample_filter Sample.ab). wf_by_computation.
Defined.

Lemma hits_with_filter (s : Sbf.t) (f : list Z) (data : list Byte.byte) (j : Z) :
  hits (Sbf.with_filter s f) data j <-> hits s data j.
Proof. reflexivity. Qed.

(** Two bit arrays of the same length, made of 64-bit words, that agree
    on every bit are the same list of words. *)
Lemma filter_ext (f g : list Z) :
  length f = length g -> Forall is_word f -> Forall is_word g ->
  (forall j, 0 <= j -> bitAt f j = bitAt g j) -> f = g.
Proof.
  intros Hlen Hf Hg Hbits. apply list_eq. intros n.
  destruct (f !! n) as [w|] eqn:Ew.
  - pose proof (lookup_lt_Some _ _ _ Ew) as Hn.
    destruct (lookup_lt_is_Some_2 g n) as [w' Ew']; [lia|].
    rewrite Ew'. f_equal.
    rewrite Forall_lookup in Hf. pose proof (Hf _ _ Ew) as Hw.
    rewrite Forall_lookup in Hg. pose proof (Hg _ _ Ew') as Hw'.
    apply word_range_bits in Hw as [_ Hhi]. apply word_range_bits in Hw' as [_ Hhi'].
    apply Z.bits_inj'. intros i Hi.
    destruct (Z_lt_le_dec i 64) as [Hlt|Hge]; [|now rewrite Hhi, Hhi' by lia].
    specialize (Hbits (64 * Z.of_nat n + i) ltac:(lia)).
    unfold bitAt in Hbits.
    replace ((64 * Z.of_nat n + i) / 64) with (Z.of_nat n) in Hbits
      by (apply (Z.div_unique _ 64 _ i); lia).
    replace ((64 * Z.of_nat n + i) mod 64) with i in Hbits
      by (apply (Z.mod_unique _ 64 (Z.of_nat n) i); lia).
    rewrite Nat2Z.id, Ew, Ew' in Hbits. exact Hbits.
  - symmetry. apply lookup_ge_None. apply lookup_ge_None in Ew. lia.
Qed.

(** The bits of a usable filter after [Add], as a lemma to compose. *)
Lemma Add_bits (s : Sbf.t) (data : list Byte.byte) :
  wf s ->
  exists s',
    Add s data = Ret s' /\ wf s'
    /\ s' = Sbf.with_filter s (Sbf.filter s')
    /\ (forall j, 0 <= j ->
          (bitAt (Sbf.filter s') j = true <->
           bitAt (Sbf.filter s) j = true \/ hits s data j)).
Proof.
  intros Hwf.
  destruct (Add_loop_exact data (seqZ 0 (Sbf.k s)) s Hwf (seqZ_range _))
    as (s' & Hadd & Hwf' & Hs' & Hbits).
  exists s'. split; [exact Hadd|]. split; [exact Hwf'|]. split; [exact Hs'|].
  intros j Hj. rewrite (Hbits j Hj). unfold hits. split.
  - intros [H|(i & h & Hin & Hh & E)]; [now left|right].
    exists i, h. split; [|split; assumption].
    apply list_elem_of_In, elem_of_seqZ in Hin. lia.
  - intros [H|(i & h & Hi & Hh & E)]; [now left|right].
    exists i, h. split; [|split; assumption].
    apply list_elem_of_In, elem_of_seqZ. lia.
Qed.



(** After [StopDecay] has returned, the ticker is stopped, the stop
    channel closed and the wait group at 0; the configuration of the
    filter is as before; and [Add] and [Check] go on as on any usable
    filter: [Add] sets exactly the [k] bits of the element, and [Check] of
    the element just added returns true. *)
Theorem Add_and_Check_after_StopDecay (s : Sbf.t) (data : list Byte.byte) :
  wf s -> Sbf.stopChanClosed s = false ->
  exists s1,
    StopDecay s = Ret s1
    /\ Sbf.tickerRunning s1 = false /\ Sbf.stopChanClosed s1 = true
    /\ Sbf.wgCount s1 = 0
    /\ same_config s s1 /\ wf s1
    /\ exists s2,
         Add s1 data = Ret s2 /\ wf s2
         /\ s2 = Sbf.with_filter s1 (Sbf.filter s2)
         /\ (forall j, 0 <= j ->
               (bitAt (Sbf.filter s2) j = true <->
                bitAt (Sbf.filter s1) j = true \/ hits s1 data j))
         /\ Check s2 data = Ret true.
Proof.
  intros Hwf Hopen. unfold StopDecay. cbn. rewrite Hopen. cbn.
  eexists. split; [reflexivity|]. cbn.
  split; [reflexivity|]. split; [reflexivity|]. split; [reflexivity|].
  split; [repeat split|].
  assert (Hwf1 : wf (Sbf.mk (Sbf.m s) (Sbf.k s) (Sbf.decayRate s) (Sbf.filter s)
                       (Sbf.numBuckets s) (Sbf.hashFuncs s) false true 0)).
  { destruct Hwf. constructor; assumption. }
  split; [exact Hwf1|].
  destruct (Add_bits _ data Hwf1) as (s2 & Hadd & Hwf2 & Hs2 & Hbits).
  destruct (Add_then_Check _ data Hwf1) as (s2' & Hadd' & _ & _ & Hcheck).
  rewrite Hadd in Hadd'. injection Hadd' as <-.
  exists s2. split; [exact Hadd|]. split; [exact Hwf2|]. split; [exact Hs2|].
  split; [exact Hbits|exact Hcheck].
Qed.

Lemma Add_and_Check_after_StopDecay_witness :
  exists s1,
    StopDecay sample_filter = Ret s1
    /\ Sbf.tickerRunning s1 = false /\ Sbf.stopChanClosed s1 = true
    /\ Sbf.wgCount s1 = 0
    /\ same_config sample_filter s1 /\ wf s1
    /\ exists s2,
         Add s1 Sample.ab = Ret s2 /\ wf s2
         /\ s2 = Sbf.with_filter s1 (Sbf.filter s2)
         /\ (forall j, 0 <= j ->
               (bitAt (Sbf.filter s2) j = true <->
                bitAt (Sbf.filter s1) j = true \/ hits s1 Sample.ab j))
         /\ Check s2 Sample.ab = Ret true.
Proof.
  apply (Add_and_Check_after_StopDecay sample_filter Sample.ab).
  - wf_by_computation.
  - reflexivity.
Defined.

Lemma bool_eq_iff (a b : bool) : (a = true <-> b = true) -> a = b.
Proof. destruct a, b; intros [H1 H2]; auto. symmetry; auto. Qed.

(** [Add] commutes: adding two elements in either order leaves the same
    filter. *)
Theorem Add_commutes (s : Sbf.t) (a b : list Byte.byte) :
  wf s ->
  exists s1 t1 s2,
    Add s a = Ret s1 /\ Add s1 b = Ret s2
    /\ Add s b = Ret t1 /\ Add t1 a = Ret s2.
Proof.
  intros Hwf.
  destruct (Add_bits s a Hwf) as (s1 & Ha & Hwf1 & Hs1 & Hb1).
  destruct (Add_bits s1 b Hwf1) as (s2 & Hab & Hwf2 & Hs2 & Hb2).
  destruct (Add_bits s b Hwf) as (t1 & Hb & Hwft1 & Ht1 & Hbt1).
  destruct (Add_bits t1 a Hwft1) as (t2 & Hba & Hwft2 & Ht2 & Hbt2).
  exists s1, t1, s2. split; [exact Ha|]. split; [exact Hab|]. split; [exact Hb|].
  rewrite Hba. f_equal.
  rewrite Hs1 in Hs2. rewrite with_filter_twice in Hs2.
  rewrite Ht1 in Ht2. rewrite with_filter_twice in Ht2.
  rewrite Hs2, Ht2. f_equal.
  apply filter_ext.
  - pose proof (wf_len _ Hwf2) as L2. pose proof (wf_len _ Hwft2) as L2'.
    rewrite Hs2 in L2 at 2. rewrite Ht2 in L2' at 2. cbn in L2, L2'. lia.
  - exact (wf_words _ Hwft2).
  - exact (wf_words _ Hwf2).
  - intros j Hj. apply bool_eq_iff.
    rewrite (Hbt2 j Hj), (Hbt1 j Hj), (Hb2 j Hj), (Hb1 j Hj).
    rewrite Hs1, Ht1, !hits_with_filter. tauto.
Qed.

Lemma Add_commutes_witness :
  exists s1 t1 s2,
    Add sample_filter Sample.ab = Ret s1 /\ Add s1 [Byte.x63] = Ret s2
    /\ Add sample_filter [Byte.x63] = Ret t1 /\ Add t1 Sample.ab = Ret s2.
Proof.
  apply (Add_commutes sample_filter Sample.ab [Byte.x63]). wf_by_computation.
Defined.

(** No false negative from a later [Add]: a [Check] that returns true
    still returns true after any element has been added. *)
Theorem Check_true_survives_Add (s : Sbf.t) (data other : list Byte.byte) :
  wf s -> Check s data = Ret true ->
  exists s', Add s other = Ret s' /\ Check s' data = Ret true.
Proof.
  intros Hwf Hcheck.
  destruct (Add_loop_wf other (seqZ 0 (Sbf.k s)) s Hwf (seqZ_range _))
    as (s' & Hadd & Hwf' & (Em & Ek & Eh & _) & _ & Hmono).
  exists s'. split; [exact Hadd|].
  destruct (Check_returns s data Hwf) as (b & Hb & Hiff).
  rewrite Hcheck in Hb. injection Hb as <-.
  destruct (Check_returns s' data Hwf') as (b' & Hb' & Hiff').
  rewrite Hb'. f_equal. apply Hiff'. intros i h Hi Hh.
  rewrite Ek in Hi. rewrite Eh in Hh. rewrite Em.
  apply Hmono; [|now apply (proj1 Hiff eq_refl i h)].
  apply Z.mod_pos_bound. pose proof (wf_m s Hwf). lia.
Qed.

Lemma Check_true_survives_Add_witness :
  exists s',
    Add (Sbf.with_filter sample_filter [68; 0]) [Byte.x63] = Ret s'
    /\ Check s' Sample.ab = Ret true.
Proof.
  apply (Check_true_survives_Add (Sbf.with_filter sample_filter [68; 0])
           Sample.ab [Byte.x63]).
  - wf_by_computation.
  - vm_compute. reflexivity.
Defined.

(** ** A filter as constructed *)

(** A filter just constructed holds nothing: for a requested size from 1
    to 2^32 - 64, fewer than 2^32 hash functions and a positive interval,
    the constructor returns a usable filter with no bit set, on which
    [Check] returns false for every element. *)
Theorem new_filter_is_empty HashSeed (m : Z) (hashFuncs : list Hash64)
    (decayRate : float) (decayInterval : Duration) :
  1 <= m <= 2 ^ 32 - 64 -> Z.of_nat (length hashFuncs) < 2 ^ 32 ->
  0 < decayInterval ->
  exists s,
    NewStableBloomFilter HashSeed m hashFuncs decayRate decayInterval = Ret (s, None)
    /\ wf s
    /\ (forall j, bitAt (Sbf.filter s) j = false)
    /\ (forall data, Check s data = Ret false).
Proof.
  intros Hm Hlen Hd.
  destruct (NewStableBloomFilter_returns HashSeed m hashFuncs decayRate _ Hd)
    as (s & Hs & Em & _ & Ef & _ & _ & Ek & Eh).
  exists s. split; [exact Hs|].
  destruct (roundedSize_in_range m ltac:(lia)) as [Hr _].
  assert (Hwf : wf s).
  { apply (NewStableBloomFilter_wf HashSeed m hashFuncs decayRate decayInterval s None);
      [lia|exact Hs|lia]. }
  assert (Hzero : forall n w, Sbf.filter s !! n = Some w -> w = 0).
  { intros n w Hn. rewrite Ef in Hn. apply lookup_replicate in Hn. tauto. }
  split; [exact Hwf|]. split.
  - intros j. now apply bitAt_all_zero.
  - intros data. apply Check_all_zero; [exact Hwf| |exact Hzero].
    pose proof (default_hashFuncs_length HashSeed hashFuncs Hlen) as Hk.
    rewrite <- Eh, <- Ek in Hk. exact Hk.
Qed.

Lemma new_filter_is_empty_witness :
  exists s,
    NewStableBloomFilter Sample.HashSeed 100 Sample.hashes 0x1p-1 Minute = Ret (s, None)
    /\ wf s
    /\ (forall j, bitAt (Sbf.filter s) j = false)
    /\ (forall data, Check s data = Ret false).
Proof.
  apply (new_filter_is_empty Sample.HashSeed 100 Sample.hashes 0x1p-1 Minute).
  - lia.
  - vm_compute. reflexivity.
  - reflexivity.
Defined.

(** ** Counting the set bits *)

Lemma b2z_sum_bounds (x : Z) (l : list nat) :
  0 <= fold_right (fun i acc => Z.b2z (Z.testbit x (Z.of_nat i)) + acc) 0 l
  <= Z.of_nat (length l).
Proof.
  induction l as [|i l IH]; cbn [fold_right length]; [lia|].
  destruct (Z.testbit x (Z.of_nat i)); cbn [Z.b2z]; lia.
Qed.

Lemma OnesCount64_bounds (x : Z) : 0 <= OnesCount64 x <= 64.
Proof.
  unfold OnesCount64. pose proof (b2z_sum_bounds x (seq 0 64)) as H.
  rewrite length_seq in H. exact H.
Qed.

Lemma setBits_bounds (filter : list Z) :
  0 <= setBits filter <= 64 * Z.of_nat (length filter).
Proof.
  induction filter as [|w f IH]; cbn [setBits fold_right length]; [lia|].
  fold (setBits f). pose proof (OnesCount64_bounds w). lia.
Qed.

Lemma countSetBits_from (filter : list Z) : forall acc,
  0 <= acc -> acc + setBits filter < 2 ^ 32 ->
  fold_left (fun bitsSet bucket => u32 (bitsSet + u32 (OnesCount64 bucket))) filter acc
  = acc + setBits filter.
Proof.
  induction filter as [|w f IH]; intros acc Hacc Hsum; cbn [fold_left setBits fold_right].
  - lia.
  - fold (setBits f) in *. cbn [setBits fold_right] in Hsum. fold (setBits f) in Hsum.
    pose proof (OnesCount64_bounds w) as Hw. pose proof (setBits_bounds f) as Hf.
    rewrite (u32_small (OnesCount64 w)) by lia.
    rewrite (u32_small (acc + OnesCount64 w)) by lia.
    rewrite IH by lia. lia.
Qed.

(** On a usable filter the uint32 counter of [EstimateFalsePositiveRate]
    never wraps: it is the number of set bits, and at most the size. *)
Theorem countSetBits_exact (s : Sbf.t) :
  wf s ->
  countSetBits (Sbf.filter s) = setBits (Sbf.filter s)
  /\ 0 <= countSetBits (Sbf.filter s) <= Sbf.m s.
Proof.
  intros Hwf. pose proof (setBits_bounds (Sbf.filter s)) as Hb.
  pose proof (wf_len s Hwf) as Hlen. pose proof (wf_buckets s Hwf) as Hnb.
  pose proof (wf_m64 s Hwf) as H64. pose proof (wf_m s Hwf) as Hm.
  assert (E : 64 * Z.of_nat (length (Sbf.filter s)) = Sbf.m s).
  { rewrite Hlen, Hnb. symmetry. apply Z_div_exact_full_2; lia. }
  unfold countSetBits. rewrite countSetBits_from by lia. lia.
Qed.

Lemma countSetBits_exact_witness :
  countSetBits (Sbf.filter (Sbf.with_filter sample_filter [68; 2 ^ 64 - 1]))
  = setBits (Sbf.filter (Sbf.with_filter sample_filter [68; 2 ^ 64 - 1]))
  /\ 0 <= countSetBits (Sbf.filter (Sbf.with_filter sample_filter [68; 2 ^ 64 - 1]))
     <= Sbf.m (Sbf.with_filter sample_filter [68; 2 ^ 64 - 1]).
Proof.
  apply (countSetBits_exact (Sbf.with_filter sample_filter [68; 2 ^ 64 - 1])).
  wf_by_computation.
Defined.

Lemma b2z_sum_set (w n : Z) (len : nat) : forall a : nat,
  0 <= n < 64 ->
  fold_right (fun i acc => Z.b2z (Z.testbit (atomicSetBit w n) (Z.of_nat i)) + acc)
    0 (seq a len)
  = fold_right (fun i acc => Z.b2z (Z.testbit w (Z.of_nat i)) + acc) 0 (seq a len)
    + (if (Z.of_nat a <=? n) && (n <? Z.of_nat a + Z.of_nat len)
       then 1 - Z.b2z (Z.testbit w n) else 0).
Proof.
  induction len as [|len IH]; intros a Hn; cbn [seq fold_right].
  - destruct ((Z.of_nat a <=? n) && (n <? Z.of_nat a + Z.of_nat 0)) eqn:E; [|lia].
    apply andb_true_iff in E as [E1 E2].
    apply Z.leb_le in E1. apply Z.ltb_lt in E2. lia.
  - rewrite IH by assumption. rewrite atomicSetBit_testbit by lia.
    destruct (Z.eqb_spec n (Z.of_nat a)) as [E|E].
    + rewrite <- E. rewrite orb_true_r.
      destruct (Z.leb_spec (Z.of_nat (S a)) n); [lia|].
      destruct (Z.leb_spec n n); [|lia].
      destruct (Z.ltb_spec n (n + Z.of_nat (S len))); [|lia].
      cbn [andb]. destruct (Z.testbit w n); cbn [Z.b2z]; lia.
    + rewrite orb_false_r.
      destruct (Z.leb_spec (Z.of_nat (S a)) n); destruct (Z.leb_spec (Z.of_nat a) n);
        destruct (Z.ltb_spec n (Z.of_nat (S a) + Z.of_nat len));
        destruct (Z.ltb_spec n (Z.of_nat a + Z.of_nat (S len)));
        cbn [andb]; lia.
Qed.

(** Setting a bit of a word raises its population count by one when the
    bit was clear, and leaves it when the bit was set. *)
Lemma OnesCount64_atomicSetBit (w n : Z) :
  0 <= n < 64 ->
  OnesCount64 (atomicSetBit w n)
  = OnesCount64 w + (if Z.testbit w n then 0 else 1).
Proof.
  intros Hn. unfold OnesCount64. rewrite b2z_sum_set by assumption.
  destruct (Z.leb_spec (Z.of_nat 0) n); [|lia].
  destruct (Z.ltb_spec n (Z.of_nat 0 + Z.of_nat 64)); [|lia].
  cbn [andb]. destruct (Z.testbit w n); cbn [Z.b2z]; lia.
Qed.

Lemma setBits_insert (w' : Z) (f : list Z) : forall (b : nat) (w : Z),
  f !! b = Some w ->
  setBits (<[b := w']> f) = setBits f - OnesCount64 w + OnesCount64 w'.
Proof.
  induction f as [|x f IH]; intros b w Hb; [discriminate|].
  destruct b as [|b]; cbn in Hb.
  - injection Hb as ->. cbn [setBits fold_right]. cbn. lia.
  - change (<[S b := w']> (x :: f)) with (x :: <[b := w']> f).
    cbn [setBits fold_right]. fold (setBits f). fold (setBits (<[b := w']> f)).
    rewrite (IH b w Hb). lia.
Qed.

Lemma Add_round_setBits s data i :
  wf s -> 0 <= i < Sbf.k s ->
  exists s',
    Add_round data s i = Ret s' /\ wf s' /\ Sbf.k s' = Sbf.k s
    /\ setBits (Sbf.filter s) <= setBits (Sbf.filter s')
       <= setBits (Sbf.filter s) + 1.
Proof.
  intros Hwf Hi.
  destruct (Add_round_wf s data i Hwf Hi)
    as (s' & h & Hh & Hround & Hwf' & (_ & Ek & _) & _).
  exists s'. split; [exact Hround|]. split; [exact Hwf'|]. split; [exact Ek|].
  destruct (hashIndex_wf s data i Hwf Hi) as (h0 & Hh0 & Hidx).
  pose proof (index_range s h0 data Hwf) as Hr.
  destruct (bucket_in_range s _ Hwf Hr) as [Hb Hbit].
  destruct (lookup_lt_is_Some_2 _ _ Hb) as [w Hw].
  unfold Add_round in Hround. rewrite Hidx in Hround.
  cbn [mbind outcome_bind obind] in Hround. rewrite Hw in Hround.
  injection Hround as <-. cbn [Sbf.filter Sbf.with_filter].
  rewrite (setBits_insert _ _ _ w Hw).
  rewrite OnesCount64_atomicSetBit by assumption.
  destruct (Z.testbit w _); lia.
Qed.

Lemma Add_loop_setBits data idxs : forall s,
  wf s -> Forall (fun i => 0 <= i < Sbf.k s) idxs ->
  exists s',
    Add_loop data s idxs = Ret s' /\ wf s'
    /\ setBits (Sbf.filter s) <= setBits (Sbf.filter s')
       <= setBits (Sbf.filter s) + Z.of_nat (length idxs).
Proof.
  induction idxs as [|i idxs IH]; intros s Hwf Hall.
  - exists s. cbn. split; [reflexivity|]. split; [assumption|lia].
  - inversion Hall as [|? ? Hi Hrest]; subst.
    destruct (Add_round_setBits s data i Hwf Hi) as (s1 & Hround & Hwf1 & Ek & Hc1).
    destruct (IH s1 Hwf1) as (s' & Hloop & Hwf' & Hc').
    { rewrite Ek. assumption. }
    exists s'. cbn [Add_loop]. rewrite Hround. cbn [mbind outcome_bind obind].
    split; [exact Hloop|]. split; [assumption|]. cbn [length]. lia.
Qed.

(** [Add] never lowers the count of set bits that
    [EstimateFalsePositiveRate] takes, and raises it by at most [k]. *)
Theorem Add_raises_count_by_at_most_k (s : Sbf.t) (data : list Byte.byte) :
  wf s ->
  exists s',
    Add s data = Ret s'
    /\ countSetBits (Sbf.filter s) <= countSetBits (Sbf.filter s')
       <= countSetBits (Sbf.filter s) + Sbf.k s.
Proof.
  intros Hwf.
  destruct (Add_loop_setBits data (seqZ 0 (Sbf.k s)) s Hwf (seqZ_range _))
    as (s' & Hadd & Hwf' & Hc).
  exists s'. split; [exact Hadd|].
  assert (E : countSetBits (Sbf.filter s) = setBits (Sbf.filter s)).
  { pose proof (setBits_bounds (Sbf.filter s)).
    pose proof (wf_len s Hwf). pose proof (wf_buckets s Hwf).
    pose proof (wf_m64 s Hwf). pose proof (wf_m s Hwf).
    assert (64 * Z.of_nat (length (Sbf.filter s)) = Sbf.m s)
      by (replace (Z.of_nat (length (Sbf.filter s))) with (Sbf.m s / 64) by lia;
          symmetry; apply Z_div_exact_full_2; lia).
    unfold countSetBits. rewrite countSetBits_from by lia. lia. }
  assert (E' : countSetBits (Sbf.filter s') = setBits (Sbf.filter s')).
  { pose proof (setBits_bounds (Sbf.filter s')).
    pose proof (wf_len s' Hwf'). pose proof (wf_buckets s' Hwf').
    pose proof (wf_m64 s' Hwf'). pose proof (wf_m s' Hwf').
    assert (64 * Z.of_nat (length (Sbf.filter s')) = Sbf.m s')
      by (replace (Z.of_nat (length (Sbf.filter s'))) with (Sbf.m s' / 64) by lia;
          symmetry; apply Z_div_exact_full_2; lia).
    unfold countSetBits. rewrite countSetBits_from by lia. lia. }
  rewrite E, E'. rewrite length_seqZ in Hc. pose proof (wf_k s Hwf). lia.
Qed.

Lemma Add_raises_count_by_at_most_k_witness :
  exists s',
    Add sample_filter Sample.ab = Ret s'
    /\ countSetBits (Sbf.filter sample_filter) <= countSetBits (Sbf.filter s')
       <= countSetBits (Sbf.filter sample_filter) + Sbf.k sample_filter.
Proof.
  apply (Add_raises_count_by_at_most_k sample_filter Sample.ab). wf_by_computation.
Defined.

(** ** The capacity-derived constructor *)

Lemma to_uint32_range (unrepresentable : float -> Z) (f : float) :
  0 <= F64.to_uint32 unrepresentable f < 2 ^ 32.
Proof.
  unfold F64.to_uint32. destruct (F64.trunc f) as [z|]; [|apply u32_range].
  destruct ((0 <=? z) && (z <? 2 ^ 32)) eqn:E; [|apply u32_range].
  apply andb_true_iff in E as [E1 E2].
  apply Z.leb_le in E1. apply Z.ltb_lt in E2. lia.
Qed.

Lemma OptimalK_range (unrepresentable : float -> Z) (m n k : Z) (e : option error) :
  OptimalK unrepresentable m n = (k, e) -> 0 <= k < 2 ^ 32.
Proof.
  unfold OptimalK. destruct (n =? 0); [intros [= <- _]; lia|].
  destruct (m =? 0); [intros [= <- _]; lia|].
  intros [= <- _]. apply to_uint32_range.
Qed.

(** An error of a sizing function is returned as it is, with no filter,
    whatever the decay rate and the interval: [OptimalM]'s error for zero
    expected items, or for a rate [p] with [p <= 0] or [p >= 1]. *)
Theorem NewDefaultStableBloomFilter_errors (Log : float -> float)
    (unrepresentable : float -> Z) HashSeed (expectedItems : Z)
    (falsePositiveRate decayRate : float) (decayInterval : Duration) :
  expectedItems = 0 \/ (falsePositiveRate <=? 0)%float = true
  \/ (1 <=? falsePositiveRate)%float = true ->
  NewDefaultStableBloomFilter Log unrepresentable HashSeed expectedItems
    falsePositiveRate decayRate decayInterval
  = Ret (None, Some (if expectedItems =? 0 then ErrItems else ErrRate)).
Proof.
  intros H. unfold NewDefaultStableBloomFilter, OptimalM.
  destruct (Z.eqb_spec expectedItems 0) as [E|E]; [reflexivity|].
  destruct H as [H|[H|H]]; [contradiction| |].
  - rewrite H. reflexivity.
  - rewrite H, orb_true_r. reflexivity.
Qed.

Lemma NewDefaultStableBloomFilter_errors_witness :
  NewDefaultStableBloomFilter Sample.Log Sample.unrepresentable Sample.HashSeed
    1000 (-0x1p-1) 0 (-5)
  = Ret (None, Some (if 1000 =? 0 then ErrItems else ErrRate)).
Proof.
  apply (NewDefaultStableBloomFilter_errors Sample.Log Sample.unrepresentable
           Sample.HashSeed 1000 (-0x1p-1) 0 (-5)).
  right. left. reflexivity.
Defined.

(** When both sizing functions succeed and the interval is not negative,
    the constructor returns a filter and a nil error: its size is
    [OptimalM]'s value rounded as [NewStableBloomFilter] rounds it, it has
    [OptimalK]'s count of hash functions (the 7 default ones when that
    count is 0), a decay rate of 0.01 in place of 0, and its decay rate is
    never 0. *)
Theorem NewDefaultStableBloomFilter_builds (Log : float -> float)
    (unrepresentable : float -> Z) HashSeed (expectedItems m k : Z)
    (falsePositiveRate decayRate : float) (decayInterval : Duration) :
  OptimalM Log unrepresentable expectedItems falsePositiveRate = (m, None) ->
  OptimalK unrepresentable m expectedItems = (k, None) ->
  0 <= decayInterval ->
  exists s,
    NewDefaultStableBloomFilter Log unrepresentable HashSeed expectedItems
      falsePositiveRate decayRate decayInterval = Ret (Some s, None)
    /\ Sbf.m s = roundedSize m
    /\ Sbf.k s = (if k =? 0 then 7 else k)
    /\ Z.of_nat (length (Sbf.hashFuncs s)) = Sbf.k s
    /\ Sbf.decayRate s
       = (if (decayRate =? 0)%float then 0x1.47ae147ae147bp-7%float else decayRate)
    /\ (Sbf.decayRate s =? 0)%float = false.
Proof.
  intros HM HK Hd. pose proof (OptimalK_range _ _ _ _ _ HK) as Hk.
  unfold NewDefaultStableBloomFilter. rewrite HM, HK.
  set (hf := map (fun i => makeHashFunc HashSeed (u64 i)) (seqZ 0 k)).
  set (rate := if (decayRate =? 0)%float then _ else _).
  set (d := if decayInterval =? 0 then Minute else decayInterval).
  assert (Hdpos : 0 < d).
  { subst d. destruct (Z.eqb_spec decayInterval 0); [reflexivity|lia]. }
  destruct (NewStableBloomFilter_returns HashSeed m hf rate d Hdpos)
    as (s & Hs & Em & _ & _ & Er & _ & Ek & Eh).
  rewrite Hs. cbn [mbind outcome_bind obind].
  exists s. split; [reflexivity|]. split; [exact Em|].
  assert (Hlen : Z.of_nat (length hf) = k).
  { subst hf. rewrite length_map, length_seqZ. lia. }
  rewrite Hlen in Eh.
  assert (Hk' : Sbf.k s = (if k =? 0 then 7 else k)
                /\ Z.of_nat (length (Sbf.hashFuncs s)) = Sbf.k s).
  { rewrite Ek, Eh. destruct (Z.eqb_spec k 0) as [E|E].
    - split; reflexivity.
    - rewrite Hlen. rewrite u32_small by lia. split; reflexivity. }
  destruct Hk' as [Hk1 Hk2]. split; [exact Hk1|]. split; [exact Hk2|].
  split; [exact Er|]. rewrite Er. subst rate.
  destruct (decayRate =? 0)%float eqn:E; [reflexivity|exact E].
Qed.

Lemma NewDefaultStableBloomFilter_builds_witness :
  exists s,
    NewDefaultStableBloomFilter Sample.Log Sample.unrepresentable Sample.HashSeed
      1000 0x1.47ae147ae147bp-7 0 0 = Ret (Some s, None)
    /\ Sbf.m s = roundedSize 9586
    /\ Sbf.k s = (if 7 =? 0 then 7 else 7)
    /\ Z.of_nat (length (Sbf.hashFuncs s)) = Sbf.k s
    /\ Sbf.decayRate s
       = (if (0 =? 0)%float then 0x1.47ae147ae147bp-7%float else 0%float)
    /\ (Sbf.decayRate s =? 0)%float = false.
Proof.
  apply (NewDefaultStableBloomFilter_builds Sample.Log Sample.unrepresentable
           Sample.HashSeed 1000 9586 7 0x1.47ae147ae147bp-7 0 0).
  - vm_compute. reflexivity.
  - vm_compute. reflexivity.
  - lia.
Defined.

(** A negative interval is not replaced by the default (only 0 is): when
    both sizing functions succeed, the constructor panics in
    [time.NewTicker]. *)
Theorem NewDefaultStableBloomFilter_negative_interval (Log : float -> float)
    (unrepresentable : float -> Z) HashSeed (expectedItems m k : Z)
    (falsePositiveRate decayRate : float) (decayInterval : Duration) :
  OptimalM Log unrepresentable expectedItems falsePositiveRate = (m, None) ->
  OptimalK unrepresentable m expectedItems = (k, None) ->
  decayInterval < 0 ->
  NewDefaultStableBloomFilter Log unrepresentable HashSeed expectedItems
    falsePositiveRate decayRate decayInterval = Panic NonPositiveInterval.
Proof.
  intros HM HK Hd. unfold NewDefaultStableBloomFilter. rewrite HM, HK.
  destruct (Z.eqb_spec decayInterval 0) as [E|_]; [lia|].
  unfold NewStableBloomFilter.
  destruct (Z.leb_spec decayInterval 0) as [_|H]; [reflexivity|lia].
Qed.

Lemma NewDefaultStableBloomFilter_negative_interval_witness :
  NewDefaultStableBloomFilter Sample.Log Sample.unrepresentable Sample.HashSeed
    1000 0x1.47ae147ae147bp-7 0 (-1) = Panic NonPositiveInterval.
Proof.
  apply (NewDefaultStableBloomFilter_negative_interval Sample.Log
           Sample.unrepresentable Sample.HashSeed 1000 9586 7
           0x1.47ae147ae147bp-7 0 (-1)).
  - vm_compute. reflexivity.
  - vm_compute. reflexivity.
  - lia.
Defined.

(** ** The workers of a decay cycle *)

Lemma chunk_before (NumCPU numBuckets chunkSize i i' : Z) :
  0 <= chunkSize -> 0 <= i < i' -> i' < NumCPU ->
  snd (chunk NumCPU numBuckets chunkSize i)
  <= fst (chunk NumCPU numBuckets chunkSize i').
Proof.
  intros Hcs Hi Hi'. rewrite chunk_fst, chunk_snd.
  destruct (Z.eqb_spec i (NumCPU - 1)) as [E|_]; [lia|]. cbn [orb].
  destruct (Z.ltb_spec numBuckets (i * chunkSize + chunkSize)); nia.
Qed.

(** The ranges of the workers of [decay] split the words of the bit
    array: every word lies in the range of exactly one worker. *)
Theorem decay_chunks_partition (NumCPU numBuckets j : Z) :
  0 < NumCPU -> 0 <= j < numBuckets ->
  exists i,
    0 <= i < NumCPU
    /\ fst (chunk NumCPU numBuckets (chunkSizeOf NumCPU numBuckets) i) <= j
       < snd (chunk NumCPU numBuckets (chunkSizeOf NumCPU numBuckets) i)
    /\ forall i',
         0 <= i' < NumCPU ->
         fst (chunk NumCPU numBuckets (chunkSizeOf NumCPU numBuckets) i') <= j
         < snd (chunk NumCPU numBuckets (chunkSizeOf NumCPU numBuckets) i') ->
         i' = i.
Proof.
  intros Hcpu Hj.
  destruct (chunk_cover NumCPU Hcpu numBuckets j Hj) as (i & Hi & Hlo & Hhi).
  exists i. split; [exact Hi|]. split; [lia|].
  assert (Hcs : 0 <= chunkSizeOf NumCPU numBuckets).
  { unfold chunkSizeOf. rewrite Z.quot_div_nonneg by lia.
    destruct (_ =? 0); [lia|]. apply Z.div_pos; lia. }
  intros i' Hi' [Hlo' Hhi'].
  destruct (Z.lt_trichotomy i i') as [Hlt|[E|Hgt]]; [|now symmetry|].
  - pose proof (chunk_before NumCPU numBuckets _ i i' Hcs ltac:(lia) ltac:(lia)). lia.
  - pose proof (chunk_before NumCPU numBuckets _ i' i Hcs ltac:(lia) ltac:(lia)). lia.
Qed.

Lemma decay_chunks_partition_witness :
  exists i,
    0 <= i < 4
    /\ fst (chunk 4 10 (chunkSizeOf 4 10) i) <= 9
       < snd (chunk 4 10 (chunkSizeOf 4 10) i)
    /\ forall i',
         0 <= i' < 4 ->
         fst (chunk 4 10 (chunkSizeOf 4 10) i') <= 9
         < snd (chunk 4 10 (chunkSizeOf 4 10) i') ->
         i' = i.
Proof. apply (decay_chunks_partition 4 10 9); lia. Defined.

(** ** Two callers of atomicSetBit, in general *)

(** For every word and every two distinct bit numbers below 64 of which
    the first is clear in the word: when both callers read before either
    writes, both return and the first caller's bit is not set; when the
    first caller returns before the second reads, both bits are set. *)
Theorem atomicSetBit_interleavings (w n1 n2 : Z) :
  0 <= n1 < 64 -> 0 <= n2 < 64 -> n1 <> n2 -> Z.testbit w n1 = false ->
  (snd (Race.run Race.step [0; 1; 0; 1]%nat w [Race.Called n1; Race.Called n2])
   = [Race.Returned; Race.Returned]
   /\ atomicGetBit
        (fst (Race.run Race.step [0; 1; 0; 1]%nat w [Race.Called n1; Race.Called n2]))
        n1 = false)
  /\ (snd (Race.run Race.step [0; 0; 1; 1]%nat w [Race.Called n1; Race.Called n2])
      = [Race.Returned; Race.Returned]
      /\ atomicGetBit
           (fst (Race.run Race.step [0; 0; 1; 1]%nat w [Race.Called n1; Race.Called n2]))
           n1 = true
      /\ atomicGetBit
           (fst (Race.run Race.step [0; 0; 1; 1]%nat w [Race.Called n1; Race.Called n2]))
           n2 = true).
Proof.
  intros H1 H2 Hne Hclear. cbn.
  rewrite !atomicGetBit_testbit by lia. rewrite !atomicSetBit_testbit by lia.
  rewrite Hclear, !Z.eqb_refl, !orb_true_r.
  destruct (Z.eqb_spec n2 n1) as [E|_]; [congruence|].
  repeat split.
Qed.

Lemma atomicSetBit_interleavings_witness :
  (snd (Race.run Race.step [0; 1; 0; 1]%nat 4 [Race.Called 0; Race.Called 5])
   = [Race.Returned; Race.Returned]
   /\ atomicGetBit
        (fst (Race.run Race.step [0; 1; 0; 1]%nat 4 [Race.Called 0; Race.Called 5]))
        0 = false)
  /\ (snd (Race.run Race.step [0; 0; 1; 1]%nat 4 [Race.Called 0; Race.Called 5])
      = [Race.Returned; Race.Returned]
      /\ atomicGetBit
           (fst (Race.run Race.step [0; 0; 1; 1]%nat 4 [Race.Called 0; Race.Called 5]))
           0 = true
      /\ atomicGetBit
           (fst (Race.run Race.step [0; 0; 1; 1]%nat 4 [Race.Called 0; Race.Called 5]))
           5 = true).
Proof.
  apply (atomicSetBit_interleavings 4 0 5); try lia. reflexivity.
Defined.

(** ** Goroutines inside [Add] *)

Lemma wf_word s n w : wf s -> Sbf.filter s !! n = Some w -> is_word w.
Proof.
  intros Hwf Hw. pose proof (wf_words s Hwf) as Hall.
  rewrite Forall_lookup in Hall. exact (Hall _ _ Hw).
Qed.

Lemma wf_insert_word s b v :
  wf s -> is_word v ->
  wf (Sbf.with_filter s (<[b := v]> (Sbf.filter s))).
Proof.
  intros [Hm H64 Hnb Hlen Hk Hws] Hv. constructor; cbn; try assumption.
  - now rewrite length_insert.
  - apply Forall_insert; assumption.
Qed.

(** The access a goroutine makes: none when it has returned, else the
    read or the write of its round; it never panics. *)
Lemma step_cases (s0 s : Sbf.t) (g : Workers.worker) :
  wf s -> s = Sbf.with_filter s0 (Sbf.filter s) -> valid s0 g ->
  (Workers.rounds g = [] /\ Workers.step s g = Ret (s, g))
  \/ exists i rest h w,
       Workers.rounds g = i :: rest /\ 0 <= i < Sbf.k s0
       /\ Sbf.hashFuncs s0 !! Z.to_nat i = Some h
       /\ 0 <= index s0 h (Workers.data g) < Sbf.m s0
       /\ Sbf.filter s !! Z.to_nat (index s0 h (Workers.data g) / 64) = Some w
       /\ ((Workers.held g = None
            /\ Workers.step s g
               = Ret (s, Workers.mk (Workers.data g) (i :: rest) (Some w)))
           \/ exists v,
                Workers.held g = Some v
                /\ Workers.step s g
                   = Ret (Sbf.with_filter s
                            (<[Z.to_nat (index s0 h (Workers.data g) / 64)
                               := atomicSetBit v (index s0 h (Workers.data g) mod 64)]>
                               (Sbf.filter s)),
                          Workers.mk (Workers.data g) rest None)).
Proof.
  intros Hwf Hcfg [Hrounds Hheld]. unfold Workers.step.
  destruct (Workers.rounds g) as [|i rest] eqn:Er; [left; now split|right].
  inversion Hrounds as [|? ? Hi Hrest]; subst.
  assert (Ek : Sbf.k s = Sbf.k s0) by (rewrite Hcfg; reflexivity).
  assert (Eh : Sbf.hashFuncs s = Sbf.hashFuncs s0) by (rewrite Hcfg; reflexivity).
  assert (Em : Sbf.m s = Sbf.m s0) by (rewrite Hcfg; reflexivity).
  destruct (hashIndex_wf s (Workers.data g) i Hwf ltac:(lia)) as (h & Hh & Hidx).
  assert (Ei : index s h (Workers.data g) = index s0 h (Workers.data g))
    by (unfold index; now rewrite Em).
  rewrite Ei in Hidx. rewrite Eh in Hh.
  pose proof (index_range s h (Workers.data g) Hwf) as Hr. rewrite Ei in Hr.
  destruct (bucket_in_range s _ Hwf Hr) as [Hb Hbit].
  destruct (lookup_lt_is_Some_2 _ _ Hb) as [w Hw].
  exists i, rest, h, w. split; [reflexivity|]. split; [assumption|].
  split; [assumption|]. split; [now rewrite <- Em|]. split; [assumption|].
  rewrite Hidx. cbn [mbind outcome_bind obind]. rewrite Hw.
  destruct (Workers.held g) as [v|]; [right; exists v|left]; now split.
Qed.

Lemma seqZ_head (j n i : Z) (rest : list Z) :
  seqZ j n = i :: rest -> i = j /\ 0 < n /\ rest = seqZ (j + 1) (n - 1).
Proof.
  intros H. destruct (Z.le_gt_cases n 0) as [Hn|Hn].
  - rewrite seqZ_nil in H by assumption. discriminate.
  - rewrite seqZ_cons in H by lia. injection H as <- <-.
    split; [reflexivity|]. split; [lia|]. f_equal; lia.
Qed.

Lemma same_word (x y : Z) :
  0 <= x -> 0 <= y -> Z.to_nat (x / 64) = Z.to_nat (y / 64) -> x / 64 = y / 64.
Proof.
  intros Hx Hy E. apply Z2Nat.inj in E; [assumption| |]; apply Z.div_pos; lia.
Qed.

(** An access of the caller of [Add(data)] keeps what holds of it. *)
Lemma step_of_caller s0 data a s gs g :
  caller_inv s0 data a s gs -> gs !! a = Some g ->
  exists s' g',
    Workers.step s g = Ret (s', g')
    /\ caller_inv s0 data a s' (<[a := g']> gs)
    /\ accesses_left g' = pred (accesses_left g).
Proof.
  intros [Hwf Hcfg Hvalid Hapart (ga & j & Hga & Hdata & Hj & Hrounds & Hbits & Hheld)] Hg.
  rewrite Hga in Hg. injection Hg as ->.
  pose proof (Hvalid a g Hga) as Hvg.
  assert (Hlt : (a < length gs)%nat) by (eapply lookup_lt_Some; eassumption).
  destruct (step_cases s0 s g Hwf Hcfg Hvg)
    as [[Er Hstep]|(i & rest & h & w & Er & Hi & Hh & Hidx & Hw & Hcase)].
  - exists s, g. split; [exact Hstep|]. split.
    + rewrite list_insert_id by assumption.
      constructor; try assumption. exists g, j. repeat split; assumption || lia.
    + unfold accesses_left. rewrite Er. destruct (Workers.held g); reflexivity.
  - rewrite Hdata in *.
    assert (Ej : i = j /\ 0 < Sbf.k s0 - j
                 /\ rest = seqZ (j + 1) (Sbf.k s0 - (j + 1))).
    { rewrite Hrounds in Er. apply seqZ_head in Er as (-> & Hjk & ->).
      split; [reflexivity|]. split; [assumption|]. f_equal. lia. }
    destruct Ej as (-> & Hjk & Erest).
    assert (Hother : forall t' g', t' <> a -> <[a := g']> gs !! t' = gs !! t').
    { intros t' g' Hne. apply list_lookup_insert_ne. congruence. }
    destruct Hvg as [Hv1 Hv2]. rewrite Er in Hv1.
    destruct Hcase as [[Eheld Hstep]|(v & Eheld & Hstep)].
    + (* the read *)
      eexists _, _. split; [exact Hstep|]. split.
      * constructor; try assumption.
        -- intros t' g' Hg'. destruct (decide (t' = a)) as [->|Hne].
           ++ rewrite list_lookup_insert_eq in Hg' by assumption. injection Hg' as <-.
              split; cbn; [exact Hv1|].
              intros v [= <-]. eapply wf_word; eassumption.
           ++ rewrite Hother in Hg' by assumption. eauto.
        -- intros t' g' Hne Hg'. rewrite Hother in Hg' by assumption. eauto.
        -- eexists _, j. rewrite list_lookup_insert_eq by assumption. cbn.
           split; [reflexivity|]. split; [reflexivity|]. split; [assumption|].
           split; [rewrite <- Hrounds; symmetry; exact Er|].
           split; [assumption|].
           intros v [= <-]. exists h. split; [lia|]. split; assumption.
      * unfold accesses_left. cbn [Workers.held Workers.rounds].
        rewrite Eheld, Er. cbn [length]. lia.
    + (* the write, of the word read *)
      destruct (Hheld v Eheld) as (h' & _ & Hh' & Hv).
      rewrite Hh in Hh'. injection Hh' as <-.
      rewrite Hw in Hv. injection Hv as <-.
      assert (Hword : is_word w) by (eapply wf_word; eassumption).
      set (b := Z.to_nat (index s0 h data / 64)) in *.
      assert (Hblt : (b < length (Sbf.filter s))%nat)
        by (eapply lookup_lt_Some; eassumption).
      assert (Hbit : 0 <= index s0 h data mod 64 < 64)
        by (apply Z.mod_pos_bound; lia).
      eexists _, _. split; [exact Hstep|]. split.
      * constructor.
        -- apply wf_insert_word; [assumption|]. now apply atomicSetBit_range.
        -- cbn. rewrite Hcfg at 1. reflexivity.
        -- intros t' g' Hg'. destruct (decide (t' = a)) as [->|Hne].
           ++ rewrite list_lookup_insert_eq in Hg' by assumption. injection Hg' as <-.
              split; cbn; [|discriminate]. now inversion Hv1.
           ++ rewrite Hother in Hg' by assumption. eauto.
        -- intros t' g' Hne Hg'. rewrite Hother in Hg' by assumption. eauto.
        -- eexists _, (j + 1). rewrite list_lookup_insert_eq by assumption. cbn.
           split; [reflexivity|]. split; [reflexivity|]. split; [lia|].
           split; [exact Erest|]. split; [|discriminate].
           intros i' h' Hi' Hh'. rewrite bitAt_insert by assumption.
           destruct (decide (b = Z.to_nat (index s0 h' data / 64))) as [Eb|Eb].
           ++ rewrite atomicSetBit_testbit;
                [|assumption|apply Z.mod_pos_bound; lia].
              destruct (Z.eq_dec i' j) as [->|Hne'].
              ** rewrite Hh in Hh'. injection Hh' as <-.
                 rewrite Z.eqb_refl. apply orb_true_r.
              ** specialize (Hbits i' h' ltac:(lia) Hh').
                 unfold bitAt in Hbits. rewrite <- Eb, Hw in Hbits.
                 now rewrite Hbits.
           ++ destruct (Z.eq_dec i' j) as [->|Hne'].
              ** rewrite Hh in Hh'. injection Hh' as <-. exfalso. apply Eb. reflexivity.
              ** apply (Hbits i' h'); [lia|assumption].
      * unfold accesses_left. cbn [Workers.held Workers.rounds].
        rewrite Eheld, Er. cbn [length]. lia.
Qed.

(** An access of another goroutine, which stays apart from the caller's
    words, keeps what holds of the caller. *)
Lemma step_of_other s0 data a s gs t g :
  caller_inv s0 data a s gs -> t <> a -> gs !! t = Some g ->
  exists s' g',
    Workers.step s g = Ret (s', g')
    /\ caller_inv s0 data a s' (<[t := g']> gs).
Proof.
  intros [Hwf Hcfg Hvalid Hapart (ga & j & Hga & Hdata & Hj & Hrounds & Hbits & Hheld)]
         Hne Hg.
  pose proof (Hvalid t g Hg) as Hvg. pose proof (Hapart t g Hne Hg) as Hap.
  assert (Hlt : (t < length gs)%nat) by (eapply lookup_lt_Some; eassumption).
  assert (Em : Sbf.m s = Sbf.m s0) by (rewrite Hcfg; reflexivity).
  assert (Hcaller : forall g', <[t := g']> gs !! a = Some ga).
  { intros g'. rewrite list_lookup_insert_ne by assumption. exact Hga. }
  destruct (step_cases s0 s g Hwf Hcfg Hvg)
    as [[Er Hstep]|(i & rest & h & w & Er & Hi & Hh & Hidx & Hw & Hcase)].
  - exists s, g. split; [exact Hstep|].
    rewrite list_insert_id by assumption.
    constructor; try assumption. exists ga, j. repeat split; assumption || lia.
  - destruct Hvg as [Hv1 Hv2]. rewrite Er in Hv1.
    assert (Hrest : forall hd,
              (forall v, hd = Some v -> is_word v) ->
              valid s0 (Workers.mk (Workers.data g) rest hd)
              /\ apart s0 data (Workers.mk (Workers.data g) rest hd)).
    { intros hd Hhd. split.
      - split; cbn; [now inversion Hv1|assumption].
      - unfold apart in *. cbn [Workers.rounds Workers.data].
        intros i' h' idx Hin. apply Hap. rewrite Er. now right. }
    destruct Hcase as [[Eheld Hstep]|(v & Eheld & Hstep)].
    + (* the read *)
      eexists _, _. split; [exact Hstep|].
      constructor; try assumption.
      * intros t' g' Hg'. destruct (decide (t' = t)) as [->|Hne'].
        -- rewrite list_lookup_insert_eq in Hg' by assumption. injection Hg' as <-.
           split; cbn; [exact Hv1|].
           intros v [= <-]. eapply wf_word; eassumption.
        -- rewrite list_lookup_insert_ne in Hg' by congruence. eauto.
      * intros t' g' Hne' Hg'. destruct (decide (t' = t)) as [->|Hne''].
        -- rewrite list_lookup_insert_eq in Hg' by assumption. injection Hg' as <-.
           unfold apart in *. cbn [Workers.rounds Workers.data].
           rewrite Er in Hap. exact Hap.
        -- rewrite list_lookup_insert_ne in Hg' by congruence. eauto.
      * exists ga, j. rewrite Hcaller. repeat split; assumption || lia.
    + (* the write, to a word that is none of the caller's *)
      assert (Hv : is_word v) by now apply Hv2.
      set (b := Z.to_nat (index s0 h (Workers.data g) / 64)) in *.
      assert (Hblt : (b < length (Sbf.filter s))%nat)
        by (eapply lookup_lt_Some; eassumption).
      assert (Hfar : forall i' h', 0 <= i' < Sbf.k s0 ->
                Sbf.hashFuncs s0 !! Z.to_nat i' = Some h' ->
                b <> Z.to_nat (index s0 h' data / 64)).
      { intros i' h' Hi' Hh' Eb.
        apply (Hap i h (index s0 h' data)); [rewrite Er; now left|assumption| |].
        - exists i', h'. split; [assumption|]. split; [assumption|reflexivity].
        - pose proof (index_range s h' data Hwf) as R2.
          unfold index in *. rewrite Em in R2.
          apply same_word; [lia|lia|exact Eb]. }
      eexists _, _. split; [exact Hstep|].
      constructor.
      * apply wf_insert_word; [assumption|].
        apply atomicSetBit_range; [assumption|apply Z.mod_pos_bound; lia].
      * cbn. rewrite Hcfg at 1. reflexivity.
      * intros t' g' Hg'. destruct (decide (t' = t)) as [->|Hne'].
        -- rewrite list_lookup_insert_eq in Hg' by assumption. injection Hg' as <-.
           apply Hrest. discriminate.
        -- rewrite list_lookup_insert_ne in Hg' by congruence. eauto.
      * intros t' g' Hne' Hg'. destruct (decide (t' = t)) as [->|Hne''].
        -- rewrite list_lookup_insert_eq in Hg' by assumption. injection Hg' as <-.
           apply Hrest. discriminate.
        -- rewrite list_lookup_insert_ne in Hg' by congruence. eauto.
      * exists ga, j. rewrite Hcaller. cbn.
        split; [reflexivity|]. split; [assumption|]. split; [assumption|].
        split; [assumption|]. split.
        -- intros i' h' Hi' Hh'. rewrite bitAt_insert by assumption.
           rewrite decide_False; [apply (Hbits i' h'); assumption|].
           apply (Hfar i' h'); [lia|assumption].
        -- intros v' Hv'. destruct (Hheld v' Hv') as (h' & Hjk & Hh' & Hword).
           exists h'. split; [assumption|]. split; [assumption|].
           rewrite list_lookup_insert_ne; [assumption|].
           apply (Hfar j h'); [lia|assumption].
Qed.

(** Under every schedule the goroutines run without a panic, and what
    holds of the caller of [Add(data)] is kept; the caller has as many
    accesses less to make as the schedule gave it turns. *)
Lemma run_caller_inv s0 data a sched : forall s gs g,
  caller_inv s0 data a s gs -> gs !! a = Some g ->
  exists s' gs' g',
    Workers.run sched s gs = Ret (s', gs')
    /\ caller_inv s0 data a s' gs'
    /\ gs' !! a = Some g'
    /\ accesses_left g' = (accesses_left g - turns a sched)%nat.
Proof.
  induction sched as [|t sched IH]; intros s gs g Hinv Hg.
  - exists s, gs, g. cbn. split; [reflexivity|]. split; [assumption|].
    split; [assumption|]. unfold turns. cbn. lia.
  - cbn [Workers.run]. destruct (gs !! t) as [gt|] eqn:Egt.
    + destruct (decide (t = a)) as [->|Hne].
      * rewrite Hg in Egt. injection Egt as <-.
        destruct (step_of_caller s0 data a s gs g Hinv Hg)
          as (s1 & g1 & Hstep & Hinv1 & Hacc).
        rewrite Hstep. cbn [mbind outcome_bind obind].
        assert (Hg1 : <[a := g1]> gs !! a = Some g1).
        { apply list_lookup_insert_eq. eapply lookup_lt_Some. eassumption. }
        destruct (IH s1 _ g1 Hinv1 Hg1) as (s' & gs' & g' & Hrun & Hinv' & Hg' & Hacc').
        exists s', gs', g'. split; [exact Hrun|]. split; [assumption|].
        split; [assumption|]. rewrite Hacc', Hacc. unfold turns. cbn [List.filter].
        rewrite Nat.eqb_refl. cbn [length]. lia.
      * destruct (step_of_other s0 data a s gs t gt Hinv Hne Egt)
          as (s1 & g1 & Hstep & Hinv1).
        rewrite Hstep. cbn [mbind outcome_bind obind].
        assert (Hg1 : <[t := g1]> gs !! a = Some g).
        { rewrite list_lookup_insert_ne by assumption. exact Hg. }
        destruct (IH s1 _ g Hinv1 Hg1) as (s' & gs' & g' & Hrun & Hinv' & Hg' & Hacc').
        exists s', gs', g'. split; [exact Hrun|]. split; [assumption|].
        split; [assumption|]. rewrite Hacc'. unfold turns. cbn [List.filter].
        replace (a =? t)%nat with false by (symmetry; apply Nat.eqb_neq; congruence).
        reflexivity.
    + destruct (IH s gs g Hinv Hg) as (s' & gs' & g' & Hrun & Hinv' & Hg' & Hacc').
      exists s', gs', g'. split; [exact Hrun|]. split; [assumption|].
      split; [assumption|]. rewrite Hacc'. unfold turns. cbn [List.filter].
      assert (t <> a).
      { intros ->. rewrite Hg in Egt. discriminate. }
      replace (a =? t)%nat with false by (symmetry; apply Nat.eqb_neq; congruence).
      reflexivity.
Qed.

(** Concurrent callers of [Add].  Under every schedule of the memory
    accesses of any number of goroutines inside [Add], none panics; and
    when the other goroutines write no word in which [data] has a bit, the
    caller of [Add(data)] has returned after its [2 * k] accesses, and
    [Check(data)] is true from then on. *)
Lemma run_Add_then_Check (s : Sbf.t) (data : list Byte.byte)
    (gs : list Workers.worker) (a : nat) (sched : list nat) :
  wf s ->
  gs !! a = Some (Workers.call s data) ->
  (forall t g, gs !! t = Some g -> valid s g) ->
  (forall t g, t <> a -> gs !! t = Some g -> apart s data g) ->
  exists s' gs' g',
    Workers.run sched s gs = Ret (s', gs')
    /\ wf s' /\ s' = Sbf.with_filter s (Sbf.filter s')
    /\ gs' !! a = Some g'
    /\ (Workers.returned g' = true -> Check s' data = Ret true)
    /\ (2 * Z.to_nat (Sbf.k s) <= turns a sched -> Workers.returned g' = true)%nat.
Proof.
  intros Hwf Ha Hvalid Hapart.
  assert (Hinv : caller_inv s data a s gs).
  { constructor; try assumption.
    - symmetry. apply with_filter_same.
    - exists (Workers.call s data), 0. cbn.
      pose proof (wf_k s Hwf) as Hk.
      split; [assumption|]. split; [reflexivity|]. split; [lia|].
      split; [now rewrite Z.sub_0_r|]. split; [intros; lia|discriminate]. }
  destruct (run_caller_inv s data a sched s gs _ Hinv Ha)
    as (s' & gs' & g' & Hrun & Hinv' & Hg' & Hacc).
  exists s', gs', g'. split; [exact Hrun|].
  destruct Hinv' as [Hwf' Hcfg' _ _ (ga & j & Hga & Hdata & Hj & Hrounds & Hbits & _)].
  rewrite Hg' in Hga. injection Hga as <-.
  split; [assumption|]. split; [assumption|]. split; [exact Hg'|].
  split.
  - intros Hret. unfold Workers.returned in Hret. rewrite Hrounds in Hret.
    assert (Ej : j = Sbf.k s).
    { destruct (Z.le_gt_cases (Sbf.k s - j) 0) as [|Hgt]; [lia|].
      rewrite seqZ_cons in Hret by lia. discriminate. }
    subst j.
    destruct (Check_returns s' data Hwf') as (b & Hb & Hiff).
    rewrite Hb. f_equal. apply Hiff. intros i h Hi Hh.
    rewrite Hcfg' in Hi, Hh. cbn in Hi, Hh.
    specialize (Hbits i h Hi Hh). unfold index in Hbits.
    rewrite Hcfg'. cbn. exact Hbits.
  - intros Hturns. unfold accesses_left in Hacc at 2.
    cbn [Workers.call Workers.held Workers.rounds] in Hacc.
    rewrite length_seqZ in Hacc. unfold accesses_left in Hacc.
    unfold Workers.returned.
    destruct (Workers.rounds g') as [|i rest]; [reflexivity|].
    cbn [length] in Hacc. destruct (Workers.held g'); lia.
Qed.

Lemma step_valid (s0 s : Sbf.t) (g : Workers.worker) :
  wf s -> s = Sbf.with_filter s0 (Sbf.filter s) -> valid s0 g ->
  exists s' g',
    Workers.step s g = Ret (s', g') /\ wf s'
    /\ s' = Sbf.with_filter s0 (Sbf.filter s') /\ valid s0 g'.
Proof.
  intros Hwf Hcfg Hv.
  destruct (step_cases s0 s g Hwf Hcfg Hv)
    as [[_ Hstep]|(i & rest & h & w & Er & Hi & Hh & Hidx & Hw & [[Hheld Hstep]|(v & Hheld & Hstep)])].
  - exists s, g. split; [exact Hstep|]. split; [assumption|]. split; assumption.
  - eexists _, _. split; [exact Hstep|]. split; [assumption|]. split; [assumption|].
    destruct Hv as [Hr _]. split; cbn.
    + now rewrite <- Er.
    + intros v [= <-]. eapply wf_word; eassumption.
  - eexists _, _. split; [exact Hstep|].
    destruct Hv as [Hr Hhv]. specialize (Hhv v Hheld).
    split; [|split].
    + apply wf_insert_word; [assumption|].
      apply atomicSetBit_range; [assumption|].
      apply Z.mod_pos_bound; lia.
    + cbn. rewrite Hcfg at 1. reflexivity.
    + split; cbn.
      * rewrite Er in Hr. now inversion Hr.
      * discriminate.
Qed.

(** Under every schedule, goroutines inside [Add] run without a panic and
    leave a usable filter of the same configuration. *)
Lemma run_no_panic (s0 : Sbf.t) (sched : list nat) : forall s gs,
  wf s -> s = Sbf.with_filter s0 (Sbf.filter s) ->
  (forall t g, gs !! t = Some g -> valid s0 g) ->
  exists s' gs',
    Workers.run sched s gs = Ret (s', gs') /\ wf s'
    /\ s' = Sbf.with_filter s0 (Sbf.filter s')
    /\ length gs' = length gs
    /\ (forall t g, gs' !! t = Some g -> valid s0 g).
Proof.
  induction sched as [|t sched IH]; intros s gs Hwf Hcfg Hv.
  - exists s, gs. cbn. split; [reflexivity|]. split; [assumption|].
    split; [assumption|]. split; [reflexivity|assumption].
  - cbn [Workers.run]. destruct (gs !! t) as [g|] eqn:Eg.
    + destruct (step_valid s0 s g Hwf Hcfg (Hv _ _ Eg)) as (s1 & g1 & Hstep & Hwf1 & Hcfg1 & Hv1).
      rewrite Hstep. cbn [mbind outcome_bind obind].
      destruct (IH s1 (<[t := g1]> gs) Hwf1 Hcfg1) as (s' & gs' & Hrun & Hwf' & Hcfg' & Hlen & Hv').
      { intros t' g' Hl. destruct (decide (t' = t)) as [->|Hne].
        - rewrite list_lookup_insert_eq in Hl by (eapply lookup_lt_Some; eassumption).
          now injection Hl as <-.
        - rewrite list_lookup_insert_ne in Hl by congruence. eapply Hv; eassumption. }
      exists s', gs'. split; [exact Hrun|]. split; [assumption|]. split; [assumption|].
      split; [|assumption]. now rewrite Hlen, length_insert.
    + apply IH; assumption.
Qed.


Lemma valid_call (s : Sbf.t) (data : list Byte.byte) : valid s (Workers.call s data).
Proof.
  split; cbn.
  - apply Forall_forall. intros i Hi. apply elem_of_seqZ in Hi. lia.
  - discriminate.
Qed.

Lemma valid_callers (s : Sbf.t) (datas : list (list Byte.byte)) t g :
  callers s datas !! t = Some g -> valid s g.
Proof.
  unfold callers. rewrite list_lookup_fmap. destruct (datas !! t); [|discriminate].
  intros [= <-]. apply valid_call.
Qed.

Lemma apart_call (s : Sbf.t) (data d : list Byte.byte) :
  words_apart s data d -> apart s data (Workers.call s d).
Proof.
  intros Hw i h idx Hi Hh Hhit. cbn in Hi, Hh |- *.
  rewrite <- list_elem_of_In in Hi. apply elem_of_seqZ in Hi.
  intros E. apply (Hw idx (index s h d)); [assumption| |now symmetry].
  exists i, h. split; [lia|]. split; [assumption|reflexivity].
Qed.

(** Elements added by concurrent goroutines.  Under every schedule of the
    memory accesses, an element whose words no other goroutine writes is
    in the filter once its caller has returned, which it has after its
    [2 * k] accesses. *)
Theorem concurrent_Add_then_Check (s : Sbf.t) (datas : list (list Byte.byte))
    (a : nat) (data : list Byte.byte) (sched : list nat) :
  wf s -> datas !! a = Some data ->
  (forall t d, t <> a -> datas !! t = Some d -> words_apart s data d) ->
  exists s' gs' g',
    Workers.run sched s (callers s datas) = Ret (s', gs')
    /\ wf s' /\ s' = Sbf.with_filter s (Sbf.filter s')
    /\ gs' !! a = Some g'
    /\ (Workers.returned g' = true -> Check s' data = Ret true)
    /\ (2 * Z.to_nat (Sbf.k s) <= turns a sched -> Workers.returned g' = true)%nat.
Proof.
  intros Hwf Ha Hapart. apply run_Add_then_Check; try assumption.
  - unfold callers. rewrite list_lookup_fmap, Ha. reflexivity.
  - apply valid_callers.
  - intros t g Hne Hg. unfold callers in Hg. rewrite list_lookup_fmap in Hg.
    destruct (datas !! t) as [d|] eqn:Ed; [|discriminate].
    injection Hg as <-. apply apart_call. eapply Hapart; eassumption.
Qed.

Lemma concurrent_Add_then_Check_witness :
  exists s' gs' g',
    Workers.run [0; 1; 0; 1; 1; 0; 1; 0]%nat sample_filter
      (callers sample_filter [Sample.ab; long_element]) = Ret (s', gs')
    /\ wf s' /\ s' = Sbf.with_filter sample_filter (Sbf.filter s')
    /\ gs' !! 0%nat = Some g'
    /\ (Workers.returned g' = true -> Check s' Sample.ab = Ret true)
    /\ (2 * Z.to_nat (Sbf.k sample_filter) <= turns 0 [0; 1; 0; 1; 1; 0; 1; 0]
        -> Workers.returned g' = true)%nat.
Proof.
  apply (concurrent_Add_then_Check sample_filter [Sample.ab; long_element] 0%nat
           Sample.ab).
  - wf_by_computation.
  - reflexivity.
  - intros t d Hne Hd. destruct t as [|[|t]]; [congruence| |discriminate].
    injection Hd as <-. intros idx idx' (i & h & Hi & Hh & ->) (i' & h' & Hi' & Hh' & ->).
    cbn in Hi, Hi'.
    assert (Ei : i = 0 \/ i = 1) by lia. assert (Ei' : i' = 0 \/ i' = 1) by lia.
    destruct Ei as [-> | ->], Ei' as [-> | ->]; cbn in Hh, Hh';
      injection Hh as <-; injection Hh' as <-; vm_compute; discriminate.
Defined.

(** Elements added by concurrent goroutines, in general.  Under every
    schedule the goroutines run without a panic and leave a usable filter
    of the same configuration. *)
Theorem concurrent_Add_no_panic (s : Sbf.t) (datas : list (list Byte.byte))
    (sched : list nat) :
  wf s ->
  exists s' gs',
    Workers.run sched s (callers s datas) = Ret (s', gs')
    /\ wf s' /\ s' = Sbf.with_filter s (Sbf.filter s')
    /\ length gs' = length datas.
Proof.
  intros Hwf.
  destruct (run_no_panic s sched s (callers s datas) Hwf)
    as (s' & gs' & Hrun & Hwf' & Hcfg & Hlen & _).
  - symmetry. apply with_filter_same.
  - apply valid_callers.
  - exists s', gs'. split; [assumption|]. split; [assumption|]. split; [assumption|].
    rewrite Hlen. unfold callers. apply length_map.
Qed.

Lemma concurrent_Add_no_panic_witness :
  exists s' gs',
    Workers.run [0; 1; 0; 1; 0; 0; 1; 1]%nat sample_filter
      (callers sample_filter [Sample.ab; a_byte]) = Ret (s', gs')
    /\ wf s' /\ s' = Sbf.with_filter sample_filter (Sbf.filter s')
    /\ length gs' = length [Sample.ab; a_byte].
Proof.
  apply (concurrent_Add_no_panic sample_filter [Sample.ab; a_byte]).
  wf_by_computation.
Defined.

(** Two goroutines adding elements with bits in one word.  The write of
    the second goroutine puts back the word it read before the write of
    the first: both return, and the first goroutine's element is not in
    the filter. *)
Theorem concurrent_Add_loses_element :
  exists s' gs',
    Workers.run [0; 1; 0; 1; 0; 0; 1; 1]%nat sample_filter
      (callers sample_filter [Sample.ab; a_byte]) = Ret (s', gs')
    /\ forallb Workers.returned gs' = true
    /\ Sbf.filter s' = [2 ^ 1 + 2 ^ 6 + 2 ^ 58; 0]
    /\ Check s' Sample.ab = Ret false
    /\ Check s' a_byte = Ret true.
Proof.
  eexists _, _. split; [vm_compute; reflexivity|].
  repeat split; vm_compute; reflexivity.
Qed.
